(** * beatsaber-hook: the hand-written AArch64 decoder and its analyses

    A shallow embedding of [shared/utils/instruction-parsing.cpp] (the bit-field
    codec, the [Instruction] constructor, the address-resolution helpers and the
    dependency-tracking traversal) and of the pattern scan of
    [shared/utils/capstone-utils.hpp], followed by the properties proved about
    them.

    Conventions.  Machine integers are [Z] with their wrap-around written out
    ([u32], [u64], [s64]); bit operations are [Z.land], [Z.lor], [Z.shiftl],
    [Z.shiftr], [Z.testbit].  Pointers are byte addresses in [Z]. *)

From Stdlib Require Import ZArith Lia Bool.
From stdpp Require Import base option list gmap strings.

Local Open Scope Z_scope.

(* ===================================================================== *)
(** * 1. Bit-field codec *)
(* ===================================================================== *)

Module Bits.

(** Conversion to [unsigned] (32 bits), [uint64_t] and [int64_t]. *)
Definition u32 (x : Z) : Z := x mod 2 ^ 32.
Definition u64 (x : Z) : Z := x mod 2 ^ 64.
Definition s64 (x : Z) : Z := (x + 2 ^ 63) mod 2 ^ 64 - 2 ^ 63.

(** Modelled from the spec: [bits(code, hi, lo)] is declared in a header that
    is not part of the sources at hand; the spec says it "extracts an unsigned
    field", bit [hi] down to bit [lo] of the code word. *)
Definition bits (code hi lo : Z) : Z :=
  Z.land (Z.shiftr code lo) (Z.ones (hi - lo + 1)).

(** Modelled from the spec: [ZeroExtend<T>(value, numBits)] widens a field
    "discarding sign": the low [numBits] bits, read as unsigned. *)
Definition ZeroExtend (value numBits : Z) : Z := Z.land value (Z.ones numBits).

(** Modelled from the spec: [SignExtend<T>(value, numBits)] widens a field
    "preserving sign": the low [numBits] bits, read in two's complement. *)
Definition SignExtend (value numBits : Z) : Z :=
  let v := Z.land value (Z.ones numBits) in
  if Z.testbit v (numBits - 1) then v - 2 ^ numBits else v.

(** Modelled from the spec: [trunc(x, N)] masks [x] to its low [N] bits. *)
Definition trunc (x N : Z) : Z := Z.land x (Z.ones N).

(** Modelled from the spec: [HighestSetBit(x, N)] is the index of the highest
    set bit among the low [N] bits of [x], and [-1] when none is set. *)
Fixpoint highest_below (n : nat) (x : Z) : Z :=
  match n with
  | O => -1
  | S k => if Z.testbit x (Z.of_nat k) then Z.of_nat k else highest_below k x
  end.

Definition HighestSetBit (x N : Z) : Z := highest_below (Z.to_nat N) x.

(** Modelled from the spec: [ROR(x, N, shift)] rotates the low [N] bits of
    [x] right by [shift] places "within the element". *)
Definition ROR (x N shift : Z) : Z :=
  Z.land (Z.lor (Z.shiftr x shift) (Z.shiftl x (N - shift))) (Z.ones N).

End Bits.
Import Bits.

(** The value [return -1] yields in a function returning [uint64_t]. *)
Definition all_ones64 : Z := u64 (-1).

(** The replication loop of [DecodeBitMasks]:
    [while (size < regSize) { pattern |= (pattern << size); size *= 2; }]
    with [size] an [unsigned] and [pattern] a [uint64_t].  [size] starts from a
    power of two of at most 64, so after 32 doublings it has wrapped to 0 and
    stays there: a loop that has not left by then never does, which is the
    [None] of the model. *)
Fixpoint replicate_loop (fuel : nat) (pattern size regSize : Z) : option Z :=
  if size <? regSize then
    match fuel with
    | O => None
    | S fuel' =>
        replicate_loop fuel' (Z.lor pattern (u64 (Z.shiftl pattern size)))
                       (u32 (size * 2)) regSize
    end
  else Some pattern.

(** [uint64_t DecodeBitMasks(unsigned N, unsigned imms, unsigned immr, unsigned regSize)] *)
Definition DecodeBitMasks (N imms immr regSize : Z) : option Z :=
  let len := HighestSetBit (Z.lor (u32 (Z.shiftl N 6)) (trunc (u32 (Z.lnot imms)) 6)) 7 in
  if len <? 1 then Some all_ones64 else
  let size := u32 (Z.shiftl 1 len) in
  let levels := u32 (size - 1) in
  let R := Z.land immr levels in
  let S := Z.land imms levels in
  if S =? levels then Some all_ones64 else
  let pattern := u64 (u64 (Z.shiftl 1 (S + 1)) - 1) in
  let pattern := ROR pattern size R in
  replicate_loop 32 pattern size regSize.

(** ** The logical-immediate decode as the architecture words it

    Written from the specification, bit by bit, and independent of the shifts
    and of the doubling loop above: an element of [size] bits whose rightmost
    [S+1] bits are ones, rotated right by [R] within the element, and copied
    into every element-sized slot of the register. *)
Module LogicalImmediate.

(** The number whose bit [i] (for [0 <= i < n]) is [f i]. *)
Fixpoint of_bits (n : nat) (f : Z -> bool) : Z :=
  match n with
  | O => 0
  | S k => Z.lor (of_bits k f) (if f (Z.of_nat k) then 2 ^ Z.of_nat k else 0)
  end.

Definition Ones (n : Z) : Z := of_bits (Z.to_nat n) (fun _ => true).

Definition RotateRight (elem size R : Z) : Z :=
  of_bits (Z.to_nat size) (fun i => Z.testbit elem ((i + R) mod size)).

Definition Replicate (elem size regSize : Z) : Z :=
  of_bits (Z.to_nat (Z.max size regSize)) (fun i => Z.testbit elem (i mod size)).

Definition pattern (size S R regSize : Z) : Z :=
  Replicate (RotateRight (Ones (S + 1)) size R) size regSize.

End LogicalImmediate.

(** The element length of a logical immediate, as [DecodeBitMasks] takes it. *)
Definition element_len (N imms : Z) : Z :=
  HighestSetBit (Z.lor (Z.shiftl N 6) (trunc (Z.lnot imms) 6)) 7.

(** One point of the exhaustive comparison of [DecodeBitMasks] with
    [LogicalImmediate.pattern]. *)
Definition DecodeBitMasks_agrees (N imms immr regSize : Z) : bool :=
  let len := element_len N imms in
  let levels := 2 ^ len - 1 in
  let reserved := (len <? 1) || (Z.land imms levels =? levels) in
  match DecodeBitMasks N imms immr regSize with
  | None => false
  | Some v =>
      if reserved then v =? all_ones64
      else negb (v =? all_ones64) &&
           (v =? LogicalImmediate.pattern (2 ^ len) (Z.land imms levels)
                                           (Z.land immr levels) regSize)
  end.

(** Exhaustive check of a predicate over the fields [N], [imms], [immr]. *)
Definition forall_fields (f : Z -> Z -> Z -> bool) : bool :=
  forallb (fun N => forallb (fun imms => forallb (fun immr => f N imms immr)
    (seqZ 0 64)) (seqZ 0 64)) (seqZ 0 2).

Definition DecodeBitMasks_agrees_both (N imms immr : Z) : bool :=
  DecodeBitMasks_agrees N imms immr 32 && DecodeBitMasks_agrees N imms immr 64.


(* ===================================================================== *)
(** * 2. The instruction record *)
(* ===================================================================== *)

(** [Instruction::BranchType]. *)
Inductive BranchType : Set := NOBRANCH | DIR | DIRCALL | INDIR | INDCALL | RET.

Global Instance BranchType_eq_dec : EqDecision BranchType.
Proof. solve_decision. Defined.

(** [Register::SP], [Register::RZR] and [Register::RLINK]. *)
Definition SP : Z := 31.
Definition RZR : Z := 31.
Definition RLINK : Z := 30.

(** Modelled from the spec: the enumerations [ShiftType] and [ExtendType] are
    declared in the missing header; the constructor casts the instruction's
    two-bit "shift" and three-bit "option" fields to them, so the
    enumerators carry the architecture's encodings. *)
Module ShiftType.
Definition LSL : Z := 0.
Definition LSR : Z := 1.
Definition ASR : Z := 2.
Definition ROR : Z := 3.
End ShiftType.

Module ExtendType.
Definition UXTB : Z := 0.
Definition UXTH : Z := 1.
Definition UXTW : Z := 2.
Definition UXTX : Z := 3.
Definition SXTB : Z := 4.
Definition SXTH : Z := 5.
Definition SXTW : Z := 6.
Definition SXTX : Z := 7.
End ExtendType.

(** Modelled from the spec: the class [Instruction] is declared in the missing
    header.  The fields are those the constructor assigns; a field the header
    may leave without an initialiser is an [option], [None] standing for
    "never assigned".  [kind] holds the entries [kind[0 .. parseLevel-1]]
    assigned so far, so that [parseLevel] is its length. *)
Record Instruction : Type := mkInstruction {
  addr : Z;
  numSourceRegisters : Z;
  Rs : list Z;
  Rs0CanBeSP : option bool;
  Rd : Z;
  Rd2 : Z;
  RdCanBeSP : option bool;
  imm : option Z;
  result : option Z;
  label : option Z;
  branchType : BranchType;
  cond : option Z;
  shiftType : option Z;
  extendType : option Z;
  wback : option bool;
  postindex : option bool;
  kind : list string;
  parsed : bool;
  valid : bool
}.

Definition set_addr (v : Z) (i : Instruction) : Instruction :=
  mkInstruction v (numSourceRegisters i) (Rs i) (Rs0CanBeSP i) (Rd i) (Rd2 i) (RdCanBeSP i) (imm i) (result i) (label i) (branchType i) (cond i) (shiftType i) (extendType i) (wback i) (postindex i) (kind i) (parsed i) (valid i).
Definition set_numSourceRegisters (v : Z) (i : Instruction) : Instruction :=
  mkInstruction (addr i) v (Rs i) (Rs0CanBeSP i) (Rd i) (Rd2 i) (RdCanBeSP i) (imm i) (result i) (label i) (branchType i) (cond i) (shiftType i) (extendType i) (wback i) (postindex i) (kind i) (parsed i) (valid i).
Definition set_Rs (v : list Z) (i : Instruction) : Instruction :=
  mkInstruction (addr i) (numSourceRegisters i) v (Rs0CanBeSP i) (Rd i) (Rd2 i) (RdCanBeSP i) (imm i) (result i) (label i) (branchType i) (cond i) (shiftType i) (extendType i) (wback i) (postindex i) (kind i) (parsed i) (valid i).
Definition set_Rs0CanBeSP (v : option bool) (i : Instruction) : Instruction :=
  mkInstruction (addr i) (numSourceRegisters i) (Rs i) v (Rd i) (Rd2 i) (RdCanBeSP i) (imm i) (result i) (label i) (branchType i) (cond i) (shiftType i) (extendType i) (wback i) (postindex i) (kind i) (parsed i) (valid i).
Definition set_Rd (v : Z) (i : Instruction) : Instruction :=
  mkInstruction (addr i) (numSourceRegisters i) (Rs i) (Rs0CanBeSP i) v (Rd2 i) (RdCanBeSP i) (imm i) (result i) (label i) (branchType i) (cond i) (shiftType i) (extendType i) (wback i) (postindex i) (kind i) (parsed i) (valid i).
Definition set_Rd2 (v : Z) (i : Instruction) : Instruction :=
  mkInstruction (addr i) (numSourceRegisters i) (Rs i) (Rs0CanBeSP i) (Rd i) v (RdCanBeSP i) (imm i) (result i) (label i) (branchType i) (cond i) (shiftType i) (extendType i) (wback i) (postindex i) (kind i) (parsed i) (valid i).
Definition set_RdCanBeSP (v : option bool) (i : Instruction) : Instruction :=
  mkInstruction (addr i) (numSourceRegisters i) (Rs i) (Rs0CanBeSP i) (Rd i) (Rd2 i) v (imm i) (result i) (label i) (branchType i) (cond i) (shiftType i) (extendType i) (wback i) (postindex i) (kind i) (parsed i) (valid i).
Definition set_imm (v : option Z) (i : Instruction) : Instruction :=
  mkInstruction (addr i) (numSourceRegisters i) (Rs i) (Rs0CanBeSP i) (Rd i) (Rd2 i) (RdCanBeSP i) v (result i) (label i) (branchType i) (cond i) (shiftType i) (extendType i) (wback i) (postindex i) (kind i) (parsed i) (valid i).
Definition set_result (v : option Z) (i : Instruction) : Instruction :=
  mkInstruction (addr i) (numSourceRegisters i) (Rs i) (Rs0CanBeSP i) (Rd i) (Rd2 i) (RdCanBeSP i) (imm i) v (label i) (branchType i) (cond i) (shiftType i) (extendType i) (wback i) (postindex i) (kind i) (parsed i) (valid i).
Definition set_label (v : option Z) (i : Instruction) : Instruction :=
  mkInstruction (addr i) (numSourceRegisters i) (Rs i) (Rs0CanBeSP i) (Rd i) (Rd2 i) (RdCanBeSP i) (imm i) (result i) v (branchType i) (cond i) (shiftType i) (extendType i) (wback i) (postindex i) (kind i) (parsed i) (valid i).
Definition set_branchType (v : BranchType) (i : Instruction) : Instruction :=
  mkInstruction (addr i) (numSourceRegisters i) (Rs i) (Rs0CanBeSP i) (Rd i) (Rd2 i) (RdCanBeSP i) (imm i) (result i) (label i) v (cond i) (shiftType i) (extendType i) (wback i) (postindex i) (kind i) (parsed i) (valid i).
Definition set_cond (v : option Z) (i : Instruction) : Instruction :=
  mkInstruction (addr i) (numSourceRegisters i) (Rs i) (Rs0CanBeSP i) (Rd i) (Rd2 i) (RdCanBeSP i) (imm i) (result i) (label i) (branchType i) v (shiftType i) (extendType i) (wback i) (postindex i) (kind i) (parsed i) (valid i).
Definition set_shiftType (v : option Z) (i : Instruction) : Instruction :=
  mkInstruction (addr i) (numSourceRegisters i) (Rs i) (Rs0CanBeSP i) (Rd i) (Rd2 i) (RdCanBeSP i) (imm i) (result i) (label i) (branchType i) (cond i) v (extendType i) (wback i) (postindex i) (kind i) (parsed i) (valid i).
Definition set_extendType (v : option Z) (i : Instruction) : Instruction :=
  mkInstruction (addr i) (numSourceRegisters i) (Rs i) (Rs0CanBeSP i) (Rd i) (Rd2 i) (RdCanBeSP i) (imm i) (result i) (label i) (branchType i) (cond i) (shiftType i) v (wback i) (postindex i) (kind i) (parsed i) (valid i).
Definition set_wback (v : option bool) (i : Instruction) : Instruction :=
  mkInstruction (addr i) (numSourceRegisters i) (Rs i) (Rs0CanBeSP i) (Rd i) (Rd2 i) (RdCanBeSP i) (imm i) (result i) (label i) (branchType i) (cond i) (shiftType i) (extendType i) v (postindex i) (kind i) (parsed i) (valid i).
Definition set_postindex (v : option bool) (i : Instruction) : Instruction :=
  mkInstruction (addr i) (numSourceRegisters i) (Rs i) (Rs0CanBeSP i) (Rd i) (Rd2 i) (RdCanBeSP i) (imm i) (result i) (label i) (branchType i) (cond i) (shiftType i) (extendType i) (wback i) v (kind i) (parsed i) (valid i).
Definition set_kind (v : list string) (i : Instruction) : Instruction :=
  mkInstruction (addr i) (numSourceRegisters i) (Rs i) (Rs0CanBeSP i) (Rd i) (Rd2 i) (RdCanBeSP i) (imm i) (result i) (label i) (branchType i) (cond i) (shiftType i) (extendType i) (wback i) (postindex i) v (parsed i) (valid i).
Definition set_parsed (v : bool) (i : Instruction) : Instruction :=
  mkInstruction (addr i) (numSourceRegisters i) (Rs i) (Rs0CanBeSP i) (Rd i) (Rd2 i) (RdCanBeSP i) (imm i) (result i) (label i) (branchType i) (cond i) (shiftType i) (extendType i) (wback i) (postindex i) (kind i) v (valid i).
Definition set_valid (v : bool) (i : Instruction) : Instruction :=
  mkInstruction (addr i) (numSourceRegisters i) (Rs i) (Rs0CanBeSP i) (Rd i) (Rd2 i) (RdCanBeSP i) (imm i) (result i) (label i) (branchType i) (cond i) (shiftType i) (extendType i) (wback i) (postindex i) (kind i) (parsed i) v.

Definition new_Instruction (inst : Z) : Instruction :=
  mkInstruction inst (-1) [-1; -1; -1] None (-1) (-1) None None None None
                NOBRANCH None None None None None [] false true.

(** The size of the array [kind], [sizeof(kind) / sizeof(kind[0])]. *)
Definition kind_size : Z := 3.

Definition parseLevel (i : Instruction) : Z := Z.of_nat (length (kind i)).

(** [kind[parseLevel++] = s]. *)
Definition push_kind (s : string) (i : Instruction) : Instruction :=
  set_kind (kind i ++ [s]) i.

(** [Rs[n] = v]. *)
Definition set_Rs_at (n : nat) (v : Z) (i : Instruction) : Instruction :=
  set_Rs (<[n := v]> (Rs i)) i.

(** [RdCanBeSP = Rs0CanBeSP = b]. *)
Definition set_RdRs0CanBeSP (b : bool) (i : Instruction) : Instruction :=
  set_RdCanBeSP (Some b) (set_Rs0CanBeSP (Some b) i).

Definition unalloc : string := "UNALLOCATED".
Definition pcRelAddr : string := "PC-rel. addressing".
Definition ldSt : string := "Loads and Stores".
Definition addSubImm : string := "Add/subtract (immediate)".

(** [sf ? a : b] and the like, on a one-bit field. *)
Definition sel {A} (b : Z) (x y : A) : A := if b =? 0 then y else x.

(* ===================================================================== *)
(** * 3. The constructor [Instruction::Instruction(const int32_t* inst)] *)
(* ===================================================================== *)

(** ** Data Processing -- Register *)

Definition decode_logical_shifted (code sf Rn Rm : Z) (i : Instruction) : Instruction :=
  let i := push_kind "Logical (shifted register)" i in
  let i := set_RdRs0CanBeSP false i in
  let imm6 := bits code 15 10 in
  let i := set_imm (Some imm6) i in
  let shift := bits code 23 22 in
  let i := set_shiftType (Some shift) i in
  let N := bits code 21 21 in
  let opc := bits code 30 29 in
  if opc =? 1 then
    if N =? 0 then
      if (shift =? ShiftType.LSL) && (imm6 =? 0) && (Rn =? RZR) then
        let i := push_kind "MOV (register)" i in
        if Rm =? RZR then
          set_result (Some 0) (set_numSourceRegisters 0 i)
        else
          set_numSourceRegisters 1 (set_Rs_at 0 (Rs i !!! 1%nat) i)
      else
        if sf =? 0 then push_kind "ORR (shifted register) — 32-bit" i
        else push_kind "ORR (shifted register) — 64-bit" i
    else i
  else i.

(** The mnemonic level shared, line for line, by the shifted-register and the
    extended-register add/subtract forms. *)
Definition decode_addsub_reg_names (sf op S Rn : Z) (i : Instruction) : Instruction :=
  if op =? 0 then
    if S =? 0 then
      push_kind (sel sf "ADD (shifted register) — 64-bit" "ADD (shifted register) — 32-bit") i
    else
      if Rd i =? RZR then
        set_Rd (-1) (push_kind "CMN (shifted register)" i)
      else
        push_kind (sel sf "ADDS (shifted register) — 64-bit" "ADDS (shifted register) — 32-bit") i
  else
    if S =? 0 then
      if Rn =? RZR then
        let i := push_kind "NEG (shifted register)" i in
        set_numSourceRegisters 1 (set_Rs_at 0 (Rs i !!! 1%nat) i)
      else
        push_kind (sel sf "SUB (shifted register) — 64-bit" "SUB (shifted register) — 32-bit") i
    else
      if Rd i =? RZR then
        set_Rd (-1) (push_kind "CMP (shifted register)" i)
      else if Rn =? RZR then
        let i := push_kind "NEGS" i in
        set_numSourceRegisters 1 (set_Rs_at 0 (Rs i !!! 1%nat) i)
      else
        push_kind (sel sf "SUBS (shifted register) — 64-bit" "SUBS (shifted register) — 32-bit") i.

Definition decode_addsub_shifted (code sf Rn : Z) (i : Instruction) : Instruction :=
  let op := bits code 30 30 in
  let S := bits code 29 29 in
  let i := push_kind "Add/subtract (shifted register)" i in
  let i := set_RdRs0CanBeSP false i in
  let imm6 := bits code 15 10 in
  let i := set_imm (Some imm6) i in
  let shift := bits code 23 22 in
  let i := set_shiftType (Some shift) i in
  if (shift =? ShiftType.ROR) || ((sf =? 0) && negb (Z.land imm6 32 =? 0)) then
    push_kind unalloc i
  else decode_addsub_reg_names sf op S Rn i.

Definition decode_addsub_extended (code sf Rn : Z) (i : Instruction) : Instruction :=
  let op := bits code 30 30 in
  let S := bits code 29 29 in
  let i := push_kind "Add/subtract (extended register)" i in
  let i := set_RdCanBeSP (Some (S =? 0)) i in
  let i := set_Rs0CanBeSP (Some true) i in
  let opt := bits code 23 22 in
  let ext := bits code 15 13 in
  let i := set_extendType (Some ext) i in
  let imm3 := bits code 12 10 in
  let i := set_imm (Some imm3) i in
  let i :=
    if Rn =? SP then
      if sf =? 0 then
        if ext =? ExtendType.UXTW then set_shiftType (Some ShiftType.LSL) i else i
      else
        if ext =? ExtendType.UXTX then set_shiftType (Some ShiftType.LSL) i else i
    else i in
  if negb (opt =? 0) || (4 <? imm3) then push_kind unalloc i
  else decode_addsub_reg_names sf op S Rn i.

Definition decode_condsel (code sf op0 : Z) (i : Instruction) : Instruction :=
  let i := push_kind "Conditional select" i in
  let i := set_RdRs0CanBeSP false i in
  let i := set_numSourceRegisters 2 i in
  let i := set_Rd (bits code 4 0) i in
  let i := set_Rs_at 0 (bits code 9 5) i in
  let i := set_cond (Some (bits code 15 12)) i in
  let i := set_Rs_at 1 (bits code 20 16) i in
  let op := op0 in
  let S := bits code 29 29 in
  let op2 := bits code 11 10 in
  if negb (S =? 0) || negb (Z.land op2 2 =? 0) then push_kind unalloc i
  else if op =? 0 then
    if op2 =? 0 then push_kind (sel sf "CSEL — 64-bit" "CSEL — 32-bit") i
    else push_kind (sel sf "CSINC — 64-bit" "CSINC — 32-bit") i
  else
    if op2 =? 0 then push_kind (sel sf "CSINV — 64-bit" "CSINV — 32-bit") i
    else push_kind (sel sf "CSNEG — 64-bit" "CSNEG — 32-bit") i.

Definition decode_dp_3src (code sf : Z) (i : Instruction) : Instruction :=
  let i := push_kind "Data-processing (3 source)" i in
  let i := set_RdRs0CanBeSP false i in
  let i := set_numSourceRegisters 3 i in
  let i := set_Rd (bits code 4 0) i in
  let i := set_Rs_at 0 (bits code 9 5) i in
  let i := set_Rs_at 1 (bits code 20 16) i in
  let Ra := bits code 14 10 in
  let i := set_Rs_at 2 Ra i in
  let i := if Ra =? RZR then set_numSourceRegisters 2 i else i in
  let o0 := bits code 15 15 in
  let op31 := bits code 23 21 in
  let op54 := bits code 30 29 in
  if negb (op54 =? 0) || (op31 =? 3) || (op31 =? 4) || (op31 =? 7) ||
     ((o0 =? 1) && ((op31 =? 2) || (op31 =? 6))) ||
     ((sf =? 0) && negb (op31 =? 0)) then
    push_kind unalloc i
  else if op31 =? 0 then
    if o0 =? 0 then
      if Ra =? RZR then push_kind "MUL" i
      else push_kind (sel sf "MADD — 64-bit" "MADD — 32-bit") i
    else
      if Ra =? RZR then push_kind "MNEG" i
      else push_kind (sel sf "MSUB — 64-bit" "MSUB — 32-bit") i
  else
    let U := bits code 23 23 in
    if Z.land op31 3 =? 1 then
      if o0 =? 0 then
        if Ra =? RZR then push_kind (sel U "UMULL" "SMULL") i
        else push_kind (sel U "UMADDL" "SMADDL") i
      else
        if Ra =? RZR then push_kind (sel U "UMNEGL" "SMNEGL") i
        else push_kind (sel U "UMSUBL" "SMSUBL") i
    else
      if Ra =? RZR then push_kind (sel U "UMULH" "SMULH") i
      else push_kind unalloc i.

Definition decode_dp_register (code : Z) (i : Instruction) : Instruction :=
  let i := push_kind "Data Processing -- Register" i in
  let op0 := bits code 30 30 in
  let op1 := bits code 28 28 in
  let op2 := bits code 24 21 in
  let sf := bits code 31 31 in
  if op1 =? 0 then
    let i := set_numSourceRegisters 2 i in
    let i := set_Rd (bits code 4 0) i in
    let Rn := bits code 9 5 in
    let i := set_Rs_at 0 Rn i in
    let Rm := bits code 20 16 in
    let i := set_Rs_at 1 Rm i in
    if Z.land op2 8 =? 0 then decode_logical_shifted code sf Rn Rm i
    else if Z.land op2 1 =? 0 then decode_addsub_shifted code sf Rn i
    else decode_addsub_extended code sf Rn i
  else
    if op2 =? 4 then decode_condsel code sf op0 i
    else if Z.land op2 8 =? 8 then decode_dp_3src code sf i
    else i.

(** ** Data Processing -- Immediate *)

(** PC-relative addressing.  [immI] has the type the missing [bits] returns;
    the model keeps every bit of it. *)
Definition decode_pcrel (code sf pc : Z) (i : Instruction) : Instruction :=
  let i := push_kind pcRelAddr i in
  let i := set_RdCanBeSP (Some false) i in
  let i := set_numSourceRegisters 0 i in
  let op := sf in
  let ilh := 30 in let ill := 29 in let ihh := 23 in let ihl := 5 in
  let immlo := bits code ilh ill in
  let immhi := bits code ihh ihl in
  let immI := Z.shiftl immhi (ilh - ill + 1) + immlo in
  let immINumBits := ihh - ihl + 1 + ilh - ill + 1 in
  let '(i, immI, immINumBits, pc) :=
    if op =? 1 then
      let zeros := 12 in
      (push_kind "ADRP" i, Z.shiftl immI zeros, immINumBits + zeros,
       Z.shiftl (Z.shiftr pc zeros) zeros)
    else (push_kind "ADR" i, immI, immINumBits, pc) in
  let privateImm := SignExtend immI immINumBits in
  let res := s64 (pc + privateImm) in
  let i := set_result (Some res) i in
  set_label (Some (u64 res)) i.

Definition decode_addsub_imm (code sf op S : Z) (op1 : Z) (i : Instruction) : Instruction :=
  let i := push_kind addSubImm i in
  let i := set_RdCanBeSP (Some (S =? 0)) i in
  let shift := op1 in
  let imm12 := bits code 21 10 in
  let immv := s64 (Z.shiftl (ZeroExtend imm12 12) (12 * shift)) in
  let i := set_imm (Some immv) i in
  if op =? 0 then
    if S =? 0 then
      if (immv =? 0) && ((Rd i =? SP) || (Rs i !!! 0%nat =? SP)) then
        push_kind "MOV (to/from SP)" i
      else
        push_kind (sel sf "ADD (immediate) — 64-bit" "ADD (immediate) — 32-bit") i
    else
      if Rd i =? RZR then
        set_Rd (-1) (push_kind "CMN (immediate)" i)
      else
        push_kind (sel sf "ADDS (immediate) — 64-bit" "ADDS (immediate) — 32-bit") i
  else
    let i := set_imm (Some (s64 (- immv))) i in
    if S =? 0 then
      push_kind (sel sf "SUB (immediate) — 64-bit" "SUB (immediate) — 32-bit") i
    else
      if Rd i =? RZR then
        set_Rd (-1) (push_kind "CMP (immediate)" i)
      else
        push_kind (sel sf "SUBS (immediate) — 64-bit" "SUBS (immediate) — 32-bit") i.

Definition decode_addsub_imm_group (code sf op1 : Z) (i : Instruction) : Instruction :=
  let i := set_numSourceRegisters 1 i in
  let i := set_Rs0CanBeSP (Some true) i in
  let i := set_Rs_at 0 (bits code 9 5) i in
  let op := bits code 30 30 in
  let S := bits code 29 29 in
  if Z.lor op1 1 =? 3 then
    let i := push_kind "Add/subtract (immediate, with tags)" i in
    let i := set_RdCanBeSP (Some true) i in
    if (sf =? 0) || ((sf =? 1) && (S =? 1)) then push_kind unalloc i else i
  else decode_addsub_imm code sf op S op1 i.

(** Logical (immediate).  The [None] branch stands for a call of
    [DecodeBitMasks] that does not return; [DecodeBitMasks_returns] shows
    that the calls made here always do. *)
Definition decode_logical_imm (code sf : Z) (i : Instruction) : Instruction :=
  let opc := bits code 30 29 in
  let i := push_kind "Logical (immediate)" i in
  let i := set_RdCanBeSP (Some (negb (opc =? 3))) i in
  let i := set_Rs0CanBeSP (Some false) i in
  let N := bits code 22 22 in
  let immr := bits code 21 16 in
  let imms := bits code 15 10 in
  let Rn := bits code 9 5 in
  match DecodeBitMasks N imms immr (sel sf 64 32) with
  | None => i
  | Some mask =>
      let immv := s64 mask in
      let i := set_imm (Some immv) i in
      let i := if immv =? -1 then set_valid false i else i in
      let i :=
        if Rn =? RZR then set_numSourceRegisters 0 i
        else set_Rs_at 0 Rn (set_numSourceRegisters 1 i) in
      if (sf =? 0) && (N =? 1) then push_kind unalloc i
      else if opc =? 0 then
        let i := if Rn =? RZR then set_result (Some 0) i else i in
        if sf =? 0 then push_kind "AND (immediate) — 32-bit" i
        else push_kind "AND (immediate) — 64-bit" i
      else if opc =? 1 then
        let i := if Rn =? RZR then set_result (Some immv) i else i in
        if sf =? 0 then push_kind "ORR (immediate) — 32-bit" i
        else push_kind "ORR (immediate) — 64-bit" i
      else if opc =? 2 then
        let i := if Rn =? RZR then set_result (Some immv) i else i in
        if sf =? 0 then push_kind "EOR (immediate) — 32-bit" i
        else push_kind "EOR (immediate) — 64-bit" i
      else
        let i := if Rn =? RZR then set_result (Some 0) i else i in
        if sf =? 0 then push_kind "ANDS (immediate) — 32-bit" i
        else push_kind "ANDS (immediate) — 64-bit" i
  end.

Definition decode_dp_immediate (code pc : Z) (i : Instruction) : Instruction :=
  let i := push_kind "Data Processing -- Immediate" i in
  let i := set_Rd (bits code 4 0) i in
  let sf := bits code 31 31 in
  let op0 := bits code 25 24 in
  let op1 := bits code 23 22 in
  if op0 =? 0 then decode_pcrel code sf pc i
  else if op0 =? 1 then decode_addsub_imm_group code sf op1 i
  else if op0 =? 2 then
    if Z.land op1 2 =? 0 then decode_logical_imm code sf i else i
  else
    if Z.land op1 2 =? 0 then push_kind "Bitfield" i
    else push_kind "Extract" i.

(** ** Branches, Exception Generating and System instructions *)

Definition decode_condbranch (code pc : Z) (i : Instruction) : Instruction :=
  let i := push_kind "Conditional branch (immediate)" i in
  let i := set_numSourceRegisters 0 i in
  let o1 := bits code 24 24 in
  let imm19 := bits code 23 5 in
  let o0 := bits code 4 4 in
  let i := set_cond (Some (bits code 3 0)) i in
  if negb (o0 =? 0) || negb (o1 =? 0) then push_kind unalloc i
  else
    let i := push_kind "B.cond" i in
    let i := set_label (Some (u64 (pc + Z.shiftl (SignExtend imm19 19) 2))) i in
    set_branchType DIR i.

Definition decode_branch_reg (code pc : Z) (i : Instruction) : Instruction :=
  let i := push_kind "Unconditional branch (register)" i in
  let i := set_numSourceRegisters 1 i in
  let i := set_Rs_at 0 (bits code 9 5) i in
  let opc := bits code 24 21 in
  let op2 := bits code 20 16 in
  let op3 := bits code 15 10 in
  let op4 := bits code 4 0 in
  if negb (op2 =? 31) then push_kind unalloc i
  else if opc =? 0 then
    let i := set_branchType INDIR i in
    if op3 =? 0 then
      if negb (op4 =? 0) then push_kind unalloc i else push_kind "BR" i
    else i
  else if opc =? 1 then
    let i := set_branchType INDCALL i in
    let i := set_Rd RLINK i in
    let i := set_result (Some (s64 (pc + 4))) i in
    if op3 =? 0 then
      if negb (op4 =? 0) then push_kind unalloc i else push_kind "BLR" i
    else i
  else if opc =? 2 then
    let i := set_branchType RET i in
    if op3 =? 0 then
      if negb (op4 =? 0) then push_kind unalloc i else push_kind "RET" i
    else i
  else i.

Definition decode_branch_imm (code pc : Z) (i : Instruction) : Instruction :=
  let i := push_kind "Unconditional branch (immediate)" i in
  let i := set_numSourceRegisters 0 i in
  let op := bits code 31 31 in
  let imm26 := bits code 25 0 in
  let offset := Z.shiftl (SignExtend imm26 26) 2 in
  let i := set_label (Some (u64 (pc + offset))) i in
  if op =? 0 then
    set_branchType DIR (push_kind "B" i)
  else
    let i := push_kind "BL" i in
    let i := set_branchType DIRCALL i in
    let i := set_Rd RLINK i in
    set_result (Some (s64 (pc + 4))) i.

Definition decode_compbranch (code pc : Z) (i : Instruction) : Instruction :=
  let i := push_kind "Compare and branch (immediate)" i in
  let i := set_numSourceRegisters 1 i in
  let i := set_Rs_at 0 (bits code 4 0) i in
  let sf := bits code 31 31 in
  let op := bits code 24 24 in
  let imm19 := bits code 23 5 in
  let i :=
    if op =? 0 then push_kind (sel sf "CBZ — 64-bit" "CBZ — 32-bit") i
    else push_kind (sel sf "CBNZ — 64-bit" "CBNZ — 32-bit") i in
  set_label (Some (u64 (Z.shiftl (SignExtend imm19 19) 2))) i.

Definition decode_testbranch (code pc : Z) (i : Instruction) : Instruction :=
  let i := push_kind "Test and branch (immediate)" i in
  let i := set_numSourceRegisters 1 i in
  let i := set_Rs_at 0 (bits code 4 0) i in
  let b5 := bits code 31 31 in
  let op := bits code 24 24 in
  let b40 := bits code 23 19 in
  let imm14 := bits code 18 5 in
  let i := set_imm (Some (Z.lor (Z.shiftl b5 4) b40)) i in
  let i := set_branchType DIR i in
  let i := set_label (Some (u64 (pc + Z.shiftl (SignExtend imm14 14) 2))) i in
  push_kind (sel op "TBNZ" "TBZ") i.

Definition decode_branches (code pc : Z) (i : Instruction) : Instruction :=
  let i := push_kind "Branches, Exception Generating and System instructions" i in
  let i := set_Rd (-1) i in
  let i := set_RdRs0CanBeSP false i in
  let op0 := bits code 31 29 in
  let op1 := bits code 25 12 in
  if op0 =? 2 then
    if negb (Z.land op1 8192 =? 0) then push_kind unalloc i
    else decode_condbranch code pc i
  else if op0 =? 6 then
    if negb (Z.land op1 8192 =? 0) then decode_branch_reg code pc i
    else i
  else if Z.land op0 3 =? 0 then decode_branch_imm code pc i
  else if Z.land op0 3 =? 1 then
    if Z.land op1 8192 =? 0 then decode_compbranch code pc i
    else decode_testbranch code pc i
  else i.

(** ** Loads and Stores *)

Definition decode_ldst_regoff (code size V opc Rt Rn : Z) (i : Instruction) : Instruction :=
  let i := push_kind "Load/store register (register offset)" i in
  let i := set_numSourceRegisters 2 i in
  let i := set_Rs_at 1 (bits code 20 16) i in
  let ext := bits code 15 13 in
  let i := set_extendType (Some ext) i in
  let S := bits code 12 12 in
  let shifted := ext =? ExtendType.UXTX in
  let i := if shifted then set_shiftType (Some ShiftType.LSL) i else i in
  let i := set_imm (Some (sel S size 0)) i in
  if (Z.land ext 2 =? 0) ||
     ((Z.land size 1 =? 1) && (V =? 1) && negb (Z.land opc 2 =? 0)) then
    push_kind unalloc i
  else if V =? 0 then
    if opc =? 0 then
      let i := set_Rs0CanBeSP (Some false) (set_Rs_at 0 Rt i) in
      let i := set_RdCanBeSP (Some true) (set_Rd Rn i) in
      if size =? 3 then push_kind "STR (register) — 64-bit" i
      else if size =? 2 then push_kind "STR (register) — 32-bit" i
      else if size =? 1 then push_kind "STRH (register)" i
      else if shifted then push_kind "STRB (register) — shifted register" i
      else push_kind "STRB (register) — extended register" i
    else
      let i := set_Rs0CanBeSP (Some true) (set_Rs_at 0 Rn i) in
      let i := set_RdCanBeSP (Some false) (set_Rd Rt i) in
      if opc =? 1 then
        if size =? 3 then push_kind "LDR (register) — 64-bit" i
        else if size =? 2 then push_kind "LDR (register) — 32-bit" i
        else if size =? 1 then push_kind "LDRH (register)" i
        else if shifted then push_kind "LDRB (register) — shifted register" i
        else push_kind "LDRB (register) — extended register" i
      else
        let opc64 := opc =? 2 in
        if size =? 3 then push_kind (if opc64 then "PRFM (register)" else unalloc) i
        else if size =? 2 then push_kind (if opc64 then "LDRSW (register)" else unalloc) i
        else if size =? 1 then
          push_kind (if opc64 then "LDRSH (register) — 64-bit"
                     else "LDRSH (register) — 32-bit") i
        else
          if opc64 then
            if shifted then
              push_kind "LDRSB (register) — 64-bit with shifted register offset" i
            else
              push_kind "LDRSB (register) — 64-bit with extended register offset" i
          else
            if shifted then
              push_kind "LDRSB (register) — 32-bit with shifted register offset" i
            else
              push_kind "LDRSB (register) — 32-bit with extended register offset" i
  else i.

(** The tail of the register forms, [if (hasImmOffset) { ... }]. *)
Definition decode_ldst_immoff (size V opc Rt Rn : Z) (i : Instruction) : Instruction :=
  let i := set_numSourceRegisters 1 i in
  if V =? 0 then
    if opc =? 0 then
      let i := set_Rs0CanBeSP (Some false) (set_Rs_at 0 Rt i) in
      let i := set_RdCanBeSP (Some true) (set_Rd Rn i) in
      if size =? 3 then push_kind "STR (immediate) — 64-bit" i
      else if size =? 2 then push_kind "STR (immediate) — 32-bit" i
      else if size =? 1 then push_kind "STRH (immediate)" i
      else push_kind "STRB (immediate)" i
    else
      let i := set_Rs0CanBeSP (Some true) (set_Rs_at 0 Rn i) in
      let i := set_RdCanBeSP (Some false) (set_Rd Rt i) in
      if opc =? 1 then
        if size =? 3 then push_kind "LDR (immediate) — 64-bit" i
        else if size =? 2 then push_kind "LDR (immediate) — 32-bit" i
        else if size =? 1 then push_kind "LDRH (immediate)" i
        else push_kind "LDRB (immediate)" i
      else
        let opc64 := opc =? 2 in
        if size =? 3 then push_kind (if opc64 then "PRFM (immediate)" else unalloc) i
        else if size =? 2 then push_kind (if opc64 then "LDRSW (immediate)" else unalloc) i
        else if size =? 1 then
          push_kind (if opc64 then "LDRSH (immediate) — 64-bit"
                     else "LDRSH (immediate) — 32-bit") i
        else
          push_kind (if opc64 then "LDRSB (immediate) — 64-bit"
                     else "LDRSB (immediate) — 32-bit") i
  else i.

Definition decode_ldst_register (code op1 op2 op3 op4 : Z) (i : Instruction) : Instruction :=
  let size := bits code 31 30 in
  let V := op1 in
  let opc := bits code 23 22 in
  let Rt := bits code 4 0 in
  let Rn := bits code 9 5 in
  let '(i, hasImmOffset) :=
    if Z.lor op2 1 =? 3 then
      let i := push_kind "Load/store register (unsigned immediate)" i in
      let imm12 := bits code 21 10 in
      let i := set_imm (Some (s64 (Z.shiftl (ZeroExtend imm12 12) size))) i in
      let i := set_wback (Some false) i in
      let i := set_postindex (Some false) i in
      (i, true)
    else if Z.land op3 32 =? 0 then
      let imm9 := bits code 20 12 in
      let i := set_imm (Some (SignExtend imm9 9)) i in
      if op4 =? 3 then
        let i := push_kind "Load/store register (immediate pre-indexed)" i in
        let i := set_wback (Some true) i in
        let i := set_postindex (Some false) i in
        (i, true)
      else if op4 =? 1 then
        let i := push_kind "Load/store register (immediate post-indexed)" i in
        let i := set_wback (Some true) i in
        let i := set_postindex (Some true) i in
        (i, true)
      else (i, false)
    else
      if op4 =? 2 then (decode_ldst_regoff code size V opc Rt Rn i, false)
      else (i, false) in
  if hasImmOffset then decode_ldst_immoff size V opc Rt Rn i else i.

Definition decode_ldst_pair (code op1 op2 : Z) (i : Instruction) : Instruction :=
  let opc := bits code 31 30 in
  let V := op1 in
  let L := bits code 22 22 in
  let Rt := bits code 4 0 in
  let Rn := bits code 9 5 in
  let Rt2 := bits code 14 10 in
  if op2 =? 0 then push_kind "Load/store no-allocate pair (offset)" i
  else
    let i :=
      if op2 =? 1 then
        let i := push_kind "Load/store register pair (post-indexed)" i in
        set_postindex (Some true) (set_wback (Some true) i)
      else if op2 =? 2 then
        let i := push_kind "Load/store register pair (offset)" i in
        set_postindex (Some false) (set_wback (Some false) i)
      else
        let i := push_kind "Load/store register pair (pre-indexed)" i in
        set_postindex (Some false) (set_wback (Some true) i) in
    if opc =? 3 then push_kind unalloc i
    else if (V =? 0) && (L =? 0) then
      let i := set_numSourceRegisters 2 i in
      let i := set_Rs0CanBeSP (Some true) (set_Rs_at 0 Rt i) in
      let i := set_Rs_at 1 Rt2 i in
      let i := set_RdCanBeSP (Some true) (set_Rd Rn i) in
      if opc =? 0 then push_kind "STP — 32-bit" i
      else if opc =? 1 then push_kind "STGP" i
      else push_kind "STP — 64-bit" i
    else if (V =? 0) && negb (L =? 0) then
      let i := set_numSourceRegisters 1 i in
      let i := set_Rs0CanBeSP (Some true) (set_Rs_at 0 Rn i) in
      let i := set_RdCanBeSP (Some false) (set_Rd Rt i) in
      let i := set_Rd2 Rt2 i in
      if opc =? 0 then push_kind "LDP — 32-bit" i
      else if opc =? 1 then push_kind "LDPSW" i
      else push_kind "LDP — 64-bit" i
    else i.

Definition decode_loads_stores (code : Z) (i : Instruction) : Instruction :=
  let i := push_kind ldSt i in
  let op0 := bits code 31 28 in
  let op1 := bits code 26 26 in
  let op2 := bits code 24 23 in
  let op3 := bits code 21 16 in
  let op4 := bits code 11 10 in
  if Z.land op0 3 =? 3 then decode_ldst_register code op1 op2 op3 op4 i
  else if Z.land op0 3 =? 2 then decode_ldst_pair code op1 op2 i
  else i.

(** ** The constructor *)

(** The last statements of the constructor: the record is [parsed] when every
    level of [kind] was filled, and invalid when the last level is
    [unalloc]. *)
Definition finish (i : Instruction) : Instruction :=
  if negb (parseLevel i =? kind_size) then i
  else
    let i := set_parsed true i in
    if decide (kind i !! Z.to_nat (parseLevel i - 1) = Some unalloc)
    then set_valid false i else i.

(** The body of the constructor once the code word has been read: dispatch on
    the top-level [op0], bits 28 to 25. *)
Definition decode (code pc : Z) (i : Instruction) : Instruction :=
  let top0 := bits code 28 25 in
  let i :=
    if top0 <=? 3 then
      let step i := set_valid false (push_kind "Invalid instruction" i) in
      step (step (step i))
    else if Z.land top0 7 =? 5 then decode_dp_register code i
    else if Z.land top0 7 =? 7 then
      push_kind "Data Processing -- Scalar Floating-Point and Advanced SIMD" i
    else if Z.lor top0 1 =? 9 then decode_dp_immediate code pc i
    else if Z.lor top0 1 =? 11 then decode_branches code pc i
    else if Z.land top0 5 =? 4 then decode_loads_stores code i
    else
      set_valid false (push_kind "ERROR: Our top-level bit patterns have a gap!" i) in
  finish i.

(** The environment of the constructor: [getBase], the collaborator that gives
    the base address of the image a pointer lies in (0 when there is none),
    and the memory the code words are read from. *)
Record Env : Type := mkEnv {
  getBase : Z -> Z;
  mem : Z -> Z;
}.

(** [Instruction::Instruction(const int32_t* inst)].  Without an image base
    the constructor returns at once, having set [addr] only. *)
Definition Instruction_ctor (env : Env) (inst : Z) : Instruction :=
  let i := new_Instruction inst in
  let pc := s64 inst in
  let base := getBase env pc in
  if base =? 0 then i
  else decode (mem env inst) pc i.

(** ** Queries on a decoded record *)

(** Modelled from the spec: the predicates on [branchType] are inline members
    of the missing header.  The spec's branch kinds are none, direct,
    direct-call, indirect, indirect-call and return; a fall-through successor
    exists "unless the instruction is an unconditional direct or indirect
    branch". *)
Definition isReturn (i : Instruction) : bool := bool_decide (branchType i = RET).
Definition isDirectBranch (i : Instruction) : bool :=
  bool_decide (branchType i = DIR) || bool_decide (branchType i = DIRCALL).
Definition isIndirectBranch (i : Instruction) : bool :=
  bool_decide (branchType i = INDIR) || bool_decide (branchType i = INDCALL).
Definition isCall (i : Instruction) : bool :=
  bool_decide (branchType i = DIRCALL) || bool_decide (branchType i = INDCALL).
Definition isUnconditionalBranch (i : Instruction) : bool :=
  (bool_decide (branchType i = DIR) || bool_decide (branchType i = INDIR))
  && bool_decide (cond i = None).

Definition isPcRelAdr (i : Instruction) : bool :=
  bool_decide (kind i !! 1%nat = Some pcRelAddr).
Definition isAddOrSubImm (i : Instruction) : bool :=
  bool_decide (kind i !! 1%nat = Some addSubImm).
Definition isLoadOrStore (i : Instruction) : bool :=
  bool_decide (kind i !! 0%nat = Some ldSt).

(** [strncmp(kind[2], p, 2) == 0] for a two-character [p]. *)
Definition kind2_starts (p : string) (i : Instruction) : bool :=
  match kind i !! 2%nat with
  | Some s => bool_decide (String.substring 0 2 s = p)
  | None => false
  end.
Definition isLoad (i : Instruction) : bool := isLoadOrStore i && kind2_starts "LD" i.
Definition isStore (i : Instruction) : bool := isLoadOrStore i && kind2_starts "ST" i.

(** [bool Instruction::hasImmOffsetOnReg(uint_fast8_t reg)] *)
Definition hasImmOffsetOnReg (reg : Z) (i : Instruction) : bool :=
  match imm i with
  | None => false
  | Some _ =>
      if negb (isLoadOrStore i || isAddOrSubImm i) then false
      else if isStore i then (Rd i =? reg) || (Rd2 i =? reg)
      else existsb (fun r => r =? reg) (take (Z.to_nat (numSourceRegisters i)) (Rs i))
  end.

(* ===================================================================== *)
(** * 4. Address resolution *)
(* ===================================================================== *)

(** The content of [result] as [ExtractAddress] reads it.  The source reads
    the field whether or not the constructor assigned it; the model reads 0
    from a field never assigned, and nothing below relies on that value. *)
Definition result_value (i : Instruction) : Z := default 0 (result i).

(** [ExtractAddress(Instruction* instWithResultAdr, Instruction* instWithImmOffset)];
    [RET_0_UNLESS(instWithImmOffset->imm)] returns 0 when there is no
    immediate. *)
Definition ExtractAddress (instWithResultAdr instWithImmOffset : Instruction) : Z :=
  match imm instWithImmOffset with
  | None => 0
  | Some offset => s64 (result_value instWithResultAdr + offset)
  end.

(** [ExtractAddressFixed(const int32_t* inst, int, int)] *)
Definition ExtractAddressFixed (env : Env) (inst idxOfInstWithResultAdr idxOfInstWithImmOffset : Z) : Z :=
  ExtractAddress (Instruction_ctor env (inst + 4 * idxOfInstWithResultAdr))
                 (Instruction_ctor env (inst + 4 * idxOfInstWithImmOffset)).

(** The jump target [EvalSwitch] computes before it decodes there. *)
Definition EvalSwitch_target (env : Env) (switchTable switchCaseValue : Z) : Z :=
  let stOffset := SignExtend (mem env (switchTable + 4 * (switchCaseValue - 1))) 32 in
  s64 (s64 switchTable + stOffset).

(** [Instruction* EvalSwitch(const uint32_t* switchTable, int switchCaseValue)] *)
Definition EvalSwitch (env : Env) (switchTable switchCaseValue : Z) : Instruction :=
  Instruction_ctor env (u64 (EvalSwitch_target env switchTable switchCaseValue)).

(* ===================================================================== *)
(** * 5. The pattern scan of capstone-utils.hpp *)
(* ===================================================================== *)

Module cs.

(** The instruction ids of the disassembler that the scan names. *)
Inductive arm64_insn : Set :=
  | ARM64_INS_RET | ARM64_INS_BL | ARM64_INS_BLR | ARM64_INS_B | ARM64_INS_BR
  | ARM64_INS_ADR | ARM64_INS_ADRP | ARM64_INS_ADD | ARM64_INS_other (n : Z).

Global Instance arm64_insn_eq_dec : EqDecision arm64_insn.
Proof. solve_decision. Defined.

(** An operand, [insn->detail->arm64.operands[k]], read as a register or as an
    immediate. *)
Record cs_arm64_op : Type := mkOp { reg : Z; op_imm : Z }.

Record cs_insn : Type := mkInsn {
  id : arm64_insn;
  address : Z;
  mnemonic : string;
  operands : list cs_arm64_op;
}.

(** The three fatal diagnostics of [findNth], with the values their format
    strings print. *)
Inductive diagnostic : Type :=
  | FoundAllRetsFirst (nToRetOn addr retCount : Z)
  | ResultWasSkip (nToRetOn addr retCount : Z) (name : string)
  | OutOfBytes (nToRetOn addr retCount szBytes : Z).

(** What a call of [findNth] ends with: the value it returns, or
    [SAFE_ABORT_MSG], which does not return. *)
Inductive outcome (V : Type) : Type :=
  | Returned (v : V)
  | Aborted (d : diagnostic).
Arguments Returned {V} v.
Arguments Aborted {V} d.

Section findNth.
(** The disassembler, [cs_disasm_iter]: the instruction decoded at an
    address, or [None] where the bytes do not decode.  AArch64 instructions
    are four bytes, so a successful call advances by four bytes and takes
    four off the budget, as the failure branch does by hand. *)
Variable disasm : Z -> option cs_insn.
Context {V : Type}.
Variables (nToRetOn retCount szBytes : Z).
Variable addr : Z.
Variable match_ : cs_insn -> option V.
Variable skip : cs_insn -> bool.

(** The loop [while (sz > 0)], by the number of words left in the budget
    ([szBytes] is a multiple of four by the [requires] clause). *)
Fixpoint findNth_loop (words : nat) (ptr rCount nCalls : Z) : outcome V :=
  match words with
  | O => Aborted (OutOfBytes nToRetOn addr retCount szBytes)
  | S words' =>
      match disasm ptr with
      | Some insn =>
          if bool_decide (id insn = ARM64_INS_RET) then
            if rCount =? 0 then Aborted (FoundAllRetsFirst nToRetOn addr retCount)
            else findNth_loop words' (ptr + 4) (rCount - 1) nCalls
          else
            match match_ insn with
            | Some testRes =>
                if nCalls =? 1 then Returned testRes
                else findNth_loop words' (ptr + 4) rCount (nCalls - 1)
            | None =>
                if skip insn then
                  if nCalls =? 1 then
                    Aborted (ResultWasSkip nToRetOn addr retCount (mnemonic insn))
                  else findNth_loop words' (ptr + 4) rCount (nCalls - 1)
                else findNth_loop words' (ptr + 4) rCount nCalls
            end
      | None => findNth_loop words' (ptr + 4) rCount nCalls
      end
  end.

(** [findNth<nToRetOn, retCount, szBytes>(addr, match, skip)] *)
Definition findNth : outcome V :=
  findNth_loop (Z.to_nat (szBytes / 4)) addr retCount nToRetOn.

(** *** What the scan has seen before a position

    The instruction at word [k] of the window, the number of returns and
    the number of counted hits (matches and skips) among the words before
    [k]. *)
Definition insn_at (k : nat) : option cs_insn := disasm (addr + 4 * Z.of_nat k).

Definition is_ret (o : option cs_insn) : bool :=
  match o with Some insn => bool_decide (id insn = ARM64_INS_RET) | None => false end.

Definition is_hit (o : option cs_insn) : bool :=
  match o with
  | Some insn =>
      negb (bool_decide (id insn = ARM64_INS_RET)) &&
      (match match_ insn with Some _ => true | None => skip insn end)
  | None => false
  end.

Fixpoint count_before (p : option cs_insn -> bool) (k : nat) : Z :=
  match k with
  | O => 0
  | S k' => count_before p k' + (if p (insn_at k') then 1 else 0)
  end.

Definition rets_before : nat -> Z := count_before is_ret.
Definition hits_before : nat -> Z := count_before is_hit.

(** What each way of leaving the scan tells about a window of [n] words;
  [j] is the position at which the scan stopped. *)
Definition scan_outcome (n : nat) (o : outcome V) : Prop :=
match o with
| Returned v =>
    exists j insn, (j < n)%nat /\ insn_at j = Some insn /\
      id insn <> ARM64_INS_RET /\ match_ insn = Some v /\
      hits_before j = nToRetOn - 1
| Aborted (ResultWasSkip n' a r name) =>
    n' = nToRetOn /\ a = addr /\ r = retCount /\
    exists j insn, (j < n)%nat /\ insn_at j = Some insn /\
      id insn <> ARM64_INS_RET /\ match_ insn = None /\ skip insn = true /\
      hits_before j = nToRetOn - 1 /\ name = mnemonic insn
| Aborted (FoundAllRetsFirst n' a r) =>
    n' = nToRetOn /\ a = addr /\ r = retCount /\
    exists j insn, (j < n)%nat /\ insn_at j = Some insn /\
      id insn = ARM64_INS_RET /\ retCount - rets_before j = 0
| Aborted (OutOfBytes n' a r s) =>
    n' = nToRetOn /\ a = addr /\ r = retCount /\ s = szBytes /\
    hits_before n < nToRetOn
end.
End findNth.

(** [insnMatch<args...>]: whether the id is one of the listed ones. *)
Definition insnMatch (args : list arm64_insn) (insn : cs_insn) : bool :=
  bool_decide (id insn ∈ args).

Definition operand (insn : cs_insn) (k : nat) : cs_arm64_op :=
  default (mkOp 0 0) (operands insn !! k).

(** [blConv]: the target of a BL, [(imm << 2) + address] as written. *)
Definition blConv (insn : cs_insn) : option Z :=
  if bool_decide (id insn = ARM64_INS_BL)
  then Some (u64 (s64 (Z.shiftl (op_imm (operand insn 0)) 2) + address insn))
  else None.

(** [pcRelConv]: address, destination register and computed address of an
    ADR or ADRP. *)
Definition pcRelConv (insn : cs_insn) : option (Z * Z * Z) :=
  match id insn with
  | ARM64_INS_ADR =>
      Some (address insn, reg (operand insn 0),
            u64 (op_imm (operand insn 1) + address insn))
  | ARM64_INS_ADRP =>
      Some (address insn, reg (operand insn 0),
            u64 (Z.shiftl (Z.shiftr (address insn) 12) 12 +
                 Z.shiftl (op_imm (operand insn 1)) 12))
  | _ => None
  end.

(** [regMatchConv]: an ADD whose second operand is the register looked for. *)
Definition regMatchConv (toMatch : Z) (insn : cs_insn) : option (Z * Z * Z) :=
  match id insn with
  | ARM64_INS_ADD =>
      if negb (reg (operand insn 1) =? toMatch) then None
      else Some (address insn, reg (operand insn 0), op_imm (operand insn 2))
  | _ => None
  end.

(** The end of [evalswitch]: index the table of [int32_t] at [match - 1] and
    add the entry to the table's address. *)
Definition evalswitch_at (memory : Z -> Z) (switchTable match_ : Z) : Z :=
  let val := SignExtend (memory (switchTable + 4 * (match_ - 1))) 32 in
  u64 (switchTable + val).

(** [getpcaddr] and [evalswitch]: [None] where one of the scans aborts. *)
Definition getpcaddr (disasm : Z -> option cs_insn)
    (nToRetOn nImmOff szBytes addr : Z) : option (Z * Z * Z) :=
  match findNth disasm nToRetOn (-1) szBytes addr pcRelConv (insnMatch []) with
  | Aborted _ => None
  | Returned (a, r, dst) =>
      match findNth disasm nImmOff (-1) szBytes a (regMatchConv r) (insnMatch []) with
      | Aborted _ => None
      | Returned (a', r', off) => Some (a', r', u64 (dst + off))
      end
  end.

Definition evalswitch (disasm : Z -> option cs_insn) (memory : Z -> Z)
    (nToRetOn nImmOff match_ szBytes addr : Z) : option Z :=
  match getpcaddr disasm nToRetOn nImmOff szBytes addr with
  | None => None
  | Some (_, _, table) => Some (evalswitch_at memory table match_)
  end.

(** [bConv]: the target of a B, [(imm << 2) + address] as written. *)
Definition bConv (insn : cs_insn) : option Z :=
  if bool_decide (id insn = ARM64_INS_B)
  then Some (u64 (s64 (Z.shiftl (op_imm (operand insn 0)) 2) + address insn))
  else None.

(** [findNthBl], [findNthB], [findNthPcRel] and [findNthReg]: [findNth] with
    the converters above.  With [includeR] the register forms BLR and BR are
    counted by the skip predicate; otherwise the skip predicate is the empty
    [insnMatch<>].  The [.value()] they apply reads the optional [findNth]
    returns, which holds a value whenever [findNth] returns. *)
Definition findNthBl (disasm : Z -> option cs_insn) (nToRetOn : Z) (includeR : bool)
    (retCount szBytes addr : Z) : outcome Z :=
  if includeR
  then findNth disasm nToRetOn retCount szBytes addr blConv (insnMatch [ARM64_INS_BLR])
  else findNth disasm nToRetOn retCount szBytes addr blConv (insnMatch []).

Definition findNthB (disasm : Z -> option cs_insn) (nToRetOn : Z) (includeR : bool)
    (retCount szBytes addr : Z) : outcome Z :=
  if includeR
  then findNth disasm nToRetOn retCount szBytes addr bConv (insnMatch [ARM64_INS_BR])
  else findNth disasm nToRetOn retCount szBytes addr bConv (insnMatch []).

Definition findNthPcRel (disasm : Z -> option cs_insn) (nToRetOn retCount szBytes addr : Z)
    : outcome (Z * Z * Z) :=
  findNth disasm nToRetOn retCount szBytes addr pcRelConv (insnMatch []).

Definition findNthReg (disasm : Z -> option cs_insn) (nToRetOn retCount szBytes addr : Z)
    (reg : Z) : outcome (Z * Z * Z) :=
  findNth disasm nToRetOn retCount szBytes addr (regMatchConv reg) (insnMatch []).

End cs.

(* ===================================================================== *)
(** * 6. The dependency-tracking traversal *)
(* ===================================================================== *)

(** Modelled from the spec: [ParseState] and [InstructionTree] are declared in
    the missing header.  The dependency map is "a fixed array of 32 bit-sets,
    one per register"; the traversal state is the address-to-node memo, the
    LIFO worklist of (node, dependency map) pairs and the function candidates
    with the dependency map seen at the call.  Nodes live in a store and are
    named by their index there, which is what a pointer to a node is. *)
Definition max_size : Z := 32.

(** The "all-self-dependency initial map". *)
Definition initial_depMap : list (gset nat) := (fun r => {[ r ]}) <$> seq 0 32.

Record InstructionTree : Type := mkTree {
  inst : Instruction;
  branch : option nat;
  noBranch : option nat;
}.

Record ParseState : Type := mkParseState {
  nodes : list InstructionTree;
  codeToInstTree : gmap Z nat;
  frontier : list (nat * list (gset nat));
  dependencyMap : list (gset nat);
  functionCandidates : gmap Z (list (gset nat));
  expanded : list Z;
}.

Definition set_nodes v (s : ParseState) :=
  mkParseState v (codeToInstTree s) (frontier s) (dependencyMap s) (functionCandidates s) (expanded s).
Definition set_codeToInstTree v (s : ParseState) :=
  mkParseState (nodes s) v (frontier s) (dependencyMap s) (functionCandidates s) (expanded s).
Definition set_frontier v (s : ParseState) :=
  mkParseState (nodes s) (codeToInstTree s) v (dependencyMap s) (functionCandidates s) (expanded s).
Definition set_dependencyMap v (s : ParseState) :=
  mkParseState (nodes s) (codeToInstTree s) (frontier s) v (functionCandidates s) (expanded s).
Definition set_functionCandidates v (s : ParseState) :=
  mkParseState (nodes s) (codeToInstTree s) (frontier s) (dependencyMap s) v (expanded s).
Definition set_expanded v (s : ParseState) :=
  mkParseState (nodes s) (codeToInstTree s) (frontier s) (dependencyMap s) (functionCandidates s) v.

(** [new InstructionTree(pc)]: decode at [pc] and put the node in the store. *)
Definition new_InstructionTree (env : Env) (pc : Z) (s : ParseState) : nat * ParseState :=
  (length (nodes s),
   set_nodes (nodes s ++ [mkTree (Instruction_ctor env pc) None None]) s).

(** [InstructionTree* FindOrCreateInstruction(const int32_t* pc, ParseState& parseState, const char* msg)] *)
Definition FindOrCreateInstruction (env : Env) (pc : Z) (parseState : ParseState)
    : nat * ParseState :=
  match codeToInstTree parseState !! pc with
  | Some p => (p, parseState)
  | None =>
      let '(inst, parseState) := new_InstructionTree env pc parseState in
      let parseState :=
        set_frontier ((inst, dependencyMap parseState) :: frontier parseState) parseState in
      let parseState :=
        set_codeToInstTree (<[pc := inst]> (codeToInstTree parseState)) parseState in
      (inst, parseState)
  end.

(** The loop of [ProcessRegisterDependencies] over the source registers;
    [None] is [SAFE_ABORT()]. *)
Fixpoint gather_deps (srcs : list Z) (depMap : list (gset nat)) (newDeps : gset nat)
    : option (gset nat) :=
  match srcs with
  | [] => Some newDeps
  | Rs :: rest =>
      if (Rs <? 0) || (max_size <=? Rs) then None
      else gather_deps rest depMap (newDeps ∪ depMap !!! Z.to_nat Rs)
  end.

(** The source registers the loops over [Rs] visit: [Rs[0 .. numSourceRegisters-1]]. *)
Definition sources (i : Instruction) : list Z :=
  take (Z.to_nat (numSourceRegisters i)) (Rs i).

(** [void ProcessRegisterDependencies(Instruction* inst, uint_fast8_t Rd, depMap&)] *)
Definition ProcessRegisterDependencies_for (i : Instruction) (Rd : Z)
    (depMap : list (gset nat)) : option (list (gset nat)) :=
  newDeps ← gather_deps (sources i) depMap ∅;
  Some (<[Z.to_nat Rd := newDeps]> depMap).

(** [void ProcessRegisterDependencies(Instruction* inst, depMap&)] *)
Definition ProcessRegisterDependencies (i : Instruction) (depMap : list (gset nat))
    : option (list (gset nat)) :=
  depMap ← (if 0 <=? Rd i then ProcessRegisterDependencies_for i (Rd i) depMap
            else Some depMap);
  if 0 <=? Rd2 i then ProcessRegisterDependencies_for i (Rd2 i) depMap
  else Some depMap.

(** [bool OnlySelfDeps(uint_fast8_t reg, depMap&)] *)
Definition OnlySelfDeps (reg : nat) (depMap : list (gset nat)) : bool :=
  let deps := depMap !!! reg in
  bool_decide (size deps = 1%nat) && bool_decide (reg ∈ deps).

Definition set_branch (v : option nat) (t : InstructionTree) : InstructionTree :=
  mkTree (inst t) v (noBranch t).
Definition set_noBranch (v : option nat) (t : InstructionTree) : InstructionTree :=
  mkTree (inst t) (branch t) v.

(** [void InstructionTree::PopulateChildren(ParseState& parseState)] on the
    node [this]; [None] is a fatal abort.  [expanded] keeps the addresses the
    function was entered with, which the source writes to its log. *)
Definition PopulateChildren (env : Env) (this : nat) (parseState : ParseState)
    : option ParseState :=
  match nodes parseState !! this with
  | None => None
  | Some node =>
      let i := inst node in
      let pc := addr i in
      let parseState := set_expanded (expanded parseState ++ [pc]) parseState in
      if negb (parsed i) || negb (valid i) then Some parseState
      else if isReturn i then Some parseState
      else
        depMap ← ProcessRegisterDependencies i (dependencyMap parseState);
        let parseState := set_dependencyMap depMap parseState in
        parseState ←
          (if isDirectBranch i then
             target ← label i;
             let '(b, parseState) := FindOrCreateInstruction env target parseState in
             let parseState :=
               set_nodes (alter (set_branch (Some b)) this (nodes parseState)) parseState in
             Some (if isCall i then
                     set_functionCandidates
                       (match functionCandidates parseState !! target with
                        | Some _ => functionCandidates parseState
                        | None => <[target := dependencyMap parseState]>
                                    (functionCandidates parseState)
                        end) parseState
                   else parseState)
           else Some parseState);
        if negb (isUnconditionalBranch i) then
          let '(n, parseState) := FindOrCreateInstruction env (u64 (pc + 4)) parseState in
          Some (set_nodes (alter (set_noBranch (Some n)) this (nodes parseState)) parseState)
        else Some parseState
  end.

(** What a run of the constructor of [AssemblyFunction] ends with. *)
Inductive run (A : Type) : Type :=
  | Finished (a : A)
  | Crashed
  | OutOfFuel.
Arguments Finished {A} a.
Arguments Crashed {A}.
Arguments OutOfFuel {A}.

(** The loop [while (!parseState.frontier.empty())]. *)
Fixpoint drain (env : Env) (fuel : nat) (parseState : ParseState) : run ParseState :=
  match frontier parseState with
  | [] => Finished parseState
  | p :: rest =>
      match fuel with
      | O => OutOfFuel
      | S fuel' =>
          let parseState := set_frontier rest parseState in
          let parseState := set_dependencyMap p.2 parseState in
          match PopulateChildren env p.1 parseState with
          | None => Crashed
          | Some parseState => drain env fuel' parseState
          end
      end
  end.

(** [AssemblyFunction::AssemblyFunction(const int32_t* pc)] *)
Definition AssemblyFunction (env : Env) (fuel : nat) (pc : Z) : run ParseState :=
  let parseState := mkParseState [] ∅ [] initial_depMap ∅ [] in
  let '(root, parseState) := new_InstructionTree env pc parseState in
  let parseState :=
    set_frontier ((root, dependencyMap parseState) :: frontier parseState) parseState in
  drain env fuel parseState.

(** How often an address was decoded (a node built for it) and how often it
    was expanded in a final state. *)
Definition times_decoded (pc : Z) (s : ParseState) : nat :=
  length (filter (fun t => addr (inst t) = pc) (nodes s)).
Definition times_expanded (pc : Z) (s : ParseState) : nat :=
  length (filter (fun a => a = pc) (expanded s)).

(* ===================================================================== *)
(** * 7. Sample inputs *)
(* ===================================================================== *)

Module Samples.

(** An image based at 1 whose memory holds the given words from [0x1000] on
    and zeros elsewhere. *)
Definition words_at (words : list Z) (a : Z) : Z :=
  if a <? 0x1000 then 0 else default 0 (words !! Z.to_nat ((a - 0x1000) / 4)).

Definition image (words : list Z) : Env := mkEnv (fun _ => 1) (words_at words).

(** [CBZ X0, #+8], [B.EQ #+8] and [TBZ W0, #0, #+8]. *)
Definition cbz_x0_8 : Z := 0xB4000040.
Definition beq_8 : Z := 0x54000040.
Definition tbz_w0_0_8 : Z := 0x36000040.

(** [ADRP X0, #0] followed by [ADD X0, X0, #0x20]. *)
Definition adrp_add : list Z := [0x90000000; 0x91008000].

(** A function that is the single instruction [B .], a branch to itself. *)
Definition b_self : list Z := [0x14000000].

(** A function that loops back to its entry: [ADD X0, X0, #1] and [B #-4]. *)
Definition loop_to_entry : list Z := [0x91000400; 0x17FFFFFF].

(** [LDP X29, X30, [SP], #16]. *)
Definition ldp_x29_x30 : Z := 0xA8C17BFD.

(** [CMP X1, #5] and [SUB X0, X0, #16]. *)
Definition cmp_x1_5 : Z := 0xF100143F.
Definition sub_x0_x0_16 : Z := 0xD1004000.

(** The same kind of image with another base. *)
Definition rebased (words : list Z) : Env :=
  mkEnv (fun _ => 0x7000000000) (words_at words).

(** A disassembly of two words at [0x1000]: a NOP-like instruction and
    [BL #+8]. *)
Definition two_insns (a : Z) : option cs.cs_insn :=
  if a =? 0x1000 then Some (cs.mkInsn (cs.ARM64_INS_other 0) 0x1000 "nop" [])
  else if a =? 0x1004 then Some (cs.mkInsn cs.ARM64_INS_BL 0x1004 "bl" [cs.mkOp 0 2])
  else None.

(** A switch table at [0x2000] whose first entry is [-8]. *)
Definition table_env : Env :=
  mkEnv (fun _ => 1) (fun a => if a =? 0x2000 then 0xFFFFFFF8 else 0).

End Samples.

(* ===================================================================== *)
(** * 8. Vocabulary of the statements *)
(* ===================================================================== *)

(** The mnemonic-level names of the CMP and CMN aliases, and those of the
    subtracting add/subtract-immediate forms. *)
Definition cmp_names : list string :=
  ["CMN (shifted register)"; "CMP (shifted register)";
   "CMN (immediate)"; "CMP (immediate)"].

Definition sub_imm_names : list string :=
  ["SUB (immediate) — 64-bit"; "SUB (immediate) — 32-bit";
   "SUBS (immediate) — 64-bit"; "SUBS (immediate) — 32-bit";
   "CMP (immediate)"].

Definition is_name (names : list string) (k : string) : bool :=
  existsb (String.eqb k) names.

(** A name that is neither of the two groups, and a record all of whose
    [kind] entries are such names. *)
Definition plain (k : string) : bool :=
  negb (is_name cmp_names k) && negb (is_name sub_imm_names k).

Definition all_plain (i : Instruction) : bool := forallb plain (kind i).

(** [keeps i r]: going from [i] to [r] leaves the address alone and adds
    plain names only. *)
Definition keeps (i r : Instruction) : Prop :=
  addr r = addr i /\ (all_plain i = true -> all_plain r = true).

(** The shape of a record decoded as a register-form CMP or CMN. *)
Definition cmp_register_shape (code : Z) (r : Instruction) : Prop :=
  exists g k,
    (k = "CMN (shifted register)" \/ k = "CMP (shifted register)") /\
    kind r = ["Data Processing -- Register"; g; k] /\
    Rd r = -1 /\ Rd2 r = -1 /\
    sources r = [bits code 9 5; bits code 20 16].

(** The byte offset an add/subtract-immediate word encodes: the 12-bit
    immediate shifted left by 12 times the shift field. *)
Definition addsub_imm_offset (code : Z) : Z :=
  Z.shiftl (bits code 21 10) (12 * bits code 23 22).

(** The shape of a record decoded as an add/subtract (immediate). *)
Definition addsub_imm_shape (code : Z) (r : Instruction) : Prop :=
  exists k,
    kind r = ["Data Processing -- Immediate"; addSubImm; k] /\
    Rd2 r = -1 /\
    sources r = [bits code 9 5] /\
    (is_name cmp_names k = true -> Rd r = -1) /\
    if bits code 30 30 =? 0
    then imm r = Some (addsub_imm_offset code) /\ is_name sub_imm_names k = false
    else imm r = Some (- addsub_imm_offset code).

(* ===================================================================== *)
(** * 9. Vocabulary of the further properties *)
(* ===================================================================== *)

(** A register number, and what a destination slot may hold: a register
    number or [-1] for none. *)
Definition reg_ok (r : Z) : Prop := 0 <= r < 32.
Definition dest_ok (r : Z) : Prop := -1 <= r < 32.

(** What the constructor has built when it reaches its last statements: the
    levels of [kind] fit the array, the register slots hold register
    numbers, and the branch kinds come with the fields the traversal reads. *)
Definition built_ok (pc : Z) (r : Instruction) : Prop :=
  (length (kind r) <= 3)%nat /\
  parsed r = false /\
  dest_ok (Rd r) /\ dest_ok (Rd2 r) /\
  -1 <= numSourceRegisters r <= 3 /\
  (length (kind r) = 3%nat -> valid r = true -> kind r !! 2%nat <> Some unalloc ->
     0 <= numSourceRegisters r /\ Forall reg_ok (sources r)) /\
  (branchType r = DIR \/ branchType r = DIRCALL -> is_Some (label r)) /\
  (branchType r = DIRCALL \/ branchType r = INDCALL ->
     Rd r = RLINK /\ result r = Some (s64 (pc + 4))) /\
  (branchType r = RET -> Rd r = -1 /\ Rd2 r = -1).

(** The same of a finished record. *)
Definition decoded_ok (pc : Z) (r : Instruction) : Prop :=
  (length (kind r) <= 3)%nat /\
  (parsed r = true <-> length (kind r) = 3%nat) /\
  (parsed r = true -> kind r !! 2%nat = Some unalloc -> valid r = false) /\
  dest_ok (Rd r) /\ dest_ok (Rd2 r) /\
  -1 <= numSourceRegisters r <= 3 /\
  (parsed r = true -> valid r = true ->
     0 <= numSourceRegisters r /\ Forall reg_ok (sources r)) /\
  (isDirectBranch r = true -> is_Some (label r)) /\
  (isCall r = true -> Rd r = RLINK /\ result r = Some (s64 (pc + 4))) /\
  (isReturn r = true -> Rd r = -1 /\ Rd2 r = -1).

(** ** The register an immediate offset applies to *)

(** What [hasImmOffsetOnReg] answering for [reg] tells about the code word of
    the record: [reg] is the base register field, bits 9 to 5, or the record
    is a register-offset load or store and [reg] is its index register field,
    bits 20 to 16. *)
Definition offset_base_ok (code reg : Z) (r : Instruction) : Prop :=
  hasImmOffsetOnReg reg r = true ->
  reg = bits code 9 5 \/
  (kind r !! 1%nat = Some "Load/store register (register offset)" /\
   reg = bits code 20 16).

(** The result of a record named ADRP is a multiple of the page size and is
    also its label. *)
Definition adrp_ok (r : Instruction) : Prop :=
  kind r !! 2%nat = Some "ADRP" ->
  exists v, result r = Some v /\ v mod 4096 = 0 /\ label r = Some (u64 v).

(** ** The state of a run *)

(** The records and the addresses of the nodes of a state, in the order in
    which the nodes were built. *)
Definition insts (s : ParseState) : list Instruction := inst <$> nodes s.
Definition node_addrs (s : ParseState) : list Z := addr <$> insts s.

(** The addresses of the nodes that wait on the worklist. *)
Definition pending (s : ParseState) : list Z :=
  (fun p => node_addrs s !!! p.1) <$> frontier s.

(** The children of a node are nodes of the store: [branch] the one at the
    label of the node's record, [noBranch] the one at the next word. *)
Definition edges_ok (addrs : list Z) (t : InstructionTree) : Prop :=
  (forall b, branch t = Some b ->
     exists l, label (inst t) = Some l /\ addrs !! b = Some l) /\
  (forall n, noBranch t = Some n -> addrs !! n = Some (u64 (addr (inst t) + 4))).

(** A function candidate is the label of a direct call among the records of
    the state, and carries a dependency map of 32 entries. *)
Definition candidate_ok (s : ParseState) (a : Z) (d : list (gset nat)) : Prop :=
  length d = 32%nat /\
  exists i, i ∈ insts s /\ isDirectBranch i = true /\ isCall i = true /\
            label i = Some a.

(** What every state of a run started at [root] satisfies. *)
Record traversal_inv (env : Env) (root : Z) (s : ParseState) : Prop := mk_traversal_inv {
  inv_built : Forall (fun i => i = Instruction_ctor env (addr i)) (insts s);
  inv_frontier :
    Forall (fun p => (p.1 < length (nodes s))%nat /\ length p.2 = 32%nat) (frontier s);
  inv_depMap : length (dependencyMap s) = 32%nat;
  inv_count : expanded s ++ pending s ≡ₚ node_addrs s;
  inv_root : node_addrs s !! 0%nat = Some root;
  inv_memo : forall pc n,
    codeToInstTree s !! pc = Some n <-> (1 <= n)%nat /\ node_addrs s !! n = Some pc;
  inv_edges : Forall (edges_ok (node_addrs s)) (nodes s);
  inv_candidates : forall a d,
    functionCandidates s !! a = Some d -> candidate_ok s a d;
}.

(** Further sample words: [B #+8], [BL #+8], [RET], [BLR X1],
    [LDR X1, [X2, #8]] and [ADRP X0, #0x1000]. *)
Module MoreSamples.
Definition b_8 : Z := 0x14000002.
Definition bl_8 : Z := 0x94000002.
Definition ret : Z := 0xD65F03C0.
Definition blr_x1 : Z := 0xD63F0020.
Definition ldr_x1_x2_8 : Z := 0xF9400441.
Definition adrp_x0_page1 : Z := 0xB0000000.

(** Two words as the disassembler gives them: [ADRP X0, #1] and
    [ADD X1, X0, #16]. *)
Definition adrp_add_insns (a : Z) : option cs.cs_insn :=
  if a =? 0x1000 then
    Some (cs.mkInsn cs.ARM64_INS_ADRP 0x1000 "adrp" [cs.mkOp 0 0; cs.mkOp 0 1])
  else if a =? 0x1004 then
    Some (cs.mkInsn cs.ARM64_INS_ADD 0x1004 "add"
            [cs.mkOp 1 0; cs.mkOp 0 0; cs.mkOp 0 16])
  else None.
End MoreSamples.

(* ===================================================================== *)
(** * 10. Properties *)
(* ===================================================================== *)

(** ** C1: the logical-immediate decode *)

(** [of_bits n f] has exactly the bits [f] gives below [n]. *)
Lemma of_bits_testbit (n : nat) (f : Z -> bool) (i : Z) :
  0 <= i ->
  Z.testbit (LogicalImmediate.of_bits n f) i = (i <? Z.of_nat n) && f i.
Proof.
  intros Hi. induction n as [|n IH]; cbn [LogicalImmediate.of_bits].
  - rewrite Z.testbit_0_l. destruct (Z.ltb_spec i (Z.of_nat 0)); [lia | reflexivity].
  - rewrite Z.lor_spec, IH.
    destruct (Z.ltb_spec i (Z.of_nat n)) as [Hlt | Hge];
      destruct (Z.ltb_spec i (Z.of_nat (S n))) as [Hlt' | Hge']; try lia.
    + cbn [andb]. destruct (f (Z.of_nat n)).
      * rewrite Z.pow2_bits_eqb by lia.
        destruct (Z.eqb_spec (Z.of_nat n) i); [lia|]. now rewrite orb_false_r.
      * now rewrite Z.testbit_0_l, orb_false_r.
    + assert (i = Z.of_nat n) as -> by lia. cbn [andb orb].
      destruct (f (Z.of_nat n)).
      * rewrite Z.pow2_bits_eqb by lia. apply Z.eqb_refl.
      * apply Z.testbit_0_l.
    + cbn [andb orb]. destruct (f (Z.of_nat n)).
      * rewrite Z.pow2_bits_eqb by lia.
        destruct (Z.eqb_spec (Z.of_nat n) i); [lia | reflexivity].
      * apply Z.testbit_0_l.
Qed.

(** Bit [i] of the pattern: inside the register, and among the [S+1] ones of
    its element once the rotation by [R] is undone. *)
Lemma pattern_testbit (size S R regSize i : Z) :
  0 < size -> 0 <= S -> 0 <= i ->
  Z.testbit (LogicalImmediate.pattern size S R regSize) i =
  (i <? Z.max size regSize) && ((i mod size + R) mod size <? S + 1).
Proof.
  intros Hsize HS Hi.
  unfold LogicalImmediate.pattern, LogicalImmediate.Replicate,
    LogicalImmediate.RotateRight, LogicalImmediate.Ones.
  pose proof (Z.mod_pos_bound i size Hsize) as Hm.
  pose proof (Z.mod_pos_bound (i mod size + R) size Hsize) as Hm'.
  rewrite !of_bits_testbit by lia.
  rewrite !Z2Nat.id by lia.
  destruct (Z.ltb_spec (i mod size) size); [|lia].
  now rewrite andb_true_r.
Qed.

Lemma forallb_seqZ (f : Z -> bool) (n x : Z) :
  forallb f (seqZ 0 n) = true -> 0 <= x < n -> f x = true.
Proof.
  intros Hall Hx. rewrite forallb_forall in Hall. apply Hall.
  apply list_elem_of_In, elem_of_seqZ. lia.
Qed.

Lemma forall_fields_sound (f : Z -> Z -> Z -> bool) :
  forall_fields f = true ->
  forall N imms immr, 0 <= N < 2 -> 0 <= imms < 64 -> 0 <= immr < 64 ->
  f N imms immr = true.
Proof.
  unfold forall_fields. intros T N imms immr HN Hs Hr.
  generalize (forallb_seqZ _ 2 N T HN). clear T. intros T.
  generalize (forallb_seqZ _ 64 imms T Hs). clear T. intros T.
  exact (forallb_seqZ _ 64 immr T Hr).
Qed.

Lemma DecodeBitMasks_table_ok : forall_fields DecodeBitMasks_agrees_both = true.
Proof. vm_compute. reflexivity. Qed.

Lemma DecodeBitMasks_agrees_all N imms immr regSize :
  0 <= N < 2 -> 0 <= imms < 64 -> 0 <= immr < 64 ->
  regSize = 32 \/ regSize = 64 ->
  DecodeBitMasks_agrees N imms immr regSize = true.
Proof.
  intros HN Hs Hr Hreg.
  pose proof (forall_fields_sound _ DecodeBitMasks_table_ok N imms immr HN Hs Hr) as T.
  unfold DecodeBitMasks_agrees_both in T.
  apply andb_true_iff in T as [T32 T64].
  destruct Hreg as [-> | ->]; assumption.
Qed.

(** On the fields of an instruction the replication loop leaves, so the
    call returns. *)
Lemma DecodeBitMasks_returns N imms immr regSize :
  0 <= N < 2 -> 0 <= imms < 64 -> 0 <= immr < 64 ->
  regSize = 32 \/ regSize = 64 ->
  is_Some (DecodeBitMasks N imms immr regSize).
Proof.
  intros HN Hs Hr Hreg.
  pose proof (DecodeBitMasks_agrees_all N imms immr regSize HN Hs Hr Hreg) as A.
  unfold DecodeBitMasks_agrees in A.
  destruct (DecodeBitMasks N imms immr regSize); [eauto | discriminate A].
Qed.

(** C1. [DecodeBitMasks] is the architecture's logical-immediate decode: on
    the fields of an instruction ([N] one bit, [imms] and [immr] six bits,
    a 32- or 64-bit register) it returns, and it returns the all-ones
    sentinel exactly when the element length is below 1 or [imms] masked to
    the element width is all ones; otherwise it returns the element with its
    rightmost [S+1] bits set, rotated right by [R] and replicated to the
    register size.  [DecodeBitMasks(1, 0, 0, 64)] is [0x1]. *)
Theorem DecodeBitMasks_spec (N imms immr regSize : Z) :
  0 <= N < 2 -> 0 <= imms < 64 -> 0 <= immr < 64 ->
  regSize = 32 \/ regSize = 64 ->
  let len := element_len N imms in
  let levels := 2 ^ len - 1 in
  let S := Z.land imms levels in
  let R := Z.land immr levels in
  (DecodeBitMasks N imms immr regSize = Some all_ones64 <->
     (len < 1 \/ S = levels)) /\
  (~ (len < 1 \/ S = levels) ->
     DecodeBitMasks N imms immr regSize =
       Some (LogicalImmediate.pattern (2 ^ len) S R regSize)) /\
  DecodeBitMasks 1 0 0 64 = Some 1.
Proof.
  intros HN Hs Hr Hreg len levels S R.
  pose proof (DecodeBitMasks_agrees_all N imms immr regSize HN Hs Hr Hreg) as A.
  unfold DecodeBitMasks_agrees in A.
  fold len in A. fold levels in A. fold S in A. fold R in A.
  destruct (DecodeBitMasks N imms immr regSize) as [v|]; [|discriminate].
  destruct ((len <? 1) || (S =? levels)) eqn:E.
  - apply Z.eqb_eq in A. subst v.
    apply orb_true_iff in E. rewrite Z.ltb_lt, Z.eqb_eq in E.
    split; [tauto|]. split; [tauto|]. reflexivity.
  - apply andb_true_iff in A as [A1 A2].
    apply negb_true_iff, Z.eqb_neq in A1. apply Z.eqb_eq in A2.
    apply orb_false_iff in E. rewrite Z.ltb_ge, Z.eqb_neq in E.
    split; [|split].
    + split; [intros [= ->]; congruence | lia].
    + intros _. now rewrite A2.
    + reflexivity.
Qed.

Lemma DecodeBitMasks_spec_witness :
  (DecodeBitMasks 1 60 3 64 = Some all_ones64 <->
     (element_len 1 60 < 1 \/
      Z.land 60 (2 ^ element_len 1 60 - 1) = 2 ^ element_len 1 60 - 1)) /\
  (~ (element_len 1 60 < 1 \/
      Z.land 60 (2 ^ element_len 1 60 - 1) = 2 ^ element_len 1 60 - 1) ->
     DecodeBitMasks 1 60 3 64 =
       Some (LogicalImmediate.pattern (2 ^ element_len 1 60)
               (Z.land 60 (2 ^ element_len 1 60 - 1))
               (Z.land 3 (2 ^ element_len 1 60 - 1)) 64)) /\
  DecodeBitMasks 1 0 0 64 = Some 1.
Proof.
  apply (DecodeBitMasks_spec 1 60 3 64); [lia | lia | lia | right; reflexivity].
Defined.

(** ** Machine arithmetic *)

Lemma u64_s64 (x : Z) : u64 (s64 x) = u64 x.
Proof.
  unfold u64, s64.
  rewrite <- (Zminus_mod_idemp_l ((x + 2 ^ 63) mod 2 ^ 64)).
  rewrite Z.mod_mod by lia.
  rewrite Zminus_mod_idemp_l. f_equal. lia.
Qed.

Lemma u64_add_s64_l (x y : Z) : u64 (s64 x + y) = u64 (x + y).
Proof.
  unfold u64. rewrite <- Zplus_mod_idemp_l. fold (u64 (s64 x)).
  rewrite u64_s64. unfold u64. now rewrite Zplus_mod_idemp_l.
Qed.

Lemma u64_small (x : Z) : 0 <= x < 2 ^ 64 -> u64 x = x.
Proof. intros. unfold u64. now apply Z.mod_small. Qed.

Lemma s64_small (x : Z) : - 2 ^ 63 <= x < 2 ^ 63 -> s64 x = x.
Proof. intros. unfold s64. rewrite Z.mod_small; lia. Qed.

Lemma SignExtend_u32 (w : Z) : SignExtend (u32 w) 32 = SignExtend w 32.
Proof.
  unfold SignExtend, u32. rewrite !Z.land_ones by lia.
  now rewrite Z.mod_mod by lia.
Qed.

Lemma bits_range (code hi lo : Z) :
  0 <= hi - lo + 1 -> 0 <= bits code hi lo < 2 ^ (hi - lo + 1).
Proof.
  intros. unfold bits. rewrite Z.land_ones by lia.
  apply Z.mod_pos_bound. apply Z.pow_pos_nonneg; lia.
Qed.


(** ** The decoder, function by function

    Each part of the constructor either only adds plain names ([keeps]) or is
    one of the two places where the CMP, CMN and subtract names are given. *)

Lemma keeps_refl i : keeps i i.
Proof. split; auto. Qed.

Lemma keeps_trans i j r : keeps i j -> keeps j r -> keeps i r.
Proof. intros [A1 P1] [A2 P2]. split; [congruence | auto]. Qed.

Lemma all_plain_push s i : all_plain (push_kind s i) = all_plain i && plain s.
Proof.
  unfold all_plain. cbn [kind push_kind set_kind].
  rewrite forallb_app. cbn. now rewrite andb_true_r.
Qed.

Lemma keeps_push s i r : plain s = true -> keeps i r -> keeps i (push_kind s r).
Proof.
  intros Hs [A P]. split; [exact A|].
  intros H. rewrite all_plain_push, (P H), Hs. reflexivity.
Qed.

Lemma keeps_set_Rs_at n v i r : keeps i r -> keeps i (set_Rs_at n v r).
Proof. intros H; exact H. Qed.

Lemma keeps_set_RdRs0CanBeSP b i r : keeps i r -> keeps i (set_RdRs0CanBeSP b r).
Proof. intros H; exact H. Qed.

Lemma keeps_set_numSourceRegisters v i r : keeps i r -> keeps i (set_numSourceRegisters v r).
Proof. intros H; exact H. Qed.

Lemma keeps_set_Rs v i r : keeps i r -> keeps i (set_Rs v r).
Proof. intros H; exact H. Qed.

Lemma keeps_set_Rs0CanBeSP v i r : keeps i r -> keeps i (set_Rs0CanBeSP v r).
Proof. intros H; exact H. Qed.

Lemma keeps_set_Rd v i r : keeps i r -> keeps i (set_Rd v r).
Proof. intros H; exact H. Qed.

Lemma keeps_set_Rd2 v i r : keeps i r -> keeps i (set_Rd2 v r).
Proof. intros H; exact H. Qed.

Lemma keeps_set_RdCanBeSP v i r : keeps i r -> keeps i (set_RdCanBeSP v r).
Proof. intros H; exact H. Qed.

Lemma keeps_set_imm v i r : keeps i r -> keeps i (set_imm v r).
Proof. intros H; exact H. Qed.

Lemma keeps_set_result v i r : keeps i r -> keeps i (set_result v r).
Proof. intros H; exact H. Qed.

Lemma keeps_set_label v i r : keeps i r -> keeps i (set_label v r).
Proof. intros H; exact H. Qed.

Lemma keeps_set_branchType v i r : keeps i r -> keeps i (set_branchType v r).
Proof. intros H; exact H. Qed.

Lemma keeps_set_cond v i r : keeps i r -> keeps i (set_cond v r).
Proof. intros H; exact H. Qed.

Lemma keeps_set_shiftType v i r : keeps i r -> keeps i (set_shiftType v r).
Proof. intros H; exact H. Qed.

Lemma keeps_set_extendType v i r : keeps i r -> keeps i (set_extendType v r).
Proof. intros H; exact H. Qed.

Lemma keeps_set_wback v i r : keeps i r -> keeps i (set_wback v r).
Proof. intros H; exact H. Qed.

Lemma keeps_set_postindex v i r : keeps i r -> keeps i (set_postindex v r).
Proof. intros H; exact H. Qed.

Lemma keeps_set_parsed v i r : keeps i r -> keeps i (set_parsed v r).
Proof. intros H; exact H. Qed.

Lemma keeps_set_valid v i r : keeps i r -> keeps i (set_valid v r).
Proof. intros H; exact H. Qed.

Create HintDb keeps discriminated.

#[local] Hint Resolve keeps_refl keeps_push keeps_set_Rs_at keeps_set_RdRs0CanBeSP
  keeps_set_numSourceRegisters keeps_set_Rs keeps_set_Rs0CanBeSP keeps_set_Rd keeps_set_Rd2 keeps_set_RdCanBeSP keeps_set_imm keeps_set_result keeps_set_label keeps_set_branchType keeps_set_cond keeps_set_shiftType keeps_set_extendType keeps_set_wback keeps_set_postindex keeps_set_parsed keeps_set_valid : keeps.

#[local] Hint Extern 1 (plain _ = true) => reflexivity : keeps.

(** Case analysis on the conditions of one function of the decoder. *)
Ltac split_step :=
  match goal with
  | |- context [if ?b then _ else _] =>
      lazymatch b with
      | context [if _ then _ else _] => fail
      | context [match _ with _ => _ end] => fail
      | _ => destruct b eqn:?
      end
  | |- context [match ?o with Some _ => _ | None => _ end] =>
      lazymatch o with
      | context [if _ then _ else _] => fail
      | _ => destruct o eqn:?
      end
  end.

Ltac split_ifs := unfold sel; cbv zeta; repeat (split_step; cbv beta iota).

Ltac keeps_cases := intros; split_ifs; eauto 30 with keeps.

Lemma keeps_logical_shifted code sf Rn Rm i r :
  keeps i r -> keeps i (decode_logical_shifted code sf Rn Rm r).
Proof.
  intros H. apply (keeps_trans _ _ _ H). clear H. unfold decode_logical_shifted. keeps_cases.
Qed.

Lemma keeps_condsel code sf op0 i r :
  keeps i r -> keeps i (decode_condsel code sf op0 r).
Proof.
  intros H. apply (keeps_trans _ _ _ H). clear H. unfold decode_condsel. keeps_cases.
Qed.

Lemma keeps_dp_3src code sf i r :
  keeps i r -> keeps i (decode_dp_3src code sf r).
Proof.
  intros H. apply (keeps_trans _ _ _ H). clear H. unfold decode_dp_3src. keeps_cases.
Qed.

Lemma keeps_pcrel code sf pc i r :
  keeps i r -> keeps i (decode_pcrel code sf pc r).
Proof.
  intros H. apply (keeps_trans _ _ _ H). clear H. unfold decode_pcrel. keeps_cases.
Qed.

Lemma keeps_logical_imm code sf i r :
  keeps i r -> keeps i (decode_logical_imm code sf r).
Proof.
  intros H. apply (keeps_trans _ _ _ H). clear H. unfold decode_logical_imm. keeps_cases.
Qed.

Lemma keeps_condbranch code pc i r :
  keeps i r -> keeps i (decode_condbranch code pc r).
Proof.
  intros H. apply (keeps_trans _ _ _ H). clear H. unfold decode_condbranch. keeps_cases.
Qed.

Lemma keeps_branch_reg code pc i r :
  keeps i r -> keeps i (decode_branch_reg code pc r).
Proof.
  intros H. apply (keeps_trans _ _ _ H). clear H. unfold decode_branch_reg. keeps_cases.
Qed.

Lemma keeps_branch_imm code pc i r :
  keeps i r -> keeps i (decode_branch_imm code pc r).
Proof.
  intros H. apply (keeps_trans _ _ _ H). clear H. unfold decode_branch_imm. keeps_cases.
Qed.

Lemma keeps_compbranch code pc i r :
  keeps i r -> keeps i (decode_compbranch code pc r).
Proof.
  intros H. apply (keeps_trans _ _ _ H). clear H. unfold decode_compbranch. keeps_cases.
Qed.

Lemma keeps_testbranch code pc i r :
  keeps i r -> keeps i (decode_testbranch code pc r).
Proof.
  intros H. apply (keeps_trans _ _ _ H). clear H. unfold decode_testbranch. keeps_cases.
Qed.

#[local] Hint Resolve keeps_condbranch keeps_branch_reg keeps_branch_imm
  keeps_compbranch keeps_testbranch : keeps.

Lemma keeps_branches code pc i r :
  keeps i r -> keeps i (decode_branches code pc r).
Proof.
  intros H. apply (keeps_trans _ _ _ H). clear H. unfold decode_branches. keeps_cases.
Qed.

Lemma keeps_ldst_regoff code size V opc Rt Rn i r :
  keeps i r -> keeps i (decode_ldst_regoff code size V opc Rt Rn r).
Proof.
  intros H. apply (keeps_trans _ _ _ H). clear H. unfold decode_ldst_regoff. keeps_cases.
Qed.

Lemma keeps_ldst_immoff size V opc Rt Rn i r :
  keeps i r -> keeps i (decode_ldst_immoff size V opc Rt Rn r).
Proof.
  intros H. apply (keeps_trans _ _ _ H). clear H. unfold decode_ldst_immoff. keeps_cases.
Qed.

#[local] Hint Resolve keeps_ldst_regoff keeps_ldst_immoff : keeps.

Lemma keeps_ldst_register code op1 op2 op3 op4 i r :
  keeps i r -> keeps i (decode_ldst_register code op1 op2 op3 op4 r).
Proof.
  intros H. apply (keeps_trans _ _ _ H). clear H. unfold decode_ldst_register. keeps_cases.
Qed.

Lemma keeps_ldst_pair code op1 op2 i r :
  keeps i r -> keeps i (decode_ldst_pair code op1 op2 r).
Proof.
  intros H. apply (keeps_trans _ _ _ H). clear H. unfold decode_ldst_pair. keeps_cases.
Qed.

#[local] Hint Resolve keeps_ldst_register keeps_ldst_pair : keeps.

Lemma keeps_loads_stores code i r :
  keeps i r -> keeps i (decode_loads_stores code r).
Proof.
  intros H. apply (keeps_trans _ _ _ H). clear H. unfold decode_loads_stores. keeps_cases.
Qed.

#[local] Hint Resolve keeps_logical_shifted keeps_condsel keeps_dp_3src
  keeps_pcrel keeps_logical_imm keeps_branches keeps_loads_stores : keeps.

(** The two places where the special names are given. *)

Ltac kind_shape :=
  cbn [kind addr Rd Rd2 Rs imm numSourceRegisters push_kind set_kind set_Rd
       set_Rs set_Rs_at set_imm set_numSourceRegisters set_RdRs0CanBeSP
       set_RdCanBeSP set_Rs0CanBeSP set_shiftType set_extendType];
  rewrite <- ?app_assoc; cbn [app].

Lemma addsub_reg_names_cases sf op S Rn i :
  let r := decode_addsub_reg_names sf op S Rn i in
  keeps i r \/
  (addr r = addr i /\
   exists k, (k = "CMN (shifted register)" \/ k = "CMP (shifted register)") /\
     kind r = kind i ++ [k] /\ Rd r = -1 /\ Rd2 r = Rd2 i /\
     numSourceRegisters r = numSourceRegisters i /\ Rs r = Rs i).
Proof.
  unfold decode_addsub_reg_names. split_ifs;
    lazymatch goal with
    | |- keeps _ (set_Rd (-1) _) \/ _ =>
        right; split; [reflexivity|]; eexists; kind_shape;
        split; [|repeat split; reflexivity]; auto
    | |- _ => left; solve [eauto 30 with keeps]
    end.
Qed.

Lemma addsub_shifted_cases code sf Rn i :
  let r := decode_addsub_shifted code sf Rn i in
  keeps i r \/
  (addr r = addr i /\
   exists g k, (k = "CMN (shifted register)" \/ k = "CMP (shifted register)") /\
     kind r = kind i ++ [g; k] /\ Rd r = -1 /\ Rd2 r = Rd2 i /\
     numSourceRegisters r = numSourceRegisters i /\ Rs r = Rs i).
Proof.
  unfold decode_addsub_shifted. cbv zeta.
  destruct (_ || _); [left; solve [eauto 30 with keeps]|].
  match goal with |- context [decode_addsub_reg_names ?a ?b ?c ?d ?j] =>
    destruct (addsub_reg_names_cases a b c d j) as [K | (A & k & Hk & E & D1 & D2 & N & R)]
  end.
  - left. eapply keeps_trans; [|exact K]. solve [eauto 30 with keeps].
  - right. split; [exact A|]. eexists _, k. rewrite E, D1, D2, N, R.
    kind_shape. repeat split; auto.
Qed.

Lemma addsub_extended_cases code sf Rn i :
  let r := decode_addsub_extended code sf Rn i in
  keeps i r \/
  (addr r = addr i /\
   exists g k, (k = "CMN (shifted register)" \/ k = "CMP (shifted register)") /\
     kind r = kind i ++ [g; k] /\ Rd r = -1 /\ Rd2 r = Rd2 i /\
     numSourceRegisters r = numSourceRegisters i /\ Rs r = Rs i).
Proof.
  unfold decode_addsub_extended. cbv zeta.
  destruct (_ || _); [left; split_ifs; solve [eauto 30 with keeps]|].
  match goal with |- context [decode_addsub_reg_names ?a ?b ?c ?d ?j] =>
    destruct (addsub_reg_names_cases a b c d j) as [K | (A & k & Hk & E & D1 & D2 & N & R)]
  end.
  - left. eapply keeps_trans; [|exact K]. split_ifs; solve [eauto 30 with keeps].
  - right. rewrite A, E, D1, D2, N, R. clear - Hk.
    split_ifs; (split; [reflexivity|]); eexists _, k; kind_shape; repeat split; auto.
Qed.

Lemma dp_register_cases code i :
  let r := decode_dp_register code i in
  keeps i r \/
  (addr r = addr i /\
   exists g k, (k = "CMN (shifted register)" \/ k = "CMP (shifted register)") /\
     kind r = kind i ++ ["Data Processing -- Register"; g; k] /\ Rd r = -1 /\ Rd2 r = Rd2 i /\
     numSourceRegisters r = 2 /\
     Rs r = <[1%nat := bits code 20 16]> (<[0%nat := bits code 9 5]> (Rs i))).
Proof.
  unfold decode_dp_register. cbv zeta.
  destruct (bits code 28 28 =? 0).
  - destruct (Z.land (bits code 24 21) 8 =? 0); [left; solve [eauto 30 with keeps]|].
    destruct (Z.land (bits code 24 21) 1 =? 0).
    + match goal with |- context [decode_addsub_shifted ?a ?b ?c ?j] =>
        destruct (addsub_shifted_cases a b c j)
          as [K | (A & g & k & Hk & E & D1 & D2 & N & R)]
      end.
      * left. eapply keeps_trans; [|exact K]. solve [eauto 30 with keeps].
      * right. split; [exact A|]. exists g, k. rewrite E, D1, D2, N, R.
        kind_shape. repeat split; auto.
    + match goal with |- context [decode_addsub_extended ?a ?b ?c ?j] =>
        destruct (addsub_extended_cases a b c j)
          as [K | (A & g & k & Hk & E & D1 & D2 & N & R)]
      end.
      * left. eapply keeps_trans; [|exact K]. solve [eauto 30 with keeps].
      * right. split; [exact A|]. exists g, k. rewrite E, D1, D2, N, R.
        kind_shape. repeat split; auto.
  - left. split_ifs; solve [eauto 30 with keeps].
Qed.

Lemma addsub_imm_cases code sf op S op1 i :
  let r := decode_addsub_imm code sf op S op1 i in
  addr r = addr i /\
  exists k, kind r = kind i ++ [addSubImm; k] /\ Rd2 r = Rd2 i /\
    numSourceRegisters r = numSourceRegisters i /\ Rs r = Rs i /\
    (is_name cmp_names k = true -> Rd r = -1) /\
    let off := s64 (Z.shiftl (ZeroExtend (bits code 21 10) 12) (12 * op1)) in
    if op =? 0 then imm r = Some off /\ is_name sub_imm_names k = false
    else imm r = Some (s64 (- off)).
Proof.
  unfold decode_addsub_imm. split_ifs;
    (split; [reflexivity|]); eexists; kind_shape; repeat split;
    first [reflexivity | intros Hn; vm_compute in Hn; discriminate Hn].
Qed.

Lemma addsub_imm_group_cases code sf op1 i :
  0 <= op1 < 4 ->
  let r := decode_addsub_imm_group code sf op1 i in
  keeps i r \/
  (addr r = addr i /\ 0 <= op1 <= 1 /\
   exists k, kind r = kind i ++ [addSubImm; k] /\ Rd2 r = Rd2 i /\
     numSourceRegisters r = 1 /\ Rs r = <[0%nat := bits code 9 5]> (Rs i) /\
     (is_name cmp_names k = true -> Rd r = -1) /\
     let off := s64 (Z.shiftl (ZeroExtend (bits code 21 10) 12) (12 * op1)) in
     if bits code 30 30 =? 0 then imm r = Some off /\ is_name sub_imm_names k = false
     else imm r = Some (s64 (- off))).
Proof.
  intros Hop1. unfold decode_addsub_imm_group. cbv zeta.
  destruct (Z.lor op1 1 =? 3) eqn:Etag.
  - left. split_ifs; solve [eauto 30 with keeps].
  - right.
    assert (Hsh : 0 <= op1 <= 1).
    { assert (op1 = 0 \/ op1 = 1 \/ op1 = 2 \/ op1 = 3) as [-> | [-> | [-> | ->]]] by lia;
        first [lia | discriminate Etag]. }
    match goal with |- context [decode_addsub_imm ?a ?b ?c ?d ?e ?j] =>
      destruct (addsub_imm_cases a b c d e j) as (A & k & E & D2 & N & R & C & I)
    end.
    split; [exact A|]. split; [exact Hsh|].
    exists k. rewrite E, D2, N, R. kind_shape. do 4 (split; [reflexivity|]).
    split; [exact C|exact I].
Qed.

Lemma dp_immediate_cases code pc i :
  let r := decode_dp_immediate code pc i in
  keeps i r \/
  (addr r = addr i /\ 0 <= bits code 23 22 <= 1 /\
   exists k, kind r = kind i ++ ["Data Processing -- Immediate"; addSubImm; k] /\
     Rd2 r = Rd2 i /\
     numSourceRegisters r = 1 /\ Rs r = <[0%nat := bits code 9 5]> (Rs i) /\
     (is_name cmp_names k = true -> Rd r = -1) /\
     let off := s64 (Z.shiftl (ZeroExtend (bits code 21 10) 12) (12 * bits code 23 22)) in
     if bits code 30 30 =? 0 then imm r = Some off /\ is_name sub_imm_names k = false
     else imm r = Some (s64 (- off))).
Proof.
  unfold decode_dp_immediate. cbv zeta.
  destruct (bits code 25 24 =? 0); [left; solve [eauto 30 with keeps]|].
  destruct (bits code 25 24 =? 1).
  - match goal with |- context [decode_addsub_imm_group ?a ?b ?c ?j] =>
      destruct (addsub_imm_group_cases a b c j)
        as [K | (A & Hsh & k & E & D2 & N & R & C & I)]
    end.
    + apply (bits_range code 23 22). lia.
    + left. eapply keeps_trans; [|exact K]. solve [eauto 30 with keeps].
    + right. split; [exact A|]. split; [exact Hsh|].
      exists k. rewrite E, D2, N, R. kind_shape.
      do 4 (split; [reflexivity|]). split; [exact C|exact I].
  - left. split_ifs; solve [eauto 30 with keeps].
Qed.

(** The last statements of the constructor touch [parsed] and [valid] only. *)
Lemma finish_fields (r : Instruction) :
  addr (finish r) = addr r /\ kind (finish r) = kind r /\
  Rd (finish r) = Rd r /\ Rd2 (finish r) = Rd2 r /\
  numSourceRegisters (finish r) = numSourceRegisters r /\ Rs (finish r) = Rs r /\
  imm (finish r) = imm r.
Proof. unfold finish. split_ifs; repeat split; reflexivity. Qed.

Lemma addsub_offset_range (code : Z) :
  0 <= bits code 23 22 <= 1 -> 0 <= addsub_imm_offset code < 2 ^ 24.
Proof.
  intros Hsh. unfold addsub_imm_offset.
  pose proof (bits_range code 21 10 ltac:(lia)) as Hi.
  replace (21 - 10 + 1) with 12 in Hi by lia.
  rewrite Z.shiftl_mul_pow2 by lia.
  assert (bits code 23 22 = 0 \/ bits code 23 22 = 1) as [-> | ->] by lia.
  - change (2 ^ (12 * 0)) with 1. lia.
  - change (2 ^ (12 * 1)) with (2 ^ 12). change (2 ^ 24) with (2 ^ 12 * 2 ^ 12). nia.
Qed.

Lemma addsub_offset_stored (code : Z) :
  0 <= bits code 23 22 <= 1 ->
  s64 (Z.shiftl (ZeroExtend (bits code 21 10) 12) (12 * bits code 23 22))
    = addsub_imm_offset code /\
  s64 (- addsub_imm_offset code) = - addsub_imm_offset code.
Proof.
  intros Hsh. pose proof (addsub_offset_range code Hsh) as Hr.
  assert (HZ : ZeroExtend (bits code 21 10) 12 = bits code 21 10).
  { unfold ZeroExtend. rewrite Z.land_ones by lia.
    apply Z.mod_small. apply (bits_range code 21 10). lia. }
  rewrite HZ. fold (addsub_imm_offset code).
  assert (2 ^ 24 < 2 ^ 63) by (apply Z.pow_lt_mono_r; lia).
  split; apply s64_small; lia.
Qed.

(** Every decoded record is of one of three shapes. *)
Lemma decode_cases code pc a :
  let r := decode code pc (new_Instruction a) in
  addr r = a /\
  (all_plain r = true \/ cmp_register_shape code r \/ addsub_imm_shape code r).
Proof.
  intros r. subst r. unfold decode. cbv zeta.
  match goal with |- context [finish ?x] => set (r0 := x) end.
  assert (Hplain : forall j, keeps (new_Instruction a) j ->
            addr j = a /\
            (all_plain j = true \/ cmp_register_shape code j \/ addsub_imm_shape code j)).
  { intros j [A P]. split; [exact A | left; now apply P]. }
  assert (Hr0 : addr r0 = a /\
            (all_plain r0 = true \/ cmp_register_shape code r0 \/ addsub_imm_shape code r0)).
  { subst r0. split_ifs.
    - split; [reflexivity | left; reflexivity].
    - destruct (dp_register_cases code (new_Instruction a))
        as [K | (A & g & k & Hk & E & D1 & D2 & N & R)].
      + exact (Hplain _ K).
      + split; [exact A|]. right; left. exists g, k.
        unfold sources. rewrite E, D1, D2, N, R. repeat split; auto.
    - apply Hplain. eauto 30 with keeps.
    - destruct (dp_immediate_cases code pc (new_Instruction a))
        as [K | (A & Hsh & k & E & D2 & N & R & C & I)].
      + exact (Hplain _ K).
      + split; [exact A|]. right; right. exists k.
        unfold sources. rewrite E, D2, N, R.
        destruct (addsub_offset_stored code Hsh) as [O1 O2].
        cbv zeta in I. rewrite O1, O2 in I.
        do 3 (split; [reflexivity|]). split; [exact C | exact I].
    - apply Hplain. eauto 30 with keeps.
    - apply Hplain. eauto 30 with keeps.
    - apply Hplain. eauto 30 with keeps. }
  clearbody r0. clear Hplain.
  destruct (finish_fields r0) as (FA & FK & FD & FD2 & FN & FR & FI).
  destruct Hr0 as [A [P | [(g & k & Hk & E & D1 & D2 & S) | (k & E & D2 & S & C & I)]]].
  - split; [congruence|]. left. unfold all_plain. now rewrite FK.
  - split; [congruence|]. right; left. exists g, k.
    unfold sources in *. rewrite FK, FD, FD2, FN, FR.
    exact (conj Hk (conj E (conj D1 (conj D2 S)))).
  - split; [congruence|]. right; right. exists k.
    unfold sources in *. rewrite FK, FD2, FN, FR, FI, FD.
    exact (conj E (conj D2 (conj S (conj C I)))).
Qed.

(** ** Facts about the constructor *)

Lemma Instruction_ctor_addr (env : Env) (a : Z) : addr (Instruction_ctor env a) = a.
Proof.
  unfold Instruction_ctor. cbv zeta.
  destruct (getBase env (s64 a) =? 0); [reflexivity|].
  apply decode_cases.
Qed.

Lemma is_name_In (names : list string) (k : string) :
  In k names -> is_name names k = true.
Proof.
  intros H. unfold is_name. apply existsb_exists.
  exists k. split; [exact H | apply String.eqb_refl].
Qed.

Lemma all_plain_lookup (r : Instruction) (n : nat) (k : string) :
  all_plain r = true -> kind r !! n = Some k -> plain k = true.
Proof.
  unfold all_plain. intros H Hk. rewrite forallb_forall in H.
  apply H. apply list_elem_of_In. eapply list_elem_of_lookup_2. exact Hk.
Qed.

(** A record with a third [kind] entry comes out of [decode]. *)
Lemma Instruction_ctor_decoded (env : Env) (a : Z) (k : string) :
  kind (Instruction_ctor env a) !! 2%nat = Some k ->
  Instruction_ctor env a = decode (mem env a) (s64 a) (new_Instruction a).
Proof.
  unfold Instruction_ctor. cbv zeta.
  destruct (getBase env (s64 a) =? 0); [discriminate | reflexivity].
Qed.

(** ** C5: the label of a compare-and-branch *)

(** Whatever the code word and the address, the compare-and-branch path
    stores the shifted offset alone. *)
Lemma decode_compbranch_label (code pc : Z) (i : Instruction) :
  label (decode_compbranch code pc i) =
  Some (u64 (Z.shiftl (SignExtend (bits code 23 5) 19) 2)).
Proof. unfold decode_compbranch. destruct (bits code 24 24 =? 0); reflexivity. Qed.

(** C5. The label of a compare-and-branch should be the instruction's own
    address plus the sign-extended, shifted 19-bit immediate, as it is for
    B.cond and TBZ.  At [CBZ X0, #+8] placed at [0x1000] the constructor
    stores [8], the offset without the address, where the specification asks for
    [0x1008]; the same offset in B.cond and in TBZ at the same address gives
    [0x1008]. *)
Theorem compbranch_label_lacks_pc :
  let cbz := Instruction_ctor (Samples.image [Samples.cbz_x0_8]) 0x1000 in
  let bcond := Instruction_ctor (Samples.image [Samples.beq_8]) 0x1000 in
  let tbz := Instruction_ctor (Samples.image [Samples.tbz_w0_0_8]) 0x1000 in
  kind cbz = ["Branches, Exception Generating and System instructions";
              "Compare and branch (immediate)"; "CBZ — 64-bit"] /\
  0x1000 + Z.shiftl (SignExtend (bits Samples.cbz_x0_8 23 5) 19) 2 = 0x1008 /\
  label cbz = Some 8 /\
  label cbz <> Some 0x1008 /\
  label bcond = Some 0x1008 /\
  label tbz = Some 0x1008.
Proof. vm_compute. repeat split; congruence. Qed.

(** ** C7: resolving a PC-relative pair *)

(** C7. For a PC-relative first instruction with a computed result and a
    second instruction with an immediate, [ExtractAddress] is the result plus
    the immediate; without an immediate it is 0, the no-result value.  The
    pair [ADRP X0, #0] at [0x1000] and [ADD X0, X0, #0x20] resolves to
    [0x1020]. *)
Theorem ExtractAddress_resolves (adr add : Instruction) (r : Z) :
  isPcRelAdr adr = true -> result adr = Some r ->
  (forall off, imm add = Some off -> - 2 ^ 63 <= r + off < 2 ^ 63 ->
     ExtractAddress adr add = r + off) /\
  (imm add = None -> ExtractAddress adr add = 0) /\
  ExtractAddressFixed (Samples.image Samples.adrp_add) 0x1000 0 1 = 0x1020.
Proof.
  intros _ Hr. unfold ExtractAddress, result_value. rewrite Hr. cbn [default].
  split; [|split].
  - intros off -> Hin. now apply s64_small.
  - now intros ->.
  - vm_compute. reflexivity.
Qed.

Lemma ExtractAddress_resolves_witness :
  let adr := Instruction_ctor (Samples.image Samples.adrp_add) 0x1000 in
  let add := Instruction_ctor (Samples.image Samples.adrp_add) 0x1004 in
  isPcRelAdr adr = true /\ result adr = Some 0x1000 /\
  imm add = Some 0x20 /\ ExtractAddress adr add = 0x1000 + 0x20.
Proof.
  assert (H1 : isPcRelAdr (Instruction_ctor (Samples.image Samples.adrp_add) 0x1000) = true)
    by (vm_compute; reflexivity).
  assert (H2 : result (Instruction_ctor (Samples.image Samples.adrp_add) 0x1000) = Some 0x1000)
    by (vm_compute; reflexivity).
  assert (H3 : imm (Instruction_ctor (Samples.image Samples.adrp_add) 0x1004) = Some 0x20)
    by (vm_compute; reflexivity).
  split; [exact H1 | split; [exact H2 | split; [exact H3 |]]].
  apply (proj1 (ExtractAddress_resolves _
                  (Instruction_ctor (Samples.image Samples.adrp_add) 0x1004) _ H1 H2)
               _ H3).
  vm_compute. split; congruence.
Defined.


(** ** C6: evaluating a switch table *)

(** C6. For a table at [tableBase] and a case index of at least 1, both
    switch evaluators give [tableBase] plus the sign extension from 32 bits
    of the entry at [tableBase[caseIndex - 1]], as a 64-bit address:
    [EvalSwitch] decodes at that address and [evalswitch] returns it.  With
    a first entry of [-8], case 1 gives [tableBase - 8]. *)
Theorem EvalSwitch_target_spec (env : Env) (tableBase caseIndex : Z) :
  1 <= caseIndex -> 0 <= tableBase < 2 ^ 64 ->
  let entry := SignExtend (mem env (tableBase + 4 * (caseIndex - 1))) 32 in
  addr (EvalSwitch env tableBase caseIndex) = u64 (tableBase + entry) /\
  cs.evalswitch_at (mem env) tableBase caseIndex = u64 (tableBase + entry) /\
  (0 <= tableBase + entry < 2 ^ 64 ->
     addr (EvalSwitch env tableBase caseIndex) = tableBase + entry /\
     cs.evalswitch_at (mem env) tableBase caseIndex = tableBase + entry) /\
  (caseIndex = 1 -> u32 (mem env tableBase) = u32 (-8) -> 8 <= tableBase ->
     addr (EvalSwitch env tableBase caseIndex) = tableBase - 8 /\
     cs.evalswitch_at (mem env) tableBase caseIndex = tableBase - 8).
Proof.
  intros Hc Ht entry.
  assert (H1 : addr (EvalSwitch env tableBase caseIndex) = u64 (tableBase + entry)).
  { unfold EvalSwitch, EvalSwitch_target. rewrite Instruction_ctor_addr.
    fold entry. now rewrite u64_s64, u64_add_s64_l. }
  assert (H2 : cs.evalswitch_at (mem env) tableBase caseIndex = u64 (tableBase + entry))
    by reflexivity.
  split; [exact H1|]. split; [exact H2|]. split.
  - intros Hr. rewrite H1, H2, u64_small by exact Hr. now split.
  - intros -> Hm Hge. rewrite H1, H2.
    assert (He : entry = -8).
    { subst entry. replace (tableBase + 4 * (1 - 1)) with tableBase by lia.
      rewrite <- SignExtend_u32, Hm. reflexivity. }
    rewrite He. replace (tableBase + -8) with (tableBase - 8) by lia.
    rewrite u64_small by lia. now split.
Qed.

Lemma EvalSwitch_target_spec_witness :
  addr (EvalSwitch Samples.table_env 0x2000 1) = 0x2000 - 8 /\
  cs.evalswitch_at (mem Samples.table_env) 0x2000 1 = 0x2000 - 8.
Proof.
  apply (proj2 (proj2 (proj2
           (EvalSwitch_target_spec Samples.table_env 0x2000 1
              ltac:(lia) ltac:(lia))))).
  - reflexivity.
  - reflexivity.
  - lia.
Defined.

(** ** C8: CMP and CMN have no destination *)



(** ** C9: the record depends on the word and the address only *)



(** ** C10: subtracting forms store the negated immediate *)

(** C10. Whenever the constructor names a word SUB, SUBS or CMP (immediate),
    the stored immediate is the negation of the zero-extended 12-bit
    immediate shifted left by 12 times the shift field; the record has an
    immediate offset on its Rn register, and [ExtractAddress], which adds the
    stored immediate, subtracts that offset from the address it is given. *)
Theorem sub_immediate_negated (env : Env) (a : Z) (k : string) :
  let r := Instruction_ctor env a in
  let code := mem env a in
  let offset := Z.shiftl (ZeroExtend (bits code 21 10) 12) (12 * bits code 23 22) in
  kind r !! 2%nat = Some k -> In k sub_imm_names ->
  imm r = Some (- offset) /\
  hasImmOffsetOnReg (bits code 9 5) r = true /\
  forall adr, ExtractAddress adr r = s64 (result_value adr - offset).
Proof.
  intros r code offset Hk Hin. subst r code offset.
  pose proof (Instruction_ctor_decoded _ _ _ Hk) as Hd. rewrite Hd in *. clear Hd.
  set (code := mem env a) in *.
  assert (HZ : ZeroExtend (bits code 21 10) 12 = bits code 21 10).
  { unfold ZeroExtend. rewrite Z.land_ones by lia.
    apply Z.mod_small. apply (bits_range code 21 10). lia. }
  rewrite HZ. fold (addsub_imm_offset code). clear HZ.
  pose proof (decode_cases code (s64 a) a) as Hc. cbv zeta in Hc.
  generalize dependent (decode code (s64 a) (new_Instruction a)).
  intros r Hk [_ [P | [(g & k' & Hk' & E & D1 & D2 & S) | (k' & E & D2 & S & C & I)]]].
  - pose proof (all_plain_lookup _ _ _ P Hk) as Hp.
    apply is_name_In in Hin.
    unfold plain in Hp. rewrite Hin, andb_false_r in Hp. discriminate Hp.
  - rewrite E in Hk. injection Hk as <-.
    exfalso. clear - Hk' Hin.
    destruct Hk' as [-> | ->]; simpl in Hin; intuition discriminate.
  - rewrite E in Hk. injection Hk as <-.
    apply is_name_In in Hin.
    destruct (bits code 30 30 =? 0).
    { destruct I as [_ I]. rewrite Hin in I. discriminate I. }
    assert (Himm : hasImmOffsetOnReg (bits code 9 5) r = true).
    { unfold hasImmOffsetOnReg, isStore, isLoadOrStore, isAddOrSubImm.
      fold (sources r). rewrite I, S, E.
      cbn [lookup list_lookup existsb]. rewrite Z.eqb_refl. reflexivity. }
    split; [exact I|]. split; [exact Himm|].
    intros adr. unfold ExtractAddress. rewrite I. reflexivity.
Qed.

Lemma sub_immediate_negated_witness :
  let env := Samples.image [Samples.sub_x0_x0_16] in
  let r := Instruction_ctor env 0x1000 in
  let code := mem env 0x1000 in
  let offset := Z.shiftl (ZeroExtend (bits code 21 10) 12) (12 * bits code 23 22) in
  imm r = Some (- offset) /\
  hasImmOffsetOnReg (bits code 9 5) r = true /\
  forall adr, ExtractAddress adr r = s64 (result_value adr - offset).
Proof.
  intros env.
  apply (sub_immediate_negated env 0x1000 "SUB (immediate) — 64-bit").
  - vm_compute. reflexivity.
  - simpl. tauto.
Defined.

(** ** C2: the dependency update *)

Lemma gather_deps_elem (srcs : list Z) (depMap : list (gset nat)) (acc out : gset nat) :
  gather_deps srcs depMap acc = Some out ->
  forall x, x ∈ out <-> x ∈ acc \/ exists s, s ∈ srcs /\ x ∈ depMap !!! Z.to_nat s.
Proof.
  revert acc. induction srcs as [|s rest IH]; intros acc H x; cbn in H.
  - injection H as <-. split; [auto|]. intros [Hx | (s & Hs & _)]; [exact Hx|].
    inversion Hs.
  - destruct ((s <? 0) || (max_size <=? s)); [discriminate|].
    rewrite (IH _ H x), elem_of_union. split.
    + intros [[Hx | Hx] | (s' & Hs' & Hx)]; [auto | right | right].
      * exists s. split; [left | exact Hx].
      * exists s'. split; [now right | exact Hx].
    + intros [Hx | (s' & Hs' & Hx)]; [auto|].
      apply elem_of_cons in Hs' as [-> | Hs']; [auto|].
      right. exists s'. auto.
Qed.

Lemma gather_deps_union (srcs : list Z) (depMap : list (gset nat)) (out : gset nat) :
  gather_deps srcs depMap ∅ = Some out ->
  forall x, x ∈ out <-> exists s, s ∈ srcs /\ x ∈ depMap !!! Z.to_nat s.
Proof.
  intros H x. rewrite (gather_deps_elem _ _ _ _ H x). split.
  - intros [Hx | Hx]; [|exact Hx]. now apply not_elem_of_empty in Hx.
  - intros Hx. now right.
Qed.

Lemma gather_deps_in_range (srcs : list Z) (depMap : list (gset nat)) (acc out : gset nat) :
  gather_deps srcs depMap acc = Some out ->
  forall s, s ∈ srcs -> 0 <= s < max_size.
Proof.
  revert acc. induction srcs as [|s0 rest IH]; intros acc H s Hs; cbn in H.
  - inversion Hs.
  - destruct ((s0 <? 0) || (max_size <=? s0)) eqn:E; [discriminate|].
    apply orb_false_iff in E as [E1 E2].
    apply elem_of_cons in Hs as [-> | Hs]; [lia | eauto].
Qed.

Lemma gather_deps_total (srcs : list Z) (depMap : list (gset nat)) (acc : gset nat) :
  (forall s, s ∈ srcs -> 0 <= s < max_size) ->
  is_Some (gather_deps srcs depMap acc).
Proof.
  revert acc. induction srcs as [|s rest IH]; intros acc H; cbn.
  - eauto.
  - assert (0 <= s < max_size) as Hs by (apply H; left).
    destruct ((s <? 0) || (max_size <=? s)) eqn:E.
    + apply orb_true_iff in E as [E | E]; lia.
    + apply IH. intros s' Hs'. apply H. now right.
Qed.

(** The same sources gathered from a map in which one entry was replaced by
    what they gather: nothing new comes in. *)
Lemma gather_deps_after_update (srcs : list Z) (depMap : list (gset nat))
    (d : nat) (new out : gset nat) :
  gather_deps srcs depMap ∅ = Some new ->
  gather_deps srcs (<[d := new]> depMap) ∅ = Some out ->
  out = new.
Proof.
  intros H1 H2. apply set_eq. intros x.
  rewrite (gather_deps_union _ _ _ H1 x), (gather_deps_union _ _ _ H2 x).
  split; intros (s & Hs & Hx).
  - destruct (decide (d = Z.to_nat s)) as [-> | Hne].
    + destruct (decide (Z.to_nat s < length depMap)%nat) as [Hlt | Hge].
      * rewrite list_lookup_total_insert_eq in Hx by exact Hlt.
        now apply (gather_deps_union _ _ _ H1 x).
      * rewrite list_insert_ge in Hx by lia. eauto.
    + rewrite list_lookup_total_insert_ne in Hx by exact Hne. eauto.
  - destruct (decide (d = Z.to_nat s)) as [-> | Hne].
    + destruct (decide (Z.to_nat s < length depMap)%nat) as [Hlt | Hge].
      * exists s. split; [exact Hs|].
        rewrite list_lookup_total_insert_eq by exact Hlt.
        apply (gather_deps_union _ _ _ H1 x). eauto.
      * exists s. rewrite list_insert_ge by lia. auto.
    + exists s. rewrite list_lookup_total_insert_ne by exact Hne. auto.
Qed.

(** C2, as the code has it.  When the dependency update returns, every
    destination register of the instruction ([Rd], and [Rd2] when there is
    one) ends with the union of the sets its source registers had before, and
    every other register keeps its set; with no source register that union
    is empty, so the destination ends with the empty set.  The update returns
    whenever the source registers are register numbers. *)
Theorem ProcessRegisterDependencies_union (i : Instruction)
    (depMap depMap' : list (gset nat)) :
  length depMap = 32%nat ->
  ProcessRegisterDependencies i depMap = Some depMap' ->
  (forall D, (D = Rd i \/ D = Rd2 i) -> 0 <= D < 32 ->
     forall x, x ∈ depMap' !!! Z.to_nat D <->
               exists s, s ∈ sources i /\ x ∈ depMap !!! Z.to_nat s) /\
  (forall D, (D = Rd i \/ D = Rd2 i) -> 0 <= D < 32 ->
     sources i = [] -> depMap' !!! Z.to_nat D = ∅) /\
  (forall r, (r < 32)%nat -> Z.of_nat r <> Rd i -> Z.of_nat r <> Rd2 i ->
     depMap' !!! r = depMap !!! r) /\
  ((forall s, s ∈ sources i -> 0 <= s < max_size) ->
   forall m, is_Some (ProcessRegisterDependencies i m)).
Proof.
  intros Hlen H.
  assert (Hunion : forall D, (D = Rd i \/ D = Rd2 i) -> 0 <= D < 32 ->
     forall x, x ∈ depMap' !!! Z.to_nat D <->
               exists s, s ∈ sources i /\ x ∈ depMap !!! Z.to_nat s).
  { unfold ProcessRegisterDependencies, ProcessRegisterDependencies_for in H.
    intros D HD Hr x.
    destruct (0 <=? Rd i) eqn:E1; destruct (0 <=? Rd2 i) eqn:E2; cbn in H.
    - destruct (gather_deps (sources i) depMap ∅) as [new|] eqn:G1; [|discriminate].
      cbn in H.
      destruct (gather_deps (sources i) (<[Z.to_nat (Rd i):=new]> depMap) ∅)
        as [out|] eqn:G2; [|discriminate].
      cbn in H. injection H as <-.
      pose proof (gather_deps_after_update _ _ _ _ _ G1 G2) as ->.
      rewrite <- (gather_deps_union _ _ _ G1 x).
      destruct (decide (Z.to_nat D = Z.to_nat (Rd2 i))) as [Heq | Hne].
      + rewrite Heq. rewrite list_lookup_total_insert_eq; [reflexivity|].
        rewrite length_insert. lia.
      + rewrite list_lookup_total_insert_ne by auto.
        assert (D = Rd i) as -> by (destruct HD; [assumption | lia]).
        rewrite list_lookup_total_insert_eq by lia. reflexivity.
    - destruct (gather_deps (sources i) depMap ∅) as [new|] eqn:G1; [|discriminate].
      cbn in H. injection H as <-.
      assert (D = Rd i) as -> by (destruct HD; [assumption | lia]).
      rewrite list_lookup_total_insert_eq by lia.
      apply (gather_deps_union _ _ _ G1 x).
    - destruct (gather_deps (sources i) depMap ∅) as [new|] eqn:G1; [|discriminate].
      cbn in H. injection H as <-.
      assert (D = Rd2 i) as -> by (destruct HD; [lia | assumption]).
      rewrite list_lookup_total_insert_eq by lia.
      apply (gather_deps_union _ _ _ G1 x).
    - exfalso. destruct HD; lia. }
  split; [exact Hunion|]. split; [|split].
  - intros D HD Hr Hsrc. apply set_eq. intros x.
    rewrite (Hunion D HD Hr x), Hsrc. split.
    + intros (s & Hs & _). inversion Hs.
    + intros Hx. now apply not_elem_of_empty in Hx.
  - intros r Hr H1 H2.
    unfold ProcessRegisterDependencies, ProcessRegisterDependencies_for in H.
    destruct (0 <=? Rd i) eqn:E1; destruct (0 <=? Rd2 i) eqn:E2; cbn in H.
    + destruct (gather_deps (sources i) depMap ∅) as [new|]; [|discriminate].
      cbn in H.
      destruct (gather_deps (sources i) _ ∅) as [out|]; [|discriminate].
      cbn in H. injection H as <-.
      rewrite !list_lookup_total_insert_ne by lia. reflexivity.
    + destruct (gather_deps (sources i) depMap ∅) as [new|]; [|discriminate].
      cbn in H. injection H as <-.
      rewrite list_lookup_total_insert_ne by lia. reflexivity.
    + destruct (gather_deps (sources i) depMap ∅) as [new|]; [|discriminate].
      cbn in H. injection H as <-.
      rewrite list_lookup_total_insert_ne by lia. reflexivity.
    + now injection H as <-.
  - intros Hsrc m.
    unfold ProcessRegisterDependencies, ProcessRegisterDependencies_for.
    destruct (0 <=? Rd i); destruct (0 <=? Rd2 i); cbn.
    + destruct (gather_deps_total (sources i) m ∅ Hsrc) as [new ->]. cbn.
      destruct (gather_deps_total (sources i) (<[Z.to_nat (Rd i):=new]> m) ∅ Hsrc)
        as [out ->]. cbn. eauto.
    + destruct (gather_deps_total (sources i) m ∅ Hsrc) as [new ->]. cbn. eauto.
    + destruct (gather_deps_total (sources i) m ∅ Hsrc) as [new ->]. cbn. eauto.
    + eauto.
Qed.

Lemma ProcessRegisterDependencies_union_witness :
  let i := Instruction_ctor (Samples.image [Samples.ldp_x29_x30]) 0x1000 in
  exists depMap',
    ProcessRegisterDependencies i initial_depMap = Some depMap' /\
    forall x, x ∈ depMap' !!! Z.to_nat 30 <->
              exists s, s ∈ sources i /\ x ∈ initial_depMap !!! Z.to_nat s.
Proof.
  intros i. eexists. split.
  - vm_compute. reflexivity.
  - apply (proj1 (ProcessRegisterDependencies_union i initial_depMap _ eq_refl
                    ltac:(vm_compute; reflexivity))).
    + right. vm_compute. reflexivity.
    + lia.
Defined.

(** C2, as the specification words its second half: a destination of an instruction
    without source registers would end with the singleton of itself.  For
    [ADRP X0, #0] the update leaves register 0 with the empty set. *)
Lemma zero_sources_destination_not_self :
  let i := Instruction_ctor (Samples.image Samples.adrp_add) 0x1000 in
  parsed i = true /\ valid i = true /\ sources i = [] /\ Rd i = 0 /\
  exists depMap',
    ProcessRegisterDependencies i initial_depMap = Some depMap' /\
    depMap' !!! 0%nat = (∅ : gset nat) /\
    depMap' !!! 0%nat <> ({[ 0%nat ]} : gset nat).
Proof.
  intros i. do 4 (split; [vm_compute; reflexivity|]).
  exists (<[0%nat := ∅]> initial_depMap).
  split; [vm_compute; reflexivity|].
  split; [reflexivity|].
  intros H.
  assert (Hin : 0%nat ∈ (<[0%nat := ∅]> initial_depMap !!! 0%nat : gset nat))
    by (rewrite H; now apply elem_of_singleton).
  exact (not_elem_of_empty (C := gset nat) 0%nat Hin).
Qed.

(** ** C3: memoization of the traversal *)

(** A second request for an address returns the recorded node and changes
    nothing. *)
Lemma FindOrCreateInstruction_hit (env : Env) (pc : Z) (s : ParseState) (n : nat) :
  codeToInstTree s !! pc = Some n ->
  FindOrCreateInstruction env pc s = (n, s).
Proof. intros H. unfold FindOrCreateInstruction. now rewrite H. Qed.

(** A first request decodes the word, pushes the new node with a copy of the
    current dependency map and records it. *)
Lemma FindOrCreateInstruction_miss (env : Env) (pc : Z) (s : ParseState) :
  codeToInstTree s !! pc = None ->
  let n := length (nodes s) in
  let s' := (FindOrCreateInstruction env pc s).2 in
  (FindOrCreateInstruction env pc s).1 = n /\
  nodes s' = nodes s ++ [mkTree (Instruction_ctor env pc) None None] /\
  frontier s' = (n, dependencyMap s) :: frontier s /\
  codeToInstTree s' = <[pc := n]> (codeToInstTree s) /\
  dependencyMap s' = dependencyMap s /\
  expanded s' = expanded s.
Proof.
  intros H. unfold FindOrCreateInstruction. rewrite H. cbn. repeat split.
Qed.

(** C3.  Every address should be decoded and expanded at most once in a run.
    The constructor of [AssemblyFunction] builds the root node without
    recording it in the memo, so a function whose first instruction is
    reached again is decoded and expanded a second time: for the one-word
    function [B .] at [0x1000] the run ends with two nodes for [0x1000], both
    expanded. *)
Theorem entry_address_expanded_twice :
  exists s,
    AssemblyFunction (Samples.image Samples.b_self) 4 0x1000 = Finished s /\
    times_decoded 0x1000 s = 2%nat /\
    times_expanded 0x1000 s = 2%nat /\
    expanded s = [0x1000; 0x1000] /\
    codeToInstTree s !! 0x1000 = Some 1%nat.
Proof.
  eexists. split; [vm_compute; reflexivity|].
  repeat split; vm_compute; reflexivity.
Qed.

(** The same in a loop that returns to the entry of the function: the entry
    is expanded twice, the word after it once. *)
Example loop_entry_expanded_twice :
  exists s,
    AssemblyFunction (Samples.image Samples.loop_to_entry) 6 0x1000 = Finished s /\
    expanded s = [0x1000; 0x1004; 0x1000] /\
    times_decoded 0x1000 s = 2%nat /\ times_decoded 0x1004 s = 1%nat.
Proof.
  eexists. split; [vm_compute; reflexivity|].
  repeat split; vm_compute; reflexivity.
Qed.

(** ** C4: the pattern scan *)

Section findNth_properties.
Import cs.
Variable disasm : Z -> option cs_insn.
Context {V : Type}.
Variables (nToRetOn retCount szBytes addr : Z).
Variable match_ : cs_insn -> option V.
Variable skip : cs_insn -> bool.

Local Abbreviation insn_at := (cs.insn_at disasm addr).
Local Abbreviation rets_before := (cs.rets_before disasm addr).
Local Abbreviation hits_before := (cs.hits_before disasm addr match_ skip).
Local Abbreviation loop :=
  (cs.findNth_loop disasm nToRetOn retCount szBytes addr match_ skip).
Local Abbreviation outcome_in :=
  (cs.scan_outcome disasm nToRetOn retCount szBytes addr match_ skip).

Lemma rets_before_S (k : nat) :
  rets_before (S k) = rets_before k + (if cs.is_ret (insn_at k) then 1 else 0).
Proof. reflexivity. Qed.

Lemma hits_before_S (k : nat) :
  hits_before (S k) =
  hits_before k + (if cs.is_hit match_ skip (insn_at k) then 1 else 0).
Proof. reflexivity. Qed.

Lemma scan_outcome_shift (k words : nat) (o : outcome V) :
  outcome_in (S k + words)%nat o -> outcome_in (k + S words)%nat o.
Proof. now replace (k + S words)%nat with (S k + words)%nat by lia. Qed.

Lemma findNth_loop_outcome (words k : nat) (rCount nCalls : Z) :
  rCount = retCount - rets_before k ->
  nCalls = nToRetOn - hits_before k ->
  1 <= nCalls ->
  outcome_in (k + words)%nat (loop words (addr + 4 * Z.of_nat k) rCount nCalls).
Proof.
  revert k rCount nCalls.
  induction words as [|words IH]; intros k rCount nCalls Hr Hn Hpos.
  - cbn. rewrite Nat.add_0_r. repeat split. lia.
  - assert (Hnext : addr + 4 * Z.of_nat k + 4 = addr + 4 * Z.of_nat (S k)) by lia.
    pose proof (rets_before_S k) as HR. pose proof (hits_before_S k) as HH.
    assert (Hat : insn_at k = disasm (addr + 4 * Z.of_nat k)) by reflexivity.
    rewrite Hat in HR, HH.
    cbn [cs.findNth_loop]. rewrite Hnext.
    destruct (disasm (addr + 4 * Z.of_nat k)) as [insn|] eqn:Ed;
      cbn [cs.is_ret cs.is_hit] in HR, HH.
    + destruct (decide (id insn = ARM64_INS_RET)) as [Eret | Eret].
      * rewrite (bool_decide_eq_true_2 _ Eret) in HR, HH |- *.
        cbn [negb andb] in HH.
        destruct (Z.eqb_spec rCount 0) as [E0 | E0].
        -- cbn. do 3 (split; [reflexivity|]). exists k, insn.
           split; [lia|]. split; [exact Hat|]. split; [exact Eret | lia].
        -- apply scan_outcome_shift, IH; lia.
      * rewrite (bool_decide_eq_false_2 _ Eret) in HR, HH |- *.
        cbn [negb andb] in HH.
        destruct (match_ insn) as [testRes|] eqn:Em.
        -- destruct (Z.eqb_spec nCalls 1) as [E1 | E1].
           ++ cbn. exists k, insn.
              split; [lia|]. split; [exact Hat|]. split; [exact Eret|].
              split; [exact Em | lia].
           ++ apply scan_outcome_shift, IH; lia.
        -- destruct (skip insn) eqn:Es.
           ++ destruct (Z.eqb_spec nCalls 1) as [E1 | E1].
              ** cbn. do 3 (split; [reflexivity|]). exists k, insn.
                 split; [lia|]. split; [exact Hat|]. split; [exact Eret|].
                 split; [exact Em|]. split; [exact Es|]. split; [lia | reflexivity].
              ** apply scan_outcome_shift, IH; lia.
           ++ apply scan_outcome_shift, IH; lia.
    + apply scan_outcome_shift, IH; lia.
Qed.


End findNth_properties.

(** The first BL of a two-word window: the scan steps over the first word and
    returns the target of the BL at the second. *)
Example findNth_first_bl :
  cs.findNth Samples.two_insns 1 (-1) 8 0x1000 cs.blConv (cs.insnMatch [])
    = cs.Returned 0x100C /\
  cs.findNth Samples.two_insns 2 (-1) 8 0x1000 cs.blConv (cs.insnMatch [])
    = cs.Aborted (cs.OutOfBytes 2 0x1000 (-1) 8).
Proof. split; vm_compute; reflexivity. Qed.


(* ===================================================================== *)
(** * 11. Further properties of the decoder *)
(* ===================================================================== *)

Lemma bits_reg_ok code hi lo : hi - lo + 1 = 5 -> reg_ok (bits code hi lo).
Proof.
  intros H. pose proof (bits_range code hi lo ltac:(lia)) as B.
  rewrite H in B. change (2 ^ 5) with 32 in B. exact B.
Qed.

Lemma bits_dest_ok code hi lo : hi - lo + 1 = 5 -> dest_ok (bits code hi lo).
Proof.
  intros H. pose proof (bits_reg_ok code hi lo H) as B.
  unfold reg_ok in B. unfold dest_ok. lia.
Qed.

(** The whole of one family of the decoder, case by case, from the fresh
    record. *)
Ltac unfold_family :=
  unfold decode_dp_register, decode_logical_shifted,
    decode_addsub_shifted, decode_addsub_extended, decode_addsub_reg_names,
    decode_condsel, decode_dp_3src, decode_dp_immediate, decode_pcrel,
    decode_addsub_imm_group, decode_addsub_imm, decode_logical_imm,
    decode_branches, decode_condbranch, decode_branch_reg, decode_branch_imm,
    decode_compbranch, decode_testbranch, decode_loads_stores,
    decode_ldst_register, decode_ldst_regoff, decode_ldst_immoff,
    decode_ldst_pair, sel.

Ltac family_cases :=
  unfold_family; cbv zeta;
  repeat (split_step;
          cbn [Rd Rs push_kind set_kind set_Rd set_Rs set_Rs_at
               set_RdRs0CanBeSP set_RdCanBeSP set_Rs0CanBeSP set_imm set_shiftType
               set_numSourceRegisters set_extendType set_cond set_result set_label
               set_branchType set_valid set_parsed set_wback set_postindex set_Rd2
               new_Instruction]).

#[local] Arguments bits : simpl never.
#[local] Arguments s64 : simpl never.
#[local] Arguments u64 : simpl never.
#[local] Arguments SignExtend : simpl never.
#[local] Arguments ZeroExtend : simpl never.
#[local] Arguments DecodeBitMasks : simpl never.
#[local] Arguments Z.shiftl : simpl never.
#[local] Arguments Z.shiftr : simpl never.
#[local] Arguments Z.lor : simpl never.
#[local] Arguments Z.land : simpl never.
#[local] Arguments Z.add : simpl never.
#[local] Arguments Z.mul : simpl never.
#[local] Arguments Z.opp : simpl never.
#[local] Arguments Z.eqb : simpl never.

Ltac built_leaf :=
  unfold built_ok, sources; cbn;
  repeat split; intros;
  try solve [ lia | discriminate | congruence | eauto
            | unfold dest_ok, RLINK; lia
            | apply bits_dest_ok; reflexivity
            | repeat constructor; apply bits_reg_ok; reflexivity
            | match goal with H : _ \/ _ |- _ => destruct H; discriminate end ].

Lemma dp_register_built code pc a :
  built_ok pc (decode_dp_register code (new_Instruction a)).
Proof. family_cases; built_leaf. Qed.

Lemma dp_immediate_built code pc a :
  built_ok pc (decode_dp_immediate code pc (new_Instruction a)).
Proof. family_cases; built_leaf. Qed.

Lemma branches_built code pc a :
  built_ok pc (decode_branches code pc (new_Instruction a)).
Proof. family_cases; built_leaf. Qed.

Lemma loads_stores_built code pc a :
  built_ok pc (decode_loads_stores code (new_Instruction a)).
Proof. family_cases; built_leaf. Qed.

Lemma isDirectBranch_true r :
  isDirectBranch r = true <-> branchType r = DIR \/ branchType r = DIRCALL.
Proof. unfold isDirectBranch. now rewrite orb_true_iff, !bool_decide_eq_true. Qed.

Lemma isCall_true r :
  isCall r = true <-> branchType r = DIRCALL \/ branchType r = INDCALL.
Proof. unfold isCall. now rewrite orb_true_iff, !bool_decide_eq_true. Qed.

Lemma isReturn_true r : isReturn r = true <-> branchType r = RET.
Proof. unfold isReturn. now rewrite bool_decide_eq_true. Qed.

(** The last statements of the constructor turn what was built into the
    finished record. *)
Lemma finish_decoded pc r0 : built_ok pc r0 -> decoded_ok pc (finish r0).
Proof.
  intros (B1 & B2 & B3 & B4 & B5 & B6 & B7 & B8 & B9).
  unfold decoded_ok. rewrite isDirectBranch_true, isCall_true, isReturn_true.
  unfold dest_ok in *. unfold finish, parseLevel, kind_size.
  destruct (Z.eqb_spec (Z.of_nat (length (kind r0))) 3) as [E | E]; cbn [negb].
  - assert (E' : length (kind r0) = 3%nat) by lia.
    cbv zeta. cbn [kind set_parsed]. rewrite E. change (Z.to_nat (3 - 1)) with 2%nat.
    destruct (decide (kind r0 !! 2%nat = Some unalloc)) as [U | U];
      unfold sources in *; cbn; repeat split; intros;
      first [lia | discriminate | intuition (auto; congruence)].
  - assert (E' : length (kind r0) <> 3%nat) by lia.
    rewrite B2. repeat split; intros; first [lia | discriminate | intuition (auto; congruence)].
Qed.

(** What the body of the constructor builds, whatever the word. *)
Lemma decode_decoded code pc a : decoded_ok pc (decode code pc (new_Instruction a)).
Proof.
  unfold decode. cbv zeta. apply finish_decoded.
  destruct (bits code 28 25 <=? 3); [built_leaf|].
  destruct (Z.land (bits code 28 25) 7 =? 5); [apply dp_register_built|].
  destruct (Z.land (bits code 28 25) 7 =? 7); [built_leaf|].
  destruct (Z.lor (bits code 28 25) 1 =? 9); [apply dp_immediate_built|].
  destruct (Z.lor (bits code 28 25) 1 =? 11); [apply branches_built|].
  destruct (Z.land (bits code 28 25) 5 =? 4); [apply loads_stores_built|].
  built_leaf.
Qed.

Lemma Instruction_ctor_decoded_ok env a :
  decoded_ok (s64 a) (Instruction_ctor env a).
Proof.
  unfold Instruction_ctor. cbv zeta.
  destruct (getBase env (s64 a) =? 0); [|apply decode_decoded].
  unfold decoded_ok, isDirectBranch, isCall, isReturn, dest_ok. cbn.
  rewrite !bool_decide_eq_false_2 by discriminate. cbn.
  repeat split; intros; try discriminate; try lia.
Qed.

(** X1. The constructor never writes a fourth level of [kind]; a record is
    [parsed] exactly when all three levels are filled, and a parsed record
    whose last level is [UNALLOCATED] is invalid. *)
Theorem kind_levels_fit (env : Env) (a : Z) :
  let r := Instruction_ctor env a in
  (length (kind r) <= 3)%nat /\
  (parsed r = true <-> length (kind r) = 3%nat) /\
  (parsed r = true -> kind r !! 2%nat = Some unalloc -> valid r = false).
Proof.
  intros r. destruct (Instruction_ctor_decoded_ok env a) as (D1 & D2 & D3 & _).
  auto.
Qed.

(** X2. In a record that is parsed and valid every destination slot holds a
    register number or [-1], the count of source registers is between [0]
    and [3], and every counted source is a register number. *)
Theorem decoded_registers_in_range (env : Env) (a : Z) :
  let r := Instruction_ctor env a in
  parsed r = true -> valid r = true ->
  dest_ok (Rd r) /\ dest_ok (Rd2 r) /\
  0 <= numSourceRegisters r <= 3 /\
  Forall reg_ok (sources r).
Proof.
  intros r Hp Hv. subst r.
  destruct (Instruction_ctor_decoded_ok env a)
    as (_ & _ & _ & D4 & D5 & D6 & D7 & _).
  destruct (D7 Hp Hv) as [Hn Hs]. unfold dest_ok in *. repeat split; auto; lia.
Qed.

Lemma decoded_registers_in_range_witness :
  let r := Instruction_ctor (Samples.image [Samples.ldp_x29_x30]) 0x1000 in
  dest_ok (Rd r) /\ dest_ok (Rd2 r) /\
  0 <= numSourceRegisters r <= 3 /\
  Forall reg_ok (sources r).
Proof.
  apply (decoded_registers_in_range (Samples.image [Samples.ldp_x29_x30]) 0x1000);
    vm_compute; reflexivity.
Defined.

(** X3. A record classified as a direct branch or direct call always carries
    a label, so the traversal's [CRASH_UNLESS(label)] cannot fire on a record
    the constructor built. *)
Theorem direct_branch_has_label (env : Env) (a : Z) :
  isDirectBranch (Instruction_ctor env a) = true ->
  is_Some (label (Instruction_ctor env a)).
Proof.
  intros H. destruct (Instruction_ctor_decoded_ok env a)
    as (_ & _ & _ & _ & _ & _ & _ & D8 & _).
  exact (D8 H).
Qed.

Lemma direct_branch_has_label_witness :
  is_Some (label (Instruction_ctor (Samples.image [MoreSamples.b_8]) 0x1000)).
Proof.
  apply (direct_branch_has_label (Samples.image [MoreSamples.b_8]) 0x1000).
  vm_compute. reflexivity.
Defined.

(** X4. A record classified as a call, direct (BL) or indirect (BLR), has the
    link register as its destination and the address of the next word as its
    result. *)
Theorem call_writes_link_register (env : Env) (a : Z) :
  isCall (Instruction_ctor env a) = true ->
  Rd (Instruction_ctor env a) = RLINK /\
  result (Instruction_ctor env a) = Some (s64 (s64 a + 4)).
Proof.
  intros H. destruct (Instruction_ctor_decoded_ok env a)
    as (_ & _ & _ & _ & _ & _ & _ & _ & D9 & _).
  exact (D9 H).
Qed.

Lemma call_writes_link_register_witness :
  Rd (Instruction_ctor (Samples.image [MoreSamples.blr_x1]) 0x1000) = RLINK /\
  result (Instruction_ctor (Samples.image [MoreSamples.blr_x1]) 0x1000)
    = Some (s64 (s64 0x1000 + 4)).
Proof.
  apply (call_writes_link_register (Samples.image [MoreSamples.blr_x1]) 0x1000).
  vm_compute. reflexivity.
Defined.

(** X5. A record classified as a return has no destination register. *)
Theorem return_has_no_destination (env : Env) (a : Z) :
  isReturn (Instruction_ctor env a) = true ->
  Rd (Instruction_ctor env a) = -1 /\ Rd2 (Instruction_ctor env a) = -1.
Proof.
  intros H. destruct (Instruction_ctor_decoded_ok env a)
    as (_ & _ & _ & _ & _ & _ & _ & _ & _ & D10).
  exact (D10 H).
Qed.

Lemma return_has_no_destination_witness :
  Rd (Instruction_ctor (Samples.image [MoreSamples.ret]) 0x1000) = -1 /\
  Rd2 (Instruction_ctor (Samples.image [MoreSamples.ret]) 0x1000) = -1.
Proof.
  apply (return_has_no_destination (Samples.image [MoreSamples.ret]) 0x1000).
  vm_compute. reflexivity.
Defined.

(** ** The register of an immediate offset, and page addresses *)

Ltac eval_decides H :=
  repeat match type of H with
  | context [bool_decide ?P] =>
      let b := eval vm_compute in (bool_decide P) in
      change (bool_decide P) with b in H
  | context [Z.to_nat ?z] =>
      let n := eval vm_compute in (Z.to_nat z) in
      change (Z.to_nat z) with n in H
  end.

Ltac offset_leaf :=
  unfold offset_base_ok, hasImmOffsetOnReg;
  cbn [imm set_imm push_kind set_kind set_Rd set_Rs set_Rs_at new_Instruction
       set_RdRs0CanBeSP set_RdCanBeSP set_Rs0CanBeSP set_shiftType
       set_numSourceRegisters set_extendType set_cond set_result set_label
       set_branchType set_valid set_parsed set_wback set_postindex set_Rd2];
  try (intros; discriminate);
  unfold isStore, isLoadOrStore, isAddOrSubImm, kind2_starts;
  cbn -[bool_decide];
  let H := fresh "H" in
  intros H; eval_decides H; cbn in H;
  try discriminate H;
  repeat match goal with
  | H : (_ || _) = true |- _ => apply orb_true_iff in H as [H | H]
  | H : (_ =? _) = true |- _ => apply Z.eqb_eq in H
  end;
  try solve [ discriminate | lia | left; congruence
            | right; split; [reflexivity | congruence] ].

Lemma dp_register_offset code reg a :
  0 <= reg -> offset_base_ok code reg (decode_dp_register code (new_Instruction a)).
Proof. intros Hreg. family_cases; offset_leaf. Qed.

Lemma dp_immediate_offset code pc reg a :
  0 <= reg -> offset_base_ok code reg (decode_dp_immediate code pc (new_Instruction a)).
Proof. intros Hreg. family_cases; offset_leaf. Qed.

Lemma branches_offset code pc reg a :
  0 <= reg -> offset_base_ok code reg (decode_branches code pc (new_Instruction a)).
Proof. intros Hreg. family_cases; offset_leaf. Qed.

Lemma loads_stores_offset code reg a :
  0 <= reg -> offset_base_ok code reg (decode_loads_stores code (new_Instruction a)).
Proof. intros Hreg. family_cases; offset_leaf. Qed.

Lemma finish_more_fields (r : Instruction) :
  result (finish r) = result r /\ label (finish r) = label r /\
  branchType (finish r) = branchType r /\ cond (finish r) = cond r.
Proof. unfold finish. split_ifs; repeat split; reflexivity. Qed.

Lemma hasImmOffsetOnReg_finish (reg : Z) (r : Instruction) :
  hasImmOffsetOnReg reg (finish r) = hasImmOffsetOnReg reg r.
Proof.
  destruct (finish_fields r) as (_ & Hk & Hd & Hd2 & Hn & Hs & Hi).
  unfold hasImmOffsetOnReg, isStore, isLoadOrStore, isAddOrSubImm, kind2_starts.
  now rewrite Hk, Hd, Hd2, Hn, Hs, Hi.
Qed.

Lemma decode_offset code pc reg a :
  0 <= reg -> offset_base_ok code reg (decode code pc (new_Instruction a)).
Proof.
  intros Hreg. unfold offset_base_ok, decode. cbv zeta.
  rewrite hasImmOffsetOnReg_finish.
  destruct (finish_fields
    (if bits code 28 25 <=? 3
     then set_valid false (push_kind "Invalid instruction"
            (set_valid false (push_kind "Invalid instruction"
               (set_valid false (push_kind "Invalid instruction" (new_Instruction a))))))
     else if Z.land (bits code 28 25) 7 =? 5 then decode_dp_register code (new_Instruction a)
     else if Z.land (bits code 28 25) 7 =? 7
          then push_kind "Data Processing -- Scalar Floating-Point and Advanced SIMD"
                 (new_Instruction a)
     else if Z.lor (bits code 28 25) 1 =? 9
          then decode_dp_immediate code pc (new_Instruction a)
     else if Z.lor (bits code 28 25) 1 =? 11
          then decode_branches code pc (new_Instruction a)
     else if Z.land (bits code 28 25) 5 =? 4
          then decode_loads_stores code (new_Instruction a)
     else set_valid false (push_kind "ERROR: Our top-level bit patterns have a gap!"
                             (new_Instruction a)))) as (_ & -> & _).
  destruct (bits code 28 25 <=? 3); [offset_leaf|].
  destruct (Z.land (bits code 28 25) 7 =? 5); [now apply dp_register_offset|].
  destruct (Z.land (bits code 28 25) 7 =? 7); [offset_leaf|].
  destruct (Z.lor (bits code 28 25) 1 =? 9); [now apply dp_immediate_offset|].
  destruct (Z.lor (bits code 28 25) 1 =? 11); [now apply branches_offset|].
  destruct (Z.land (bits code 28 25) 5 =? 4); [now apply loads_stores_offset|].
  offset_leaf.
Qed.



Lemma SignExtend_shift_aligned (x n : Z) :
  12 <= n -> (4096 | SignExtend (Z.shiftl x 12) n).
Proof.
  intros Hn. unfold SignExtend. cbv zeta.
  rewrite Z.land_ones by lia. rewrite Z.shiftl_mul_pow2 by lia.
  replace (2 ^ n) with (2 ^ (n - 12) * 2 ^ 12)
    by (rewrite <- Z.pow_add_r by lia; f_equal; lia).
  rewrite Z.mul_mod_distr_r by lia. change (2 ^ 12) with 4096.
  destruct (Z.testbit _ _).
  - exists (x mod 2 ^ (n - 12) - 2 ^ (n - 12)). lia.
  - exists (x mod 2 ^ (n - 12)). lia.
Qed.

Lemma s64_aligned (y : Z) : (4096 | y) -> (4096 | s64 y).
Proof.
  intros [q ->]. unfold s64.
  rewrite Z.mod_eq by lia.
  exists (q - 2 ^ 52 * ((q * 4096 + 2 ^ 63) / 2 ^ 64)).
  change (2 ^ 64) with (2 ^ 52 * 4096). lia.
Qed.

Lemma adrp_result_aligned (pc x n : Z) :
  12 <= n ->
  s64 (Z.shiftl (Z.shiftr pc 12) 12 + SignExtend (Z.shiftl x 12) n) mod 4096 = 0.
Proof.
  intros Hn. apply Z.mod_divide; [lia|]. apply s64_aligned.
  apply Z.divide_add_r; [|now apply SignExtend_shift_aligned].
  rewrite Z.shiftl_mul_pow2 by lia. exists (Z.shiftr pc 12). reflexivity.
Qed.

Ltac adrp_leaf :=
  unfold adrp_ok; cbn;
  let H := fresh "H" in
  intros H; try discriminate H;
  try solve [ eexists; split; [reflexivity|]; split;
              [apply adrp_result_aligned; vm_compute; discriminate | reflexivity] ].

Lemma dp_register_adrp code a : adrp_ok (decode_dp_register code (new_Instruction a)).
Proof. family_cases; adrp_leaf. Qed.

Lemma dp_immediate_adrp code pc a :
  adrp_ok (decode_dp_immediate code pc (new_Instruction a)).
Proof. family_cases; adrp_leaf. Qed.

Lemma branches_adrp code pc a : adrp_ok (decode_branches code pc (new_Instruction a)).
Proof. family_cases; adrp_leaf. Qed.

Lemma loads_stores_adrp code a : adrp_ok (decode_loads_stores code (new_Instruction a)).
Proof. family_cases; adrp_leaf. Qed.

Lemma finish_adrp (r : Instruction) : adrp_ok r -> adrp_ok (finish r).
Proof.
  unfold adrp_ok. destruct (finish_fields r) as (_ & -> & _).
  destruct (finish_more_fields r) as (-> & -> & _). auto.
Qed.

Lemma decode_adrp code pc a : adrp_ok (decode code pc (new_Instruction a)).
Proof.
  unfold decode. cbv zeta. apply finish_adrp.
  destruct (bits code 28 25 <=? 3); [adrp_leaf|].
  destruct (Z.land (bits code 28 25) 7 =? 5); [apply dp_register_adrp|].
  destruct (Z.land (bits code 28 25) 7 =? 7); [adrp_leaf|].
  destruct (Z.lor (bits code 28 25) 1 =? 9); [apply dp_immediate_adrp|].
  destruct (Z.lor (bits code 28 25) 1 =? 11); [apply branches_adrp|].
  destruct (Z.land (bits code 28 25) 5 =? 4); [apply loads_stores_adrp|].
  adrp_leaf.
Qed.

(** X7. The result of every record the constructor names ADRP is a multiple
    of the 4 KiB page size, and the record's label is that result. *)
Theorem adrp_result_is_page_address (env : Env) (a : Z) :
  kind (Instruction_ctor env a) !! 2%nat = Some "ADRP" ->
  exists v, result (Instruction_ctor env a) = Some v /\ v mod 4096 = 0 /\
            label (Instruction_ctor env a) = Some (u64 v).
Proof.
  unfold Instruction_ctor. cbv zeta.
  destruct (getBase env (s64 a) =? 0).
  - discriminate.
  - exact (decode_adrp (mem env a) (s64 a) a).
Qed.

Lemma adrp_result_is_page_address_witness :
  exists v,
    result (Instruction_ctor (mkEnv (fun _ => 1) (fun _ => MoreSamples.adrp_x0_page1)) 0x1234) = Some v /\
    v mod 4096 = 0 /\
    label (Instruction_ctor (mkEnv (fun _ => 1) (fun _ => MoreSamples.adrp_x0_page1)) 0x1234)
      = Some (u64 v).
Proof.
  apply (adrp_result_is_page_address (mkEnv (fun _ => 1) (fun _ => MoreSamples.adrp_x0_page1)) 0x1234).
  vm_compute. reflexivity.
Defined.

(* ===================================================================== *)
(** * 12. Further properties of the traversal *)
(* ===================================================================== *)

Lemma Forall_reg_ok_range (l : list Z) :
  Forall reg_ok l -> forall s, s ∈ l -> 0 <= s < max_size.
Proof. intros H s Hs. rewrite Forall_forall in H. exact (H s Hs). Qed.

Lemma ProcessRegisterDependencies_total (i : Instruction) (m : list (gset nat)) :
  Forall reg_ok (sources i) -> is_Some (ProcessRegisterDependencies i m).
Proof.
  intros Hs. pose proof (Forall_reg_ok_range _ Hs) as Hsrc.
  unfold ProcessRegisterDependencies, ProcessRegisterDependencies_for.
  destruct (0 <=? Rd i); destruct (0 <=? Rd2 i); cbn.
  - destruct (gather_deps_total (sources i) m ∅ Hsrc) as [new ->]. cbn.
    destruct (gather_deps_total (sources i) (<[Z.to_nat (Rd i):=new]> m) ∅ Hsrc)
      as [out ->]. cbn. eauto.
  - destruct (gather_deps_total (sources i) m ∅ Hsrc) as [new ->]. cbn. eauto.
  - destruct (gather_deps_total (sources i) m ∅ Hsrc) as [new ->]. cbn. eauto.
  - eauto.
Qed.

Lemma ProcessRegisterDependencies_length (i : Instruction) (m m' : list (gset nat)) :
  ProcessRegisterDependencies i m = Some m' -> length m' = length m.
Proof.
  unfold ProcessRegisterDependencies, ProcessRegisterDependencies_for.
  destruct (0 <=? Rd i); destruct (0 <=? Rd2 i); cbn; intros H.
  - destruct (gather_deps (sources i) m ∅) as [new|]; [|discriminate]. cbn in H.
    destruct (gather_deps (sources i) _ ∅) as [out|]; [|discriminate]. cbn in H.
    injection H as <-. now rewrite !length_insert.
  - destruct (gather_deps (sources i) m ∅) as [new|]; [|discriminate]. cbn in H.
    injection H as <-. now rewrite length_insert.
  - destruct (gather_deps (sources i) m ∅) as [new|]; [|discriminate]. cbn in H.
    injection H as <-. now rewrite length_insert.
  - now injection H as <-.
Qed.

(** X8. On a record the constructor built that is parsed and valid, the
    dependency update never reaches its [SAFE_ABORT]: it returns a map for
    every map it is given. *)
Theorem dependency_update_never_aborts (env : Env) (a : Z) (m : list (gset nat)) :
  parsed (Instruction_ctor env a) = true ->
  valid (Instruction_ctor env a) = true ->
  is_Some (ProcessRegisterDependencies (Instruction_ctor env a) m).
Proof.
  intros Hp Hv. apply ProcessRegisterDependencies_total.
  destruct (Instruction_ctor_decoded_ok env a)
    as (_ & _ & _ & _ & _ & _ & D7 & _).
  exact (proj2 (D7 Hp Hv)).
Qed.

Lemma dependency_update_never_aborts_witness :
  is_Some (ProcessRegisterDependencies
             (Instruction_ctor (Samples.image [Samples.ldp_x29_x30]) 0x1000)
             initial_depMap).
Proof.
  apply (dependency_update_never_aborts (Samples.image [Samples.ldp_x29_x30]) 0x1000);
    vm_compute; reflexivity.
Defined.

(** ** The invariant of a run *)

Lemma insts_alter (f : InstructionTree -> InstructionTree) (this : nat)
    (l : list InstructionTree) :
  (forall t, inst (f t) = inst t) -> inst <$> alter f this l = inst <$> l.
Proof.
  intros Hf. apply list_eq. intros k. rewrite !list_lookup_fmap.
  destruct (decide (k = this)) as [-> | Hne].
  - rewrite list_lookup_alter_eq. destruct (l !! this); cbn; [now rewrite Hf | reflexivity].
  - rewrite list_lookup_alter_ne by auto. reflexivity.
Qed.

Lemma insts_lookup (s : ParseState) (k : nat) (i : Instruction) :
  insts s !! k = Some i <-> exists t, nodes s !! k = Some t /\ inst t = i.
Proof.
  unfold insts. rewrite list_lookup_fmap. destruct (nodes s !! k) as [t|]; cbn.
  - split; [intros [= <-]; eauto | intros (t' & [= <-] & <-); reflexivity].
  - split; [discriminate | intros (t' & [=] & _)].
Qed.

Lemma node_addrs_lookup (s : ParseState) (k : nat) (i : Instruction) :
  insts s !! k = Some i -> node_addrs s !! k = Some (addr i).
Proof. intros H. unfold node_addrs. rewrite list_lookup_fmap, H. reflexivity. Qed.

Lemma node_addrs_length (s : ParseState) : length (node_addrs s) = length (nodes s).
Proof. unfold node_addrs, insts. now rewrite !length_fmap. Qed.

Lemma edges_ok_app (addrs more : list Z) (t : InstructionTree) :
  edges_ok addrs t -> edges_ok (addrs ++ more) t.
Proof.
  intros [Hb Hn]. split.
  - intros b Eb. destruct (Hb b Eb) as (l & Hl & Ha). exists l. split; [exact Hl|].
    now apply lookup_app_l_Some.
  - intros n En. apply lookup_app_l_Some. exact (Hn n En).
Qed.

Section traversal_invariant.
Variable env : Env.
Variable root : Z.

Local Abbreviation inv := (traversal_inv env root).

Lemma inv_set_dependencyMap (d : list (gset nat)) (s : ParseState) :
  inv s -> length d = 32%nat -> inv (set_dependencyMap d s).
Proof. intros [Hbuilt Hfront Hdep Hcount Hroot Hmemo Hedges Hcand] Hd. constructor; assumption. Qed.

Lemma inv_set_functionCandidates (target : Z) (this : nat) (i : Instruction)
    (s : ParseState) :
  inv s -> insts s !! this = Some i ->
  isDirectBranch i = true -> isCall i = true -> label i = Some target ->
  inv (set_functionCandidates
         (match functionCandidates s !! target with
          | Some _ => functionCandidates s
          | None => <[target := dependencyMap s]> (functionCandidates s)
          end) s).
Proof.
  intros [Hbuilt Hfront Hdep Hcount Hroot Hmemo Hedges Hcand] Hi Hd Hc Hl. constructor; try assumption.
  cbn [functionCandidates set_functionCandidates]. intros a d.
  destruct (functionCandidates s !! target) eqn:E; [apply Hcand|].
  destruct (decide (a = target)) as [-> | Hne].
  - rewrite lookup_insert_eq. intros [= <-]. split; [assumption|].
    exists i. split; [|auto]. eapply list_elem_of_lookup_2. exact Hi.
  - rewrite lookup_insert_ne by auto. apply Hcand.
Qed.

Lemma inv_alter (f : InstructionTree -> InstructionTree) (this : nat) (s : ParseState) :
  inv s -> (forall t, inst (f t) = inst t) ->
  (forall t, nodes s !! this = Some t -> edges_ok (node_addrs s) t ->
             edges_ok (node_addrs s) (f t)) ->
  inv (set_nodes (alter f this (nodes s)) s).
Proof.
  intros [Hbuilt Hfront Hdep Hcount Hroot Hmemo Hedges Hcand] Hf He.
  assert (Hi : insts (set_nodes (alter f this (nodes s)) s) = insts s)
    by (unfold insts; cbn [nodes set_nodes]; now apply insts_alter).
  assert (Ha : node_addrs (set_nodes (alter f this (nodes s)) s) = node_addrs s)
    by (unfold node_addrs; now rewrite Hi).
  constructor.
  - now rewrite Hi.
  - cbn [frontier nodes set_nodes]. now rewrite length_alter.
  - assumption.
  - unfold pending. rewrite Ha. exact Hcount.
  - now rewrite Ha.
  - intros pc n. rewrite Ha. apply Hmemo.
  - rewrite Ha. cbn [nodes set_nodes]. apply Forall_alter; [assumption|].
    intros t Ht. apply He. exact Ht.
  - intros a d Hd. destruct (Hcand a d Hd) as [Hlen Hex].
    split; [exact Hlen|]. now rewrite Hi.
Qed.

Lemma inv_set_branch (this b : nat) (i : Instruction) (l : Z) (s : ParseState) :
  inv s -> insts s !! this = Some i -> label i = Some l ->
  node_addrs s !! b = Some l ->
  inv (set_nodes (alter (set_branch (Some b)) this (nodes s)) s).
Proof.
  intros Hinv Hi Hl Hb. apply inv_alter; [exact Hinv | reflexivity|].
  intros t Ht [_ Hn]. apply insts_lookup in Hi as (t' & Ht' & <-).
  rewrite Ht in Ht'. injection Ht' as <-. split.
  - intros b' [= <-]. exists l. auto.
  - exact Hn.
Qed.

Lemma inv_set_noBranch (this n : nat) (i : Instruction) (s : ParseState) :
  inv s -> insts s !! this = Some i ->
  node_addrs s !! n = Some (u64 (addr i + 4)) ->
  inv (set_nodes (alter (set_noBranch (Some n)) this (nodes s)) s).
Proof.
  intros Hinv Hi Hn. apply inv_alter; [exact Hinv | reflexivity|].
  intros t Ht [Hb _]. apply insts_lookup in Hi as (t' & Ht' & <-).
  rewrite Ht in Ht'. injection Ht' as <-. split.
  - exact Hb.
  - intros n' [= <-]. exact Hn.
Qed.

Lemma insts_set_nodes_alter (f : InstructionTree -> InstructionTree) (this : nat)
    (s : ParseState) :
  (forall t, inst (f t) = inst t) ->
  insts (set_nodes (alter f this (nodes s)) s) = insts s.
Proof. intros Hf. unfold insts. cbn [nodes set_nodes]. now apply insts_alter. Qed.

Lemma pending_app (addrs : list Z) (x : Z) (fr : list (nat * list (gset nat))) :
  Forall (fun p => (p.1 < length addrs)%nat /\ length p.2 = 32%nat) fr ->
  (fun p => (addrs ++ [x]) !!! p.1) <$> fr = (fun p => addrs !!! p.1) <$> fr.
Proof.
  intros H. apply Forall_fmap_ext_1. eapply Forall_impl; [exact H|].
  intros p [Hp _]. cbn. now apply lookup_total_app_l.
Qed.

Lemma inv_FindOrCreateInstruction (pc : Z) (s s' : ParseState) (n : nat) :
  inv s -> FindOrCreateInstruction env pc s = (n, s') ->
  inv s' /\ node_addrs s' !! n = Some pc /\
  dependencyMap s' = dependencyMap s /\
  forall k i, insts s !! k = Some i -> insts s' !! k = Some i.
Proof.
  intros Hinv. unfold FindOrCreateInstruction.
  destruct (codeToInstTree s !! pc) as [p|] eqn:E.
  - intros [= <- <-]. split; [exact Hinv|]. split; [|auto].
    now apply (inv_memo _ _ _ Hinv).
  - cbn. intros [= <- <-]. destruct Hinv as [Hbuilt Hfront Hdep Hcount Hroot Hmemo Hedges Hcand].
    set (new := mkTree (Instruction_ctor env pc) None None).
    assert (Hi : forall v1 v2 v3,
               insts (set_codeToInstTree v1 (set_frontier v2 (set_nodes (nodes s ++ [new]) v3)))
               = insts s ++ [Instruction_ctor env pc]).
    { intros. unfold insts. cbn [nodes set_nodes set_frontier set_codeToInstTree].
      now rewrite fmap_app. }
    assert (Ha : forall v1 v2 v3,
               node_addrs (set_codeToInstTree v1 (set_frontier v2 (set_nodes (nodes s ++ [new]) v3)))
               = node_addrs s ++ [pc]).
    { intros. unfold node_addrs. rewrite Hi, fmap_app. cbn.
      now rewrite Instruction_ctor_addr. }
    assert (Hlen : length (node_addrs s) = length (nodes s)) by apply node_addrs_length.
    assert (Hpos : (1 <= length (nodes s))%nat).
    { apply lookup_lt_Some in Hroot. lia. }
    split; [|split; [|split]].
    + constructor.
      * rewrite Hi. apply Forall_app. split; [assumption|].
        constructor; [|constructor]. now rewrite Instruction_ctor_addr.
      * cbn [frontier nodes set_codeToInstTree set_frontier set_nodes dependencyMap].
        rewrite length_app. cbn. constructor; [split; [cbn; lia | assumption]|].
        eapply Forall_impl; [exact Hfront|]. intros p [H1 H2]. split; [lia | exact H2].
      * assumption.
      * unfold pending. rewrite Ha.
        cbn [frontier expanded set_codeToInstTree set_frontier set_nodes dependencyMap nodes].
        rewrite fmap_cons. cbn [fst].
        rewrite pending_app by (now rewrite Hlen).
        rewrite <- Hlen. rewrite list_lookup_total_middle by reflexivity.
        fold (pending s). rewrite <- Permutation_middle, <- Hcount.
        apply Permutation_cons_append.
      * rewrite Ha. now apply lookup_app_l_Some.
      * intros a k. rewrite Ha.
        cbn [codeToInstTree set_codeToInstTree set_frontier set_nodes].
        destruct (decide (a = pc)) as [-> | Hne].
        -- rewrite lookup_insert_eq. split.
           ++ intros [= <-]. split; [lia|]. rewrite <- Hlen.
              now apply list_lookup_middle.
           ++ intros [Hk Hl].
              destruct (decide (k < length (node_addrs s))%nat) as [Hlt | Hge].
              ** rewrite lookup_app_l in Hl by exact Hlt.
                 pose proof (proj2 (Hmemo pc k) (conj Hk Hl)) as Hm. congruence.
              ** apply lookup_lt_Some in Hl. rewrite length_app in Hl. cbn in Hl.
                 f_equal. lia.
        -- rewrite lookup_insert_ne by auto. rewrite Hmemo. split.
           ++ intros [Hk Hl]. split; [exact Hk|]. now apply lookup_app_l_Some.
           ++ intros [Hk Hl]. split; [exact Hk|].
              destruct (decide (k < length (node_addrs s))%nat) as [Hlt | Hge].
              ** now rewrite lookup_app_l in Hl by exact Hlt.
              ** assert (k = length (node_addrs s)) as ->.
                 { apply lookup_lt_Some in Hl. rewrite length_app in Hl. cbn in Hl. lia. }
                 rewrite list_lookup_middle in Hl by reflexivity. congruence.
      * rewrite Ha. cbn [nodes set_codeToInstTree set_frontier set_nodes].
        apply Forall_app. split.
        -- eapply Forall_impl; [exact Hedges|]. intros t. apply edges_ok_app.
        -- constructor; [|constructor]. split; intros ? [=].
      * intros a d Hd. destruct (Hcand a d Hd) as [Hl (i & Hi1 & Hi2)].
        split; [exact Hl|]. exists i. split; [|exact Hi2].
        unfold insts in *. cbn [nodes set_codeToInstTree set_frontier set_nodes].
        rewrite fmap_app. apply elem_of_app. now left.
    + rewrite Ha, <- Hlen. now apply list_lookup_middle.
    + reflexivity.
    + intros k i Hk. rewrite Hi. now apply lookup_app_l_Some.
Qed.

(** Taking the top of the worklist and entering [PopulateChildren] on it. *)
Lemma inv_pop (p : nat * list (gset nat)) (rest : list (nat * list (gset nat)))
    (node : InstructionTree) (s : ParseState) :
  inv s -> frontier s = p :: rest -> nodes s !! p.1 = Some node ->
  inv (set_expanded (expanded s ++ [addr (inst node)])
         (set_dependencyMap p.2 (set_frontier rest s))).
Proof.
  intros [Hbuilt Hfront Hdep Hcount Hroot Hmemo Hedges Hcand] Hfr Hnode. rewrite Hfr in Hfront.
  apply Forall_cons in Hfront as [[Hp Hlen] Hrest].
  constructor; try assumption.
  cbn [expanded set_expanded]. unfold pending in *.
  cbn [frontier set_expanded set_dependencyMap set_frontier].
  rewrite Hfr, fmap_cons in Hcount.
  change (node_addrs (set_expanded _ _)) with (node_addrs s).
  assert (node_addrs s !!! p.1 = addr (inst node)) as Ha.
  { apply list_lookup_total_correct. apply node_addrs_lookup.
    apply insts_lookup. eauto. }
  rewrite Ha in Hcount. rewrite <- app_assoc. exact Hcount.
Qed.

Lemma PopulateChildren_inv (this : nat) (node : InstructionTree) (s : ParseState) :
  nodes s !! this = Some node ->
  inv (set_expanded (expanded s ++ [addr (inst node)]) s) ->
  exists s', PopulateChildren env this s = Some s' /\ inv s'.
Proof.
  intros Hnode H0. unfold PopulateChildren. rewrite Hnode. cbv zeta.
  set (s0 := set_expanded _ s) in *.
  assert (Hi0 : insts s0 !! this = Some (inst node))
    by (apply insts_lookup; exists node; split; [exact Hnode | reflexivity]).
  assert (Hb : inst node = Instruction_ctor env (addr (inst node))).
  { pose proof (inv_built _ _ _ H0) as HB. rewrite Forall_forall in HB.
    apply HB. eapply list_elem_of_lookup_2. exact Hi0. }
  clearbody s0. clear Hnode.
  remember (inst node) as i eqn:Ei. clear Ei node.
  destruct (Instruction_ctor_decoded_ok env (addr i))
    as (_ & _ & _ & _ & _ & _ & D7 & D8 & _).
  rewrite <- Hb in D7, D8.
  destruct (parsed i) eqn:Hp; [|cbn; eauto].
  destruct (valid i) eqn:Hv; [|cbn; eauto].
  cbn [negb orb].
  destruct (isReturn i); [eauto|].
  destruct (ProcessRegisterDependencies_total i (dependencyMap s0)
              (proj2 (D7 eq_refl eq_refl))) as [d Hd].
  rewrite Hd. cbn [mbind option_bind].
  assert (H1 : inv (set_dependencyMap d s0)).
  { apply inv_set_dependencyMap; [exact H0|].
    rewrite (ProcessRegisterDependencies_length _ _ _ Hd). exact (inv_depMap _ _ _ H0). }
  assert (Hi1 : insts (set_dependencyMap d s0) !! this = Some i) by exact Hi0.
  generalize dependent (set_dependencyMap d s0). clear Hd d H0 Hi0 s0.
  intros s1 H1 Hi1.
  match goal with
  | |- exists s', ?mid ≫= _ = _ /\ _ =>
      assert (Hmid : exists s2, mid = Some s2 /\ inv s2 /\ insts s2 !! this = Some i)
  end.
  { destruct (isDirectBranch i) eqn:Hdir; [|eauto].
    destruct (D8 eq_refl) as [l Hl]. rewrite Hl. cbn [mbind option_bind].
    destruct (FindOrCreateInstruction env l s1) as [b sa] eqn:EF.
    destruct (inv_FindOrCreateInstruction _ _ _ _ H1 EF) as (Ha & Hba & _ & Hpre).
    pose proof (Hpre _ _ Hi1) as Hia.
    pose proof (inv_set_branch this b i l sa Ha Hia Hl Hba) as Hb2.
    assert (Hib : insts (set_nodes (alter (set_branch (Some b)) this (nodes sa)) sa)
                    !! this = Some i)
      by (rewrite insts_set_nodes_alter by reflexivity; exact Hia).
    cbv zeta. destruct (isCall i) eqn:Hcall.
    - eexists. split; [reflexivity|]. split.
      + exact (inv_set_functionCandidates l this i _ Hb2 Hib Hdir Hcall Hl).
      + exact Hib.
    - eauto. }
  destruct Hmid as (s2 & -> & H2 & Hi2). cbn [mbind option_bind].
  destruct (negb (isUnconditionalBranch i)); [|eauto].
  destruct (FindOrCreateInstruction env (u64 (addr i + 4)) s2) as [n sb] eqn:EF.
  destruct (inv_FindOrCreateInstruction _ _ _ _ H2 EF) as (Hb3 & Hn & _ & Hpre).
  eexists. split; [reflexivity|].
  exact (inv_set_noBranch this n i sb Hb3 (Hpre _ _ Hi2) Hn).
Qed.

Lemma drain_inv (fuel : nat) (s : ParseState) :
  inv s ->
  match drain env fuel s with
  | Finished s' => inv s' /\ frontier s' = []
  | Crashed => False
  | OutOfFuel => True
  end.
Proof.
  revert s. induction fuel as [|fuel IH]; intros s Hinv; cbn.
  - destruct (frontier s) eqn:E; [auto | exact I].
  - destruct (frontier s) as [|p rest] eqn:E; [auto|].
    assert (Hp : (p.1 < length (nodes s))%nat).
    { pose proof (inv_frontier _ _ _ Hinv) as HF. rewrite E in HF.
      apply Forall_cons in HF as [[Hp _] _]. exact Hp. }
    destruct (lookup_lt_is_Some_2 _ _ Hp) as [node Hnode].
    destruct (PopulateChildren_inv p.1 node
                (set_dependencyMap p.2 (set_frontier rest s)) Hnode
                (inv_pop p rest node s Hinv E Hnode)) as (s' & -> & Hs').
    apply IH. exact Hs'.
Qed.

End traversal_invariant.

Lemma AssemblyFunction_inv (env : Env) (fuel : nat) (pc : Z) :
  match AssemblyFunction env fuel pc with
  | Finished s => traversal_inv env pc s /\ frontier s = []
  | Crashed => False
  | OutOfFuel => True
  end.
Proof.
  unfold AssemblyFunction. cbn -[drain Instruction_ctor initial_depMap].
  apply drain_inv. constructor; cbn -[Instruction_ctor initial_depMap].
  - constructor; [|constructor]. now rewrite Instruction_ctor_addr.
  - constructor; [|constructor]. cbn. split; [lia | reflexivity].
  - reflexivity.
  - unfold pending, node_addrs, insts. cbn -[Instruction_ctor initial_depMap].
    rewrite Instruction_ctor_addr. reflexivity.
  - unfold node_addrs, insts. cbn -[Instruction_ctor]. now rewrite Instruction_ctor_addr.
  - intros a n. rewrite lookup_empty. split; [discriminate|].
    intros [Hn Hl]. unfold node_addrs, insts in Hl. cbn -[Instruction_ctor] in Hl.
    destruct n; [lia | discriminate].
  - constructor; [|constructor]. split; intros ? [=].
  - intros a d. rewrite lookup_empty. discriminate.
Qed.

Lemma times_decoded_addrs (a : Z) (s : ParseState) :
  times_decoded a s = length (filter (fun x => x = a) (node_addrs s)).
Proof.
  unfold times_decoded, node_addrs, insts.
  induction (nodes s) as [|t l IH]; [reflexivity|].
  rewrite !fmap_cons, !filter_cons.
  destruct (decide (addr (inst t) = a)); cbn [length]; now rewrite IH.
Qed.

Lemma filter_eq_absent (a : Z) (l : list Z) :
  a ∉ l -> filter (fun x => x = a) l = [].
Proof.
  induction l as [|x l IH]; intros H; [reflexivity|].
  apply not_elem_of_cons in H as [Hne Hl].
  rewrite filter_cons. destruct (decide (x = a)); [congruence | auto].
Qed.

Lemma filter_eq_NoDup (a : Z) (l : list Z) :
  NoDup l -> (length (filter (fun x => x = a) l) <= 1)%nat.
Proof.
  induction 1 as [|x l Hx Hl IH]; [cbn; lia|].
  rewrite filter_cons. destruct (decide (x = a)) as [-> | Hne]; [|exact IH].
  rewrite (filter_eq_absent a l Hx). cbn. lia.
Qed.

Lemma inv_NoDup (env : Env) (root : Z) (s : ParseState) :
  traversal_inv env root s ->
  node_addrs s = root :: drop 1 (node_addrs s) /\ NoDup (drop 1 (node_addrs s)).
Proof.
  intros H. split.
  - pose proof (inv_root _ _ _ H) as Hr.
    destruct (node_addrs s) as [|x l]; [discriminate|].
    cbn in Hr. injection Hr as ->. reflexivity.
  - apply NoDup_alt. intros i j x Hi Hj. rewrite lookup_drop in Hi, Hj.
    assert (codeToInstTree s !! x = Some (1 + i)%nat) as Mi
      by (apply (inv_memo _ _ _ H); split; [lia | exact Hi]).
    assert (codeToInstTree s !! x = Some (1 + j)%nat) as Mj
      by (apply (inv_memo _ _ _ H); split; [lia | exact Hj]).
    rewrite Mi in Mj. injection Mj. lia.
Qed.

(** X9. A run of the constructor of [AssemblyFunction] never aborts, whatever
    the memory holds: on the records the constructor builds neither the
    [SAFE_ABORT] of the dependency update nor [CRASH_UNLESS(label)] is
    reached. *)
Theorem AssemblyFunction_never_crashes (env : Env) (fuel : nat) (pc : Z) :
  AssemblyFunction env fuel pc <> Crashed.
Proof.
  intros E. pose proof (AssemblyFunction_inv env fuel pc) as H.
  rewrite E in H. exact H.
Qed.

(** X10. When the worklist is empty every node that was built has been
    expanded exactly once: the addresses [PopulateChildren] was entered with
    are the addresses of the nodes, up to order, so each address was expanded
    as often as it was decoded. *)
Theorem every_node_expanded_once (env : Env) (fuel : nat) (pc : Z) (s : ParseState) :
  AssemblyFunction env fuel pc = Finished s ->
  expanded s ≡ₚ node_addrs s /\
  forall a, times_expanded a s = times_decoded a s.
Proof.
  intros E. pose proof (AssemblyFunction_inv env fuel pc) as H.
  rewrite E in H. destruct H as [H Hfr].
  assert (Hperm : expanded s ≡ₚ node_addrs s).
  { pose proof (inv_count _ _ _ H) as Hc. unfold pending in Hc.
    rewrite Hfr in Hc. cbn in Hc. now rewrite app_nil_r in Hc. }
  split; [exact Hperm|]. intros a. rewrite times_decoded_addrs.
  unfold times_expanded. now rewrite Hperm.
Qed.

Lemma every_node_expanded_once_witness :
  exists s,
    AssemblyFunction (Samples.image Samples.loop_to_entry) 6 0x1000 = Finished s /\
    expanded s ≡ₚ node_addrs s /\
    forall a, times_expanded a s = times_decoded a s.
Proof.
  destruct (AssemblyFunction (Samples.image Samples.loop_to_entry) 6 0x1000)
    as [s| |] eqn:E.
  - exists s. split; [reflexivity|].
    exact (every_node_expanded_once (Samples.image Samples.loop_to_entry) 6 0x1000 s E).
  - exfalso. vm_compute in E. discriminate E.
  - exfalso. vm_compute in E. discriminate E.
Defined.

(** X11. The entry address has a node; no address is decoded more than twice,
    and no address other than the entry more than once. *)
Theorem address_decoded_at_most_twice (env : Env) (fuel : nat) (pc : Z)
    (s : ParseState) :
  AssemblyFunction env fuel pc = Finished s ->
  (1 <= times_decoded pc s <= 2)%nat /\
  forall a, a <> pc -> (times_decoded a s <= 1)%nat.
Proof.
  intros E. pose proof (AssemblyFunction_inv env fuel pc) as H.
  rewrite E in H. destruct H as [H _].
  destruct (inv_NoDup _ _ _ H) as [Hsplit Hnd].
  split.
  - rewrite times_decoded_addrs, Hsplit, filter_cons.
    pose proof (filter_eq_NoDup pc _ Hnd).
    destruct (decide (pc = pc)); [cbn [length]; lia | congruence].
  - intros a Ha. rewrite times_decoded_addrs, Hsplit, filter_cons.
    destruct (decide (pc = a)); [congruence|]. apply filter_eq_NoDup, Hnd.
Qed.

Lemma address_decoded_at_most_twice_witness :
  exists s,
    AssemblyFunction (Samples.image Samples.loop_to_entry) 6 0x1000 = Finished s /\
    (1 <= times_decoded 0x1000 s <= 2)%nat /\
    forall a, a <> 0x1000 -> (times_decoded a s <= 1)%nat.
Proof.
  destruct (AssemblyFunction (Samples.image Samples.loop_to_entry) 6 0x1000)
    as [s| |] eqn:E.
  - exists s. split; [reflexivity|].
    exact (address_decoded_at_most_twice
             (Samples.image Samples.loop_to_entry) 6 0x1000 s E).
  - exfalso. vm_compute in E. discriminate E.
  - exfalso. vm_compute in E. discriminate E.
Defined.

(** X12. The memo records exactly the nodes built by
    [FindOrCreateInstruction], each under its own address: an address is
    mapped to a node if and only if that node is not the root and was decoded
    at that address.  The root, built by the constructor of
    [AssemblyFunction] itself, is never in the memo. *)
Theorem memo_records_all_but_root (env : Env) (fuel : nat) (pc : Z) (s : ParseState) :
  AssemblyFunction env fuel pc = Finished s ->
  node_addrs s !! 0%nat = Some pc /\
  forall a n, codeToInstTree s !! a = Some n <->
              (1 <= n)%nat /\ node_addrs s !! n = Some a.
Proof.
  intros E. pose proof (AssemblyFunction_inv env fuel pc) as H.
  rewrite E in H. destruct H as [H _].
  split; [exact (inv_root _ _ _ H) | exact (inv_memo _ _ _ H)].
Qed.

Lemma memo_records_all_but_root_witness :
  exists s,
    AssemblyFunction (Samples.image Samples.loop_to_entry) 6 0x1000 = Finished s /\
    node_addrs s !! 0%nat = Some 0x1000 /\
    forall a n, codeToInstTree s !! a = Some n <->
                (1 <= n)%nat /\ node_addrs s !! n = Some a.
Proof.
  destruct (AssemblyFunction (Samples.image Samples.loop_to_entry) 6 0x1000)
    as [s| |] eqn:E.
  - exists s. split; [reflexivity|].
    exact (memo_records_all_but_root
             (Samples.image Samples.loop_to_entry) 6 0x1000 s E).
  - exfalso. vm_compute in E. discriminate E.
  - exfalso. vm_compute in E. discriminate E.
Defined.

(** X13. The children of every node are nodes of the run: [branch] is the
    node decoded at the label of the node's record, [noBranch] the node
    decoded at the word after it. *)
Theorem children_at_label_and_next (env : Env) (fuel : nat) (pc : Z) (s : ParseState)
    (k : nat) (t : InstructionTree) :
  AssemblyFunction env fuel pc = Finished s ->
  nodes s !! k = Some t ->
  (forall b, branch t = Some b ->
     exists l, label (inst t) = Some l /\ node_addrs s !! b = Some l) /\
  (forall n, noBranch t = Some n ->
     node_addrs s !! n = Some (u64 (addr (inst t) + 4))).
Proof.
  intros E Hk. pose proof (AssemblyFunction_inv env fuel pc) as H.
  rewrite E in H. destruct H as [H _].
  pose proof (inv_edges _ _ _ H) as He. rewrite Forall_forall in He.
  apply He. eapply list_elem_of_lookup_2. exact Hk.
Qed.

Lemma children_at_label_and_next_witness :
  exists s t,
    AssemblyFunction (Samples.image [Samples.cbz_x0_8; MoreSamples.ret; MoreSamples.ret])
      6 0x1000 = Finished s /\
    nodes s !! 0%nat = Some t /\
    (forall b, branch t = Some b ->
       exists l, label (inst t) = Some l /\ node_addrs s !! b = Some l) /\
    (forall n, noBranch t = Some n ->
       node_addrs s !! n = Some (u64 (addr (inst t) + 4))).
Proof.
  destruct (AssemblyFunction
              (Samples.image [Samples.cbz_x0_8; MoreSamples.ret; MoreSamples.ret])
              6 0x1000) as [s| |] eqn:E.
  - destruct (nodes s !! 0%nat) as [t|] eqn:Et.
    + exists s, t. split; [reflexivity|]. split; [exact Et|].
      exact (children_at_label_and_next
               (Samples.image [Samples.cbz_x0_8; MoreSamples.ret; MoreSamples.ret])
               6 0x1000 s 0 t E Et).
    + exfalso. vm_compute in E. injection E as <-. discriminate Et.
  - exfalso. vm_compute in E. discriminate E.
  - exfalso. vm_compute in E. discriminate E.
Defined.

(** X14. Every function candidate of a run is the label of a direct call
    (BL) among the decoded records, and the dependency map stored with it has
    32 entries. *)
Theorem candidates_are_call_targets (env : Env) (fuel : nat) (pc : Z) (s : ParseState)
    (a : Z) (d : list (gset nat)) :
  AssemblyFunction env fuel pc = Finished s ->
  functionCandidates s !! a = Some d ->
  length d = 32%nat /\
  exists i, i ∈ insts s /\ isDirectBranch i = true /\ isCall i = true /\
            label i = Some a.
Proof.
  intros E Hd. pose proof (AssemblyFunction_inv env fuel pc) as H.
  rewrite E in H. destruct H as [H _].
  exact (inv_candidates _ _ _ H a d Hd).
Qed.

Lemma candidates_are_call_targets_witness :
  exists s d,
    AssemblyFunction (Samples.image [MoreSamples.bl_8; MoreSamples.ret; MoreSamples.ret])
      6 0x1000 = Finished s /\
    functionCandidates s !! 0x1008 = Some d /\
    length d = 32%nat /\
    exists i, i ∈ insts s /\ isDirectBranch i = true /\ isCall i = true /\
              label i = Some 0x1008.
Proof.
  destruct (AssemblyFunction
              (Samples.image [MoreSamples.bl_8; MoreSamples.ret; MoreSamples.ret])
              6 0x1000) as [s| |] eqn:E.
  - destruct (functionCandidates s !! 0x1008) as [d|] eqn:Ed.
    + exists s, d. split; [reflexivity|]. split; [exact Ed|].
      exact (candidates_are_call_targets
               (Samples.image [MoreSamples.bl_8; MoreSamples.ret; MoreSamples.ret])
               6 0x1000 s 0x1008 d E Ed).
    + exfalso. vm_compute in E. injection E as <-. discriminate Ed.
  - exfalso. vm_compute in E. discriminate E.
  - exfalso. vm_compute in E. discriminate E.
Defined.

(** ** A run outside every image *)

Lemma Instruction_ctor_no_base (env : Env) (pc : Z) :
  getBase env (s64 pc) = 0 -> Instruction_ctor env pc = new_Instruction pc.
Proof. intros H. unfold Instruction_ctor. cbv zeta. now rewrite H. Qed.



(** ** The dependency sets *)

(** X16. [OnlySelfDeps] holds for a register exactly when its dependency set
    is the singleton of the register itself. *)
Theorem OnlySelfDeps_singleton (reg : nat) (depMap : list (gset nat)) :
  OnlySelfDeps reg depMap = true <-> depMap !!! reg = ({[ reg ]} : gset nat).
Proof.
  unfold OnlySelfDeps. cbv zeta. rewrite andb_true_iff, !bool_decide_eq_true. split.
  - intros [Hsize Hin]. apply set_eq. intros x. rewrite elem_of_singleton. split.
    + intros Hx. exact (size_singleton_inv _ x reg Hsize Hx Hin).
    + intros ->. exact Hin.
  - intros ->. split; [apply size_singleton | now apply elem_of_singleton].
Qed.

Lemma insert_same_total (d : nat) (U : gset nat) (m : list (gset nat)) :
  (d < length m -> m !!! d = U)%nat -> <[d := U]> m = m.
Proof.
  intros H. destruct (decide (d < length m)%nat) as [Hlt | Hge].
  - apply list_insert_id. rewrite <- (H Hlt).
    now apply list_lookup_lookup_total_lt.
  - apply list_insert_ge. lia.
Qed.

(** Gathering again from a map in which the gathered set was stored at up to
    two places gives the same set. *)
Lemma gather_deps_after_updates (srcs : list Z) (depMap : list (gset nat))
    (d d2 : nat) (new out : gset nat) :
  gather_deps srcs depMap ∅ = Some new ->
  gather_deps srcs (<[d2 := new]> (<[d := new]> depMap)) ∅ = Some out ->
  out = new.
Proof.
  intros H1 H2. apply set_eq. intros x.
  rewrite (gather_deps_union _ _ _ H1 x), (gather_deps_union _ _ _ H2 x).
  assert (Hcase : forall s : Z,
    <[d2:=new]> (<[d:=new]> depMap) !!! Z.to_nat s = new \/
    <[d2:=new]> (<[d:=new]> depMap) !!! Z.to_nat s = depMap !!! Z.to_nat s).
  { intros s. destruct (decide (d2 = Z.to_nat s)) as [<- | Hne2].
    - destruct (decide (d2 < length depMap)%nat) as [Hlt | Hge].
      + left. apply list_lookup_total_insert_eq. now rewrite length_insert.
      + right. rewrite list_insert_ge by (rewrite length_insert; lia).
        destruct (decide (d = d2)) as [-> | Hne].
        * now rewrite list_insert_ge by lia.
        * now rewrite list_lookup_total_insert_ne.
    - rewrite list_lookup_total_insert_ne by exact Hne2.
      destruct (decide (d = Z.to_nat s)) as [<- | Hne].
      + destruct (decide (d < length depMap)%nat) as [Hlt | Hge].
        * left. now apply list_lookup_total_insert_eq.
        * right. now rewrite list_insert_ge by lia.
      + right. now rewrite list_lookup_total_insert_ne. }
  split; intros (s & Hs & Hx).
  - destruct (Hcase s) as [E | E]; rewrite E in Hx.
    + now apply (gather_deps_union _ _ _ H1 x).
    + eauto.
  - exists s. split; [exact Hs|].
    destruct (Hcase s) as [E | E]; rewrite E; [|exact Hx].
    apply (gather_deps_union _ _ _ H1 x). eauto.
Qed.

(** X17. The dependency update is idempotent: applied to the map it
    returned, it returns that map again. *)
Theorem ProcessRegisterDependencies_idempotent (i : Instruction)
    (depMap depMap' : list (gset nat)) :
  ProcessRegisterDependencies i depMap = Some depMap' ->
  ProcessRegisterDependencies i depMap' = Some depMap'.
Proof.
  unfold ProcessRegisterDependencies, ProcessRegisterDependencies_for.
  destruct (0 <=? Rd i); destruct (0 <=? Rd2 i); cbn; intros H.
  - destruct (gather_deps (sources i) depMap ∅) as [new|] eqn:G1; [|discriminate].
    cbn in H.
    destruct (gather_deps (sources i) (<[Z.to_nat (Rd i):=new]> depMap) ∅)
      as [out|] eqn:G2; [|discriminate].
    cbn in H. injection H as <-.
    pose proof (gather_deps_after_update _ _ _ _ _ G1 G2) as ->.
    pose proof (gather_deps_in_range _ _ _ _ G1) as Hrange.
    destruct (gather_deps_total (sources i)
                (<[Z.to_nat (Rd2 i):=new]> (<[Z.to_nat (Rd i):=new]> depMap)) ∅ Hrange)
      as [w G3].
    rewrite G3. cbn.
    pose proof (gather_deps_after_updates _ _ _ _ _ _ G1 G3) as ->.
    assert (E : <[Z.to_nat (Rd i):=new]>
                  (<[Z.to_nat (Rd2 i):=new]> (<[Z.to_nat (Rd i):=new]> depMap))
                = <[Z.to_nat (Rd2 i):=new]> (<[Z.to_nat (Rd i):=new]> depMap)).
    { apply insert_same_total. rewrite !length_insert. intros Hlt.
      destruct (decide (Z.to_nat (Rd2 i) = Z.to_nat (Rd i))) as [-> | Hne].
      - apply list_lookup_total_insert_eq. now rewrite length_insert.
      - rewrite list_lookup_total_insert_ne by exact Hne.
        now apply list_lookup_total_insert_eq. }
    rewrite E, G3. cbn. now rewrite list_insert_insert_eq.
  - destruct (gather_deps (sources i) depMap ∅) as [new|] eqn:G1; [|discriminate].
    cbn in H. injection H as <-.
    pose proof (gather_deps_in_range _ _ _ _ G1) as Hrange.
    destruct (gather_deps_total (sources i) (<[Z.to_nat (Rd i):=new]> depMap) ∅ Hrange)
      as [w G2].
    rewrite G2. cbn.
    pose proof (gather_deps_after_update _ _ _ _ _ G1 G2) as ->.
    now rewrite list_insert_insert_eq.
  - destruct (gather_deps (sources i) depMap ∅) as [new|] eqn:G1; [|discriminate].
    cbn in H. injection H as <-.
    pose proof (gather_deps_in_range _ _ _ _ G1) as Hrange.
    destruct (gather_deps_total (sources i) (<[Z.to_nat (Rd2 i):=new]> depMap) ∅ Hrange)
      as [w G2].
    rewrite G2. cbn.
    pose proof (gather_deps_after_update _ _ _ _ _ G1 G2) as ->.
    now rewrite list_insert_insert_eq.
  - now injection H as <-.
Qed.

Lemma ProcessRegisterDependencies_idempotent_witness :
  let i := Instruction_ctor (Samples.image [Samples.ldp_x29_x30]) 0x1000 in
  exists depMap',
    ProcessRegisterDependencies i initial_depMap = Some depMap' /\
    ProcessRegisterDependencies i depMap' = Some depMap'.
Proof.
  intros i.
  destruct (ProcessRegisterDependencies i initial_depMap) as [d|] eqn:E.
  - exists d. split; [reflexivity|].
    exact (ProcessRegisterDependencies_idempotent i initial_depMap d E).
  - exfalso. vm_compute in E. discriminate E.
Defined.

(* ===================================================================== *)
(** * 13. Further properties of the pattern scan *)
(* ===================================================================== *)

Section findNth_further.
Import cs.
Variable disasm : Z -> option cs_insn.
Context {V : Type}.
Variables (nToRetOn retCount szBytes addr : Z).
Variable match_ : cs_insn -> option V.
Variable skip : cs_insn -> bool.

Local Abbreviation insn_at := (cs.insn_at disasm addr).
Local Abbreviation rets_before := (cs.rets_before disasm addr).
Local Abbreviation hits_before := (cs.hits_before disasm addr match_ skip).
Local Abbreviation loop :=
  (cs.findNth_loop disasm nToRetOn retCount szBytes addr match_ skip).

Lemma count_before_nonneg (p : option cs_insn -> bool) (k : nat) :
  0 <= cs.count_before disasm addr p k.
Proof. induction k as [|k IH]; cbn; [lia|]. destruct (p _); lia. Qed.

Lemma count_before_mono (p : option cs_insn -> bool) (k j : nat) :
  (k <= j)%nat -> cs.count_before disasm addr p k <= cs.count_before disasm addr p j.
Proof.
  induction 1 as [|j Hle IH]; [lia|]. cbn. destruct (p _); lia.
Qed.

Lemma count_before_next (p : option cs_insn -> bool) (k j : nat) :
  (k < j)%nat ->
  cs.count_before disasm addr p k + (if p (insn_at k) then 1 else 0)
    <= cs.count_before disasm addr p j.
Proof. intros H. exact (count_before_mono p (S k) j H). Qed.

Lemma findNth_loop_finds (j : nat) (insn : cs_insn) (v : V) :
  insn_at j = Some insn -> id insn <> ARM64_INS_RET -> match_ insn = Some v ->
  hits_before j = nToRetOn - 1 ->
  retCount < 0 \/ rets_before j <= retCount ->
  forall (words k : nat) (rCount nCalls : Z),
    rCount = retCount - rets_before k ->
    nCalls = nToRetOn - hits_before k ->
    (k <= j < k + words)%nat ->
    loop words (addr + 4 * Z.of_nat k) rCount nCalls = Returned v.
Proof.
  intros Hat Hret Hm Hh Hbudget.
  induction words as [|words IH]; intros k rCount nCalls Hr Hn Hk; [lia|].
  assert (Hnext : addr + 4 * Z.of_nat k + 4 = addr + 4 * Z.of_nat (S k)) by lia.
  cbn [cs.findNth_loop]. rewrite Hnext.
  destruct (decide (k = j)) as [-> | Hne].
  - unfold cs.insn_at in Hat. rewrite Hat.
    rewrite (bool_decide_eq_false_2 _ Hret), Hm.
    destruct (Z.eqb_spec nCalls 1); [reflexivity | lia].
  - assert (Hlt : (k < j)%nat) by lia.
    pose proof (count_before_next cs.is_ret k j Hlt) as HR.
    pose proof (count_before_next (cs.is_hit match_ skip) k j Hlt) as HH.
    pose proof (count_before_nonneg cs.is_ret k) as H0.
    fold (cs.rets_before disasm addr k) in HR, H0.
    fold (cs.rets_before disasm addr j) in HR.
    fold (cs.hits_before disasm addr match_ skip k) in HH.
    fold (cs.hits_before disasm addr match_ skip j) in HH.
    assert (HRS : rets_before (S k)
                  = rets_before k + (if cs.is_ret (insn_at k) then 1 else 0))
      by reflexivity.
    assert (HHS : hits_before (S k)
                  = hits_before k + (if cs.is_hit match_ skip (insn_at k) then 1 else 0))
      by reflexivity.
    assert (Hk' : (S k <= j < S k + words)%nat) by lia.
    unfold cs.insn_at in HR, HH, HRS, HHS.
    destruct (disasm (addr + 4 * Z.of_nat k)) as [i|] eqn:Ed;
      cbn [cs.is_ret cs.is_hit] in HR, HH, HRS, HHS.
    + destruct (decide (id i = ARM64_INS_RET)) as [Eret | Eret].
      * rewrite (bool_decide_eq_true_2 _ Eret) in HR, HH, HRS, HHS |- *.
        cbn [negb andb] in HH, HHS.
        destruct (Z.eqb_spec rCount 0) as [E0 | E0]; [exfalso; lia|].
        apply IH; [lia | lia | exact Hk'].
      * rewrite (bool_decide_eq_false_2 _ Eret) in HR, HH, HRS, HHS |- *.
        cbn [negb andb] in HH, HHS.
        destruct (match_ i) as [testRes|] eqn:Em.
        -- destruct (Z.eqb_spec nCalls 1) as [E1 | E1]; [exfalso; lia|].
           apply IH; [lia | lia | exact Hk'].
        -- destruct (skip i) eqn:Es.
           ++ destruct (Z.eqb_spec nCalls 1) as [E1 | E1]; [exfalso; lia|].
              apply IH; [lia | lia | exact Hk'].
           ++ apply IH; [lia | lia | exact Hk'].
    + apply IH; [lia | lia | exact Hk'].
Qed.

(** X18. The scan finds what is there: when word [j] of the window decodes to
    an instruction other than a return on which the match predicate gives
    [v], exactly [nToRetOn - 1] matches and skips stand before it, and the
    return budget is unlimited (negative) or not smaller than the number of
    returns before [j], then [findNth] returns [v]. *)
Theorem findNth_finds (j : nat) (insn : cs_insn) (v : V) :
  (j < Z.to_nat (szBytes / 4))%nat ->
  insn_at j = Some insn -> id insn <> ARM64_INS_RET -> match_ insn = Some v ->
  hits_before j = nToRetOn - 1 ->
  retCount < 0 \/ rets_before j <= retCount ->
  cs.findNth disasm nToRetOn retCount szBytes addr match_ skip = Returned v.
Proof.
  intros Hj Hat Hret Hm Hh Hb. unfold cs.findNth.
  pose proof (findNth_loop_finds j insn v Hat Hret Hm Hh Hb
                (Z.to_nat (szBytes / 4)) 0 retCount nToRetOn) as H.
  replace (addr + 4 * Z.of_nat 0) with addr in H by lia.
  apply H; [cbn; lia | cbn; lia | lia].
Qed.

Lemma findNth_loop_longer (words more : nat) (ptr rCount nCalls : Z) (v : V) (sz' : Z) :
  loop words ptr rCount nCalls = Returned v ->
  cs.findNth_loop disasm nToRetOn retCount sz' addr match_ skip
    (words + more) ptr rCount nCalls = Returned v.
Proof.
  revert ptr rCount nCalls.
  induction words as [|words IH]; intros ptr rCount nCalls; cbn [cs.findNth_loop Nat.add].
  - discriminate.
  - destruct (disasm ptr) as [i|]; [|apply IH].
    destruct (bool_decide (id i = ARM64_INS_RET)).
    + destruct (rCount =? 0); [discriminate | apply IH].
    + destruct (match_ i).
      * destruct (nCalls =? 1); [auto | apply IH].
      * destruct (skip i); [|apply IH].
        destruct (nCalls =? 1); [discriminate | apply IH].
Qed.

(** X19. A value found within a budget is found within every larger budget. *)
Theorem findNth_larger_budget (szBytes' : Z) (v : V) :
  szBytes <= szBytes' ->
  cs.findNth disasm nToRetOn retCount szBytes addr match_ skip = Returned v ->
  cs.findNth disasm nToRetOn retCount szBytes' addr match_ skip = Returned v.
Proof.
  intros Hle H. unfold cs.findNth in *.
  assert (Hw : (Z.to_nat (szBytes / 4) <= Z.to_nat (szBytes' / 4))%nat).
  { assert (szBytes / 4 <= szBytes' / 4) by (apply Z.div_le_mono; lia). lia. }
  replace (Z.to_nat (szBytes' / 4))
    with (Z.to_nat (szBytes / 4) + (Z.to_nat (szBytes' / 4) - Z.to_nat (szBytes / 4)))%nat
    by lia.
  now apply findNth_loop_longer.
Qed.

Lemma findNth_loop_unbounded (words : nat) (ptr rCount nCalls : Z) :
  rCount < 0 -> (forall insn, skip insn = false) ->
  (exists v, loop words ptr rCount nCalls = Returned v) \/
  loop words ptr rCount nCalls = Aborted (OutOfBytes nToRetOn addr retCount szBytes).
Proof.
  intros Hr Hs. revert ptr rCount nCalls Hr.
  induction words as [|words IH]; intros ptr rCount nCalls Hr; cbn [cs.findNth_loop].
  - now right.
  - destruct (disasm ptr) as [i|]; [|now apply IH].
    destruct (bool_decide (id i = ARM64_INS_RET)).
    + destruct (Z.eqb_spec rCount 0); [lia | apply IH; lia].
    + destruct (match_ i) as [v|].
      * destruct (nCalls =? 1); [left; eauto | now apply IH].
      * rewrite Hs. now apply IH.
Qed.

End findNth_further.

Lemma findNth_finds_witness :
  cs.findNth Samples.two_insns 1 (-1) 8 0x1000 cs.blConv (cs.insnMatch [])
    = cs.Returned 0x100C.
Proof.
  apply (findNth_finds Samples.two_insns 1 (-1) 8 0x1000 cs.blConv (cs.insnMatch [])
           1 (cs.mkInsn cs.ARM64_INS_BL 0x1004 "bl" [cs.mkOp 0 2]) 0x100C).
  - vm_compute. lia.
  - reflexivity.
  - discriminate.
  - reflexivity.
  - reflexivity.
  - left. lia.
Defined.

Lemma findNth_larger_budget_witness :
  cs.findNth Samples.two_insns 1 (-1) 4096 0x1000 cs.blConv (cs.insnMatch [])
    = cs.Returned 0x100C.
Proof.
  apply (findNth_larger_budget Samples.two_insns 1 (-1) 8 0x1000 cs.blConv
           (cs.insnMatch []) 4096 0x100C).
  - lia.
  - vm_compute. reflexivity.
Defined.

Lemma insnMatch_nil (insn : cs.cs_insn) : cs.insnMatch [] insn = false.
Proof.
  unfold cs.insnMatch. apply bool_decide_eq_false_2. apply not_elem_of_nil.
Qed.

(** X20. With an unlimited return budget (the default [retCount = -1]) and
    the empty skip predicate, the scans for BL, B, ADR/ADRP and ADD on a
    register fail in one way only: each returns a value or aborts with the
    exhaustion diagnostic. *)
Theorem default_scans_fail_only_by_exhaustion (disasm : Z -> option cs.cs_insn)
    (nToRetOn retCount szBytes addr reg : Z) :
  retCount < 0 ->
  let exhausted {V} (o : cs.outcome V) :=
    (exists v, o = cs.Returned v) \/
    o = cs.Aborted (cs.OutOfBytes nToRetOn addr retCount szBytes) in
  exhausted (cs.findNthBl disasm nToRetOn false retCount szBytes addr) /\
  exhausted (cs.findNthB disasm nToRetOn false retCount szBytes addr) /\
  exhausted (cs.findNthPcRel disasm nToRetOn retCount szBytes addr) /\
  exhausted (cs.findNthReg disasm nToRetOn retCount szBytes addr reg).
Proof.
  intros Hr exhausted. unfold exhausted.
  repeat split; apply findNth_loop_unbounded; solve [exact Hr | exact insnMatch_nil].
Qed.

Lemma default_scans_fail_only_by_exhaustion_witness :
  (exists v, cs.findNthBl Samples.two_insns 2 false (-1) 8 0x1000 = cs.Returned v) \/
  cs.findNthBl Samples.two_insns 2 false (-1) 8 0x1000
    = cs.Aborted (cs.OutOfBytes 2 0x1000 (-1) 8).
Proof.
  exact (proj1 (default_scans_fail_only_by_exhaustion Samples.two_insns 2 (-1) 8 0x1000 0
                  ltac:(lia))).
Defined.

Lemma findNth_loop_local (disasm disasm' : Z -> option cs.cs_insn) {V : Type}
    (nToRetOn retCount szBytes addr : Z) (match_ : cs.cs_insn -> option V)
    (skip : cs.cs_insn -> bool) (words : nat) (ptr rCount nCalls : Z) :
  (forall k : nat, (k < words)%nat ->
     disasm (ptr + 4 * Z.of_nat k) = disasm' (ptr + 4 * Z.of_nat k)) ->
  cs.findNth_loop disasm nToRetOn retCount szBytes addr match_ skip words ptr rCount nCalls
  = cs.findNth_loop disasm' nToRetOn retCount szBytes addr match_ skip words ptr rCount nCalls.
Proof.
  revert ptr rCount nCalls.
  induction words as [|words IH]; intros ptr rCount nCalls H; [reflexivity|].
  cbn [cs.findNth_loop].
  assert (H0 : disasm ptr = disasm' ptr).
  { specialize (H 0%nat ltac:(lia)). now replace (ptr + 4 * Z.of_nat 0) with ptr in H by lia. }
  assert (Hrest : forall rc nc,
             cs.findNth_loop disasm nToRetOn retCount szBytes addr match_ skip
               words (ptr + 4) rc nc
             = cs.findNth_loop disasm' nToRetOn retCount szBytes addr match_ skip
               words (ptr + 4) rc nc).
  { intros rc nc. apply IH. intros k Hk. specialize (H (S k) ltac:(lia)).
    now replace (ptr + 4 + 4 * Z.of_nat k) with (ptr + 4 * Z.of_nat (S k)) by lia. }
  rewrite <- H0. destruct (disasm ptr) as [i|]; [|apply Hrest].
  destruct (bool_decide (cs.id i = cs.ARM64_INS_RET)).
  - destruct (rCount =? 0); [reflexivity | apply Hrest].
  - destruct (match_ i).
    + destruct (nCalls =? 1); [reflexivity | apply Hrest].
    + destruct (skip i); [|apply Hrest].
      destruct (nCalls =? 1); [reflexivity | apply Hrest].
Qed.

(** X21. The scan reads its window only: two disassemblers that agree on the
    [szBytes / 4] words from [addr] give the same outcome, whatever lies
    before or after. *)
Theorem findNth_reads_window_only (disasm disasm' : Z -> option cs.cs_insn) {V : Type}
    (nToRetOn retCount szBytes addr : Z) (match_ : cs.cs_insn -> option V)
    (skip : cs.cs_insn -> bool) :
  (forall k : nat, (k < Z.to_nat (szBytes / 4))%nat ->
     disasm (addr + 4 * Z.of_nat k) = disasm' (addr + 4 * Z.of_nat k)) ->
  cs.findNth disasm nToRetOn retCount szBytes addr match_ skip
  = cs.findNth disasm' nToRetOn retCount szBytes addr match_ skip.
Proof. intros H. unfold cs.findNth. now apply findNth_loop_local. Qed.

Lemma findNth_reads_window_only_witness :
  cs.findNth Samples.two_insns 1 (-1) 4 0x1000 cs.blConv (cs.insnMatch [])
  = cs.findNth
      (fun a => if a =? 0x1000 then Samples.two_insns a else None)
      1 (-1) 4 0x1000 cs.blConv (cs.insnMatch []).
Proof.
  apply (findNth_reads_window_only Samples.two_insns
           (fun a => if a =? 0x1000 then Samples.two_insns a else None)).
  intros k Hk. assert (k = 0%nat) as -> by (vm_compute in Hk; lia). reflexivity.
Defined.

Lemma findNth_returned (disasm : Z -> option cs.cs_insn) {V : Type}
    (nToRetOn retCount szBytes addr : Z) (match_ : cs.cs_insn -> option V)
    (skip : cs.cs_insn -> bool) (v : V) :
  1 <= nToRetOn ->
  cs.findNth disasm nToRetOn retCount szBytes addr match_ skip = cs.Returned v ->
  exists (j : nat) insn,
    (j < Z.to_nat (szBytes / 4))%nat /\
    disasm (addr + 4 * Z.of_nat j) = Some insn /\ match_ insn = Some v.
Proof.
  intros Hn H.
  pose proof (findNth_loop_outcome disasm nToRetOn retCount szBytes addr match_ skip
                (Z.to_nat (szBytes / 4)) 0 retCount nToRetOn) as Ho.
  replace (addr + 4 * Z.of_nat 0) with addr in Ho by lia.
  unfold cs.findNth in H. rewrite H in Ho.
  destruct Ho as (j & insn & Hj & Hat & _ & Hm & _); [cbn; lia | cbn; lia | exact Hn|].
  exists j, insn. split; [lia|]. split; [exact Hat | exact Hm].
Qed.

(** X22. What [getpcaddr] returns, when the disassembler reports each
    instruction at the address it was read from: an ADR or ADRP in the window
    at [addr], and an ADD on the register that instruction writes, found in
    a window of the same size that starts at the ADR or ADRP itself; the
    address returned is the one the first computes plus the immediate of the
    second. *)
Theorem getpcaddr_locates (disasm : Z -> option cs.cs_insn)
    (nToRetOn nImmOff szBytes addr a' r' t : Z) :
  (forall p insn, disasm p = Some insn -> cs.address insn = p) ->
  1 <= nToRetOn -> 1 <= nImmOff ->
  cs.getpcaddr disasm nToRetOn nImmOff szBytes addr = Some (a', r', t) ->
  exists (j1 j2 : nat) (i1 i2 : cs.cs_insn) (dst : Z),
    (j1 < Z.to_nat (szBytes / 4))%nat /\ (j2 < Z.to_nat (szBytes / 4))%nat /\
    disasm (addr + 4 * Z.of_nat j1) = Some i1 /\
    (cs.id i1 = cs.ARM64_INS_ADR \/ cs.id i1 = cs.ARM64_INS_ADRP) /\
    cs.pcRelConv i1
      = Some (addr + 4 * Z.of_nat j1, cs.reg (cs.operand i1 0), dst) /\
    disasm (addr + 4 * Z.of_nat j1 + 4 * Z.of_nat j2) = Some i2 /\
    cs.id i2 = cs.ARM64_INS_ADD /\
    cs.reg (cs.operand i2 1) = cs.reg (cs.operand i1 0) /\
    a' = addr + 4 * Z.of_nat j1 + 4 * Z.of_nat j2 /\
    r' = cs.reg (cs.operand i2 0) /\
    t = u64 (dst + cs.op_imm (cs.operand i2 2)).
Proof.
  intros Hfaith Hn Hm. unfold cs.getpcaddr.
  destruct (cs.findNth disasm nToRetOn (-1) szBytes addr cs.pcRelConv (cs.insnMatch []))
    as [[[a r] dst]|] eqn:E1; [|discriminate].
  destruct (cs.findNth disasm nImmOff (-1) szBytes a (cs.regMatchConv r) (cs.insnMatch []))
    as [[[a2 r2] off]|] eqn:E2; [|discriminate].
  intros [= <- <- <-].
  destruct (findNth_returned _ _ _ _ _ _ _ _ Hn E1) as (j1 & i1 & Hj1 & Hat1 & Hc1).
  assert (Ha : a = addr + 4 * Z.of_nat j1 /\ r = cs.reg (cs.operand i1 0) /\
               (cs.id i1 = cs.ARM64_INS_ADR \/ cs.id i1 = cs.ARM64_INS_ADRP)).
  { pose proof (Hfaith _ _ Hat1) as Hadr. unfold cs.pcRelConv in Hc1.
    destruct (cs.id i1); try discriminate; injection Hc1 as <- <- <-; auto. }
  destruct Ha as (-> & -> & Hid1).
  destruct (findNth_returned _ _ _ _ _ _ _ _ Hm E2) as (j2 & i2 & Hj2 & Hat2 & Hc2).
  pose proof (Hfaith _ _ Hat2) as Hadr2. unfold cs.regMatchConv in Hc2.
  destruct (cs.id i2) eqn:Hid2; try discriminate.
  destruct (Z.eqb_spec (cs.reg (cs.operand i2 1)) (cs.reg (cs.operand i1 0)))
    as [Hreg | Hreg]; [|discriminate].
  cbn in Hc2. injection Hc2 as <- <- <-.
  exists j1, j2, i1, i2, dst. repeat split; auto.
Qed.

Lemma getpcaddr_locates_witness :
  exists (j1 j2 : nat) (i1 i2 : cs.cs_insn) (dst : Z),
    (j1 < Z.to_nat (8 / 4))%nat /\ (j2 < Z.to_nat (8 / 4))%nat /\
    MoreSamples.adrp_add_insns (0x1000 + 4 * Z.of_nat j1) = Some i1 /\
    (cs.id i1 = cs.ARM64_INS_ADR \/ cs.id i1 = cs.ARM64_INS_ADRP) /\
    cs.pcRelConv i1
      = Some (0x1000 + 4 * Z.of_nat j1, cs.reg (cs.operand i1 0), dst) /\
    MoreSamples.adrp_add_insns (0x1000 + 4 * Z.of_nat j1 + 4 * Z.of_nat j2) = Some i2 /\
    cs.id i2 = cs.ARM64_INS_ADD /\
    cs.reg (cs.operand i2 1) = cs.reg (cs.operand i1 0) /\
    0x1004 = 0x1000 + 4 * Z.of_nat j1 + 4 * Z.of_nat j2 /\
    1 = cs.reg (cs.operand i2 0) /\
    0x2010 = u64 (dst + cs.op_imm (cs.operand i2 2)).
Proof.
  apply (getpcaddr_locates MoreSamples.adrp_add_insns 1 1 8 0x1000 0x1004 1 0x2010).
  - intros p insn. unfold MoreSamples.adrp_add_insns.
    destruct (Z.eqb_spec p 0x1000) as [-> | _]; [intros [= <-]; reflexivity|].
    destruct (Z.eqb_spec p 0x1004) as [-> | _]; [intros [= <-]; reflexivity|].
    discriminate.
  - lia.
  - lia.
  - vm_compute. reflexivity.
Defined.

(** ** Page addresses *)

(** X23. The address [pcRelConv] computes for an ADRP is a multiple of the
    page size as well. *)
Theorem pcRelConv_adrp_page_address (insn : cs.cs_insn) :
  cs.id insn = cs.ARM64_INS_ADRP ->
  exists dst,
    cs.pcRelConv insn
      = Some (cs.address insn, cs.reg (cs.operand insn 0), dst) /\
    dst mod 4096 = 0.
Proof.
  intros Hid. unfold cs.pcRelConv. rewrite Hid. eexists. split; [reflexivity|].
  apply Z.mod_divide; [lia|].
  unfold u64. rewrite Z.mod_eq by lia.
  rewrite !Z.shiftl_mul_pow2 by lia. change (2 ^ 12) with 4096.
  set (p := Z.shiftr (cs.address insn) 12).
  set (m := cs.op_imm (cs.operand insn 1)).
  exists (p + m - 2 ^ 52 * ((p * 4096 + m * 4096) / 2 ^ 64)).
  change (2 ^ 64) with (2 ^ 52 * 4096) at 1. lia.
Qed.

Lemma pcRelConv_adrp_page_address_witness :
  let insn := cs.mkInsn cs.ARM64_INS_ADRP 0x1234 "adrp" [cs.mkOp 0 0; cs.mkOp 0 1] in
  exists dst,
    cs.pcRelConv insn
      = Some (cs.address insn, cs.reg (cs.operand insn 0), dst) /\
    dst mod 4096 = 0.
Proof.
  intros insn. apply (pcRelConv_adrp_page_address insn). reflexivity.
Defined.

(* ===================================================================== *)
(** * 14. Further properties of the bit-field codec *)
(* ===================================================================== *)

Lemma of_bits_range (n : nat) (f : Z -> bool) :
  0 <= LogicalImmediate.of_bits n f < 2 ^ Z.of_nat n.
Proof.
  induction n as [|n IH]; cbn [LogicalImmediate.of_bits]; [cbn; lia|].
  rewrite Nat2Z.inj_succ, Z.pow_succ_r by lia.
  set (b := if f (Z.of_nat n) then 2 ^ Z.of_nat n else 0).
  assert (Hb : 0 <= b <= 2 ^ Z.of_nat n) by (unfold b; destruct (f _); lia).
  pose proof (Z.add_lor_land (LogicalImmediate.of_bits n f) b) as Hadd.
  assert (0 <= Z.land (LogicalImmediate.of_bits n f) b) by (apply Z.land_nonneg; lia).
  assert (0 <= Z.lor (LogicalImmediate.of_bits n f) b) by (apply Z.lor_nonneg; lia).
  lia.
Qed.

Lemma highest_below_range (n : nat) (x : Z) : -1 <= highest_below n x < Z.of_nat n.
Proof.
  induction n as [|n IH]; cbn [highest_below]; [lia|].
  destruct (Z.testbit x (Z.of_nat n)); lia.
Qed.

(** X24. A logical immediate that is not reserved decodes to a proper mask:
    [DecodeBitMasks] returns a value that is neither zero nor all ones, and
    that fits the register (or the 64-bit element, when [N] selects one for
    a 32-bit register). *)
Theorem DecodeBitMasks_mask_proper (N imms immr regSize : Z) :
  0 <= N < 2 -> 0 <= imms < 64 -> 0 <= immr < 64 ->
  regSize = 32 \/ regSize = 64 ->
  let len := element_len N imms in
  let levels := 2 ^ len - 1 in
  ~ (len < 1 \/ Z.land imms levels = levels) ->
  exists v, DecodeBitMasks N imms immr regSize = Some v /\
            0 < v < 2 ^ Z.max (2 ^ len) regSize - 1.
Proof.
  intros HN Hs Hr Hreg len levels Hok.
  pose proof (DecodeBitMasks_agrees_all N imms immr regSize HN Hs Hr Hreg) as A.
  unfold DecodeBitMasks_agrees in A. fold len in A. fold levels in A.
  destruct (DecodeBitMasks N imms immr regSize) as [v|]; [|discriminate].
  exists v. split; [reflexivity|].
  assert (Hlen : 1 <= len <= 6).
  { pose proof (highest_below_range (Z.to_nat 7)
                  (Z.lor (Z.shiftl N 6) (trunc (Z.lnot imms) 6))) as Hh.
    fold (HighestSetBit (Z.lor (Z.shiftl N 6) (trunc (Z.lnot imms) 6)) 7) in Hh.
    fold (element_len N imms) in Hh. fold len in Hh. lia. }
  destruct ((len <? 1) || (Z.land imms levels =? levels)) eqn:E.
  { exfalso. apply Hok. apply orb_true_iff in E. rewrite Z.ltb_lt, Z.eqb_eq in E.
    exact E. }
  apply andb_true_iff in A as [_ A]. apply Z.eqb_eq in A. clear E.
  subst levels. set (size := 2 ^ len) in *. set (levels := size - 1) in *.
  assert (Hsize : 2 <= size).
  { unfold size. change 2 with (2 ^ 1) at 1. apply Z.pow_le_mono_r; lia. }
  assert (Hlev : levels = Z.ones len).
  { unfold levels, size. rewrite Z.ones_equiv. lia. }
  set (S := Z.land imms levels) in *. set (R := Z.land immr levels) in *.
  assert (HS : 0 <= S < size - 1).
  { assert (0 <= S < size)
      by (unfold S; rewrite Hlev, Z.land_ones by lia; apply Z.mod_pos_bound; lia).
    assert (S <> levels) by (intros HE; apply Hok; right; exact HE).
    unfold levels in *. lia. }
  assert (HR : 0 <= R < size)
    by (unfold R; rewrite Hlev, Z.land_ones by lia; apply Z.mod_pos_bound; lia).
  set (top := Z.max size regSize) in *.
  assert (Htop : size <= top) by (unfold top; lia).
  assert (Hrange : 0 <= v < 2 ^ top).
  { rewrite A. unfold LogicalImmediate.pattern, LogicalImmediate.Replicate.
    fold top.
    pose proof (of_bits_range (Z.to_nat top)
      (fun i => Z.testbit (LogicalImmediate.RotateRight (LogicalImmediate.Ones (S + 1))
                             size R) (i mod size))) as Hb.
    rewrite Z2Nat.id in Hb by lia. exact Hb. }
  assert (Hone : Z.testbit v ((size - R) mod size) = true).
  { pose proof (Z.mod_pos_bound (size - R) size ltac:(lia)) as Hi.
    rewrite A, pattern_testbit by lia. fold top.
    rewrite Z.mod_mod by lia. rewrite Zplus_mod_idemp_l.
    replace (size - R + R) with size by lia. rewrite Z_mod_same_full.
    apply andb_true_iff. split; apply Z.ltb_lt; lia. }
  assert (Hzero : Z.testbit v ((size - 1 - R) mod size) = false).
  { pose proof (Z.mod_pos_bound (size - 1 - R) size ltac:(lia)) as Hi.
    rewrite A, pattern_testbit by lia. fold top.
    rewrite Z.mod_mod by lia. rewrite Zplus_mod_idemp_l.
    replace (size - 1 - R + R) with (size - 1) by lia.
    rewrite (Z.mod_small (size - 1)) by lia.
    apply andb_false_iff. right. apply Z.ltb_ge. lia. }
  assert (v <> 0) by (intros ->; now rewrite Z.testbit_0_l in Hone).
  assert (v <> 2 ^ top - 1).
  { intros Hv. rewrite Hv in Hzero.
    replace (2 ^ top - 1) with (Z.ones top) in Hzero by (rewrite Z.ones_equiv; lia).
    pose proof (Z.mod_pos_bound (size - 1 - R) size ltac:(lia)) as Hi.
    rewrite Z.ones_spec_low in Hzero by lia. discriminate. }
  lia.
Qed.

Lemma DecodeBitMasks_mask_proper_witness :
  exists v, DecodeBitMasks 1 0 0 64 = Some v /\
            0 < v < 2 ^ Z.max (2 ^ element_len 1 0) 64 - 1.
Proof.
  apply (DecodeBitMasks_mask_proper 1 0 0 64); try lia.
  vm_compute. intros [H | H]; discriminate H.
Defined.
